(** * Client-side RPC core: target parsing, service config, client stream

    A shallow embedding of the parts of the gRPC-Go client that the
    specification talks about:

    - [resolver_conn_wrapper.go]: [split2], [parseTarget] and the one-slot
      channels behind [NewAddress] / [NewServiceConfig];
    - [service_config.go]: [parseDuration], [min], [getMaxSize];
    - [stream.go]: [clientStream.finish], [csAttempt.sendMsg],
      [csAttempt.recvMsg], [csAttempt.finish] and the context derivation of
      [newClientStream];
    - [call.go]: the retry loop of [invoke].

    Go strings are byte strings and are modelled by [string]; Go [int] and
    [int64] are modelled by [Z] with the 64-bit wrap-around written out where
    arithmetic happens. *)

From Stdlib Require Import ZArith Lia List Bool Ascii String.
Import ListNotations.

Local Open Scope string_scope.
Local Open Scope Z_scope.

(** ** Go's [strings] package *)

Module GoStrings.

(** [CutPrefix s p] is [Some r] exactly when [s = p ++ r]
    (Go: [strings.HasPrefix] followed by the slice [s[len(p):]]). *)
Fixpoint CutPrefix (s p : string) {struct p} : option string :=
  match p, s with
  | EmptyString, _ => Some s
  | String a p', String b s' => if Ascii.eqb a b then CutPrefix s' p' else None
  | String _ _, EmptyString => None
  end.

Definition HasPrefix (s p : string) : bool :=
  match CutPrefix s p with Some _ => true | None => false end.

(** [strings.Contains]: [sep] occurs somewhere in [s]. *)
Fixpoint Contains (s sep : string) : bool :=
  HasPrefix s sep ||
  match s with
  | EmptyString => false
  | String _ s' => Contains s' sep
  end.

(** [Cut s sep] slices [s] around the first instance of [sep]
    ([strings.Index] and the two slices [s[:m]], [s[m+len(sep):]]). *)
Fixpoint Cut (s sep : string) : option (string * string) :=
  match CutPrefix s sep with
  | Some r => Some (EmptyString, r)
  | None =>
      match s with
      | EmptyString => None
      | String c s' =>
          match Cut s' sep with
          | Some (a, b) => Some (String c a, b)
          | None => None
          end
      end
  end.

(** [strings.SplitN(s, sep, n)] for a non-empty [sep] and [n >= 0]: at most
    [n] pieces, the last one being the unsplit remainder. *)
Fixpoint SplitN (s sep : string) (n : nat) : list string :=
  match n with
  | O => []
  | S O => [s]
  | S n' =>
      match Cut s sep with
      | None => [s]
      | Some (a, b) => a :: SplitN b sep n'
      end
  end.

(** [strings.HasSuffix]. *)
Fixpoint HasSuffix (s suffix : string) : bool :=
  String.eqb s suffix ||
  match s with
  | EmptyString => false
  | String _ s' => HasSuffix s' suffix
  end.

(** The slice [s[:len(s)-1]] of a non-empty string. *)
Fixpoint dropLast (s : string) : string :=
  match s with
  | EmptyString => EmptyString
  | String _ EmptyString => EmptyString
  | String c s' => String c (dropLast s')
  end.

End GoStrings.

(** ** [resolver_conn_wrapper.go]: target parsing *)

Module Target.
Import GoStrings.

(** [resolver.Target]. *)
Record Target : Type := mkTarget {
  Scheme : string;
  Authority : string;
  Endpoint : string
}.

(** [split2] returns the values from [strings.SplitN(s, sep, 2)], and
    [("", "", false)] when fewer than two pieces come back. *)
Definition split2 (s sep : string) : string * string * bool :=
  match SplitN s sep 2 with
  | a :: b :: _ => (a, b, true)
  | _ => (EmptyString, EmptyString, false)
  end.

Definition parseTarget (target : string) : Target :=
  let '(scheme, endpoint, ok) := split2 target "://" in
  if negb ok then mkTarget "" "" target
  else
    let '(authority, endpoint', ok') := split2 endpoint "/" in
    if negb ok' then mkTarget "" "" target
    else mkTarget scheme authority endpoint'.

(** The dial string a triple stands for. *)
Definition assemble (t : Target) : string :=
  Scheme t ++ "://" ++ Authority t ++ "/" ++ Endpoint t.

End Target.

(** ** Results of fallible Go functions: a value or an error *)

Inductive result (E A : Type) : Type :=
| Ok (a : A)
| Err (e : E).
Arguments Ok {E A} a.
Arguments Err {E A} e.

Definition rbind {E A B} (r : result E A) (k : A -> result E B) : result E B :=
  match r with
  | Ok a => k a
  | Err e => Err e
  end.

Declare Scope result_scope.
Delimit Scope result_scope with result.
Notation "x <- r ;; k" :=
  (rbind r (fun x => k))
  (at level 61, r at next level, right associativity) : result_scope.
Notation "' p <- r ;; k" :=
  (rbind r (fun x => match x with p => k end))
  (at level 61, p pattern, r at next level, right associativity) : result_scope.

(** ** Go's [strconv.ParseInt] in base 10 *)

Module GoStrconv.

Inductive NumError : Type := ErrSyntax | ErrRange.

Definition isDigit (c : ascii) : bool :=
  let n := Z.of_nat (nat_of_ascii c) in (48 <=? n) && (n <=? 57).

Definition digitVal (c : ascii) : Z := Z.of_nat (nat_of_ascii c) - 48.

(** The digit loop of [ParseUint]: a non-digit is a syntax error, a value
    above [maxVal] a range error, whichever comes first. *)
Fixpoint parseDigits (s : string) (maxVal n : Z) : result NumError Z :=
  match s with
  | EmptyString => Ok n
  | String c s' =>
      if isDigit c then
        let n1 := n * 10 + digitVal c in
        if maxVal <? n1 then Err ErrRange else parseDigits s' maxVal n1
      else Err ErrSyntax
  end.

Definition ParseUint (s : string) (bitSize : Z) : result NumError Z :=
  match s with
  | EmptyString => Err ErrSyntax
  | _ => parseDigits s (2 ^ bitSize - 1) 0
  end.

(** [ParseInt(s, 10, bitSize)]: an optional sign, then [ParseUint], then the
    signed range check against [cutoff = 1 << (bitSize-1)]. *)
Definition ParseInt (s : string) (bitSize : Z) : result NumError Z :=
  match s with
  | EmptyString => Err ErrSyntax
  | String c rest =>
      let '(neg, body) :=
        if Ascii.eqb c "+" then (false, rest)
        else if Ascii.eqb c "-" then (true, rest)
        else (false, s) in
      match ParseUint body bitSize with
      | Err e => Err e
      | Ok un =>
          let cutoff := 2 ^ (bitSize - 1) in
          if negb neg && (cutoff <=? un) then Err ErrRange
          else if neg && (cutoff <? un) then Err ErrRange
          else Ok (if neg then - un else un)
      end
  end.

End GoStrconv.

(** ** [service_config.go] *)

Module ServiceConfig.
Import GoStrings GoStrconv.
Local Open Scope result_scope.

(** Signed 64-bit wrap-around of [int64] / [time.Duration] arithmetic. *)
Definition wrap64 (z : Z) : Z := (z + 2 ^ 63) mod 2 ^ 64 - 2 ^ 63.

(** [time.Second], in nanoseconds. *)
Definition Second : Z := 1000000000.

(** The errors [parseDuration] builds with [fmt.Errorf]: the offending
    string and, when [ParseInt] failed, its error. *)
Inductive DurationError : Type :=
| Malformed (s : string) (cause : option NumError).

(** [for i := 9; i > len(ss[1]); i-- { f *= 10 }] *)
Fixpoint padNanos (steps : nat) (f : Z) : Z :=
  match steps with
  | O => f
  | S k => padNanos k (wrap64 (f * 10))
  end.

Definition len (s : string) : nat := String.length s.

Definition parseInt (s part : string) (bitSize : Z) : result DurationError Z :=
  match ParseInt part bitSize with
  | Ok i => Ok i
  | Err e => Err (Malformed s (Some e))
  end.

(** [parseDuration]; a [*string] is an [option string], the returned
    [*time.Duration] an [option Z] of nanoseconds. *)
Definition parseDuration (s : option string) : result DurationError (option Z) :=
  match s with
  | None => Ok None
  | Some s =>
      if negb (HasSuffix s "s") then Err (Malformed s None)
      else
        let ss := SplitN (dropLast s) "." 3 in
        if (2 <? List.length ss)%nat then Err (Malformed s None)
        else
          let ss0 := nth 0 ss EmptyString in
          let ss1 := nth 1 ss EmptyString in
          '(d, hasDigits) <-
            (if (0 <? len ss0)%nat then
               i <- parseInt s ss0 32 ;;
               Ok (wrap64 (i * Second), true)
             else Ok (0, false)) ;;
          '(d, hasDigits) <-
            (if (List.length ss =? 2)%nat && (0 <? len ss1)%nat then
               if (9 <? len ss1)%nat then Err (Malformed s None)
               else
                 f <- parseInt s ss1 64 ;;
                 Ok (wrap64 (d + padNanos (9 - len ss1) f), true)
             else Ok (d, hasDigits)) ;;
          if negb hasDigits then Err (Malformed s None)
          else Ok (Some d)
  end.

(** [MethodConfig]: every field is a pointer, [None] when absent. *)
Record MethodConfig : Type := mkMethodConfig {
  WaitForReady : option bool;
  Timeout : option Z;
  MaxReqSize : option Z;
  MaxRespSize : option Z
}.

(** [min] on the pointees; [getMaxSize] only calls it on two non-nil
    pointers. *)
Definition min (a b : Z) : Z := if a <? b then a else b.

(** [getMaxSize]; the result is a pointer again, never nil. *)
Definition getMaxSize (mcMax doptMax : option Z) (defaultVal : Z) : option Z :=
  match mcMax, doptMax with
  | None, None => Some defaultVal
  | Some a, Some b => Some (min a b)
  | Some a, None => Some a
  | None, Some b => Some b
  end.

End ServiceConfig.

(** ** Status codes and errors *)

Module Codes.

(** The status codes the client core produces. *)
Inductive Code : Type :=
| OK | Canceled | Unknown | DeadlineExceeded | ResourceExhausted
| Internal | Unavailable.

End Codes.

Module Errors.
Import Codes.

(** A non-nil Go [error] value as the client stream sees it; a Go [error]
    is an [option error] with [None] for nil. *)
Inductive error : Type :=
| io_EOF                                    (* the end-of-stream marker *)
| StatusError (c : Code) (msg : string)     (* status.Errorf(c, msg) *)
| PlainError (msg : string)                 (* errors.New(msg) *)
| ContextDeadlineExceeded                   (* context.DeadlineExceeded *)
| ContextCanceled                           (* context.Canceled *)
| TransportError (desc : string).           (* a transport-level failure *)

Definition isEOF (e : option error) : bool :=
  match e with
  | Some io_EOF => true
  | _ => false
  end.

Definition isNil (e : option error) : bool :=
  match e with
  | None => true
  | Some _ => false
  end.

(** The status code an error carries, if it is a status error. *)
Definition codeOf (e : error) : option Code :=
  match e with
  | StatusError c _ => Some c
  | _ => None
  end.

(** The text of the error [recvMsg] builds when a call that is not
    server-streaming receives a message after its first one. *)
Definition extraMessage : string :=
  "grpc: client streaming protocol violation: get <nil>, want <EOF>".

(** Modelled from the spec: [toRPCErr] lives in [rpc_util.go], which is not
    among the sources.  The spec's mapping rules (section 7), in their
    order: a context timeout becomes DeadlineExceeded, a cancelled context
    Cancelled, an unexpected extra message on a unary call Internal, a
    transport error Unavailable, and any other non-status error surfaces
    as Unknown; status errors are already status-coded and the
    end-of-stream marker is not an error status, so both are left as they
    are. *)
Definition toRPCErr (e : error) : error :=
  match e with
  | io_EOF => io_EOF
  | StatusError c msg => StatusError c msg
  | ContextDeadlineExceeded => StatusError DeadlineExceeded "context deadline exceeded"
  | ContextCanceled => StatusError Canceled "context canceled"
  | TransportError desc => StatusError Unavailable desc
  | PlainError msg =>
      if String.eqb msg extraMessage then StatusError Internal msg
      else StatusError Unknown msg
  end.

End Errors.

(** ** [stream.go]: the client stream *)

Module Stream.
Import Codes Errors.

Definition bytes : Type := list Byte.byte.
Definition Msg : Type := string.

(** [StreamDesc], without the handler. *)
Record StreamDesc : Type := mkStreamDesc {
  ServerStreams : bool;
  ClientStreams : bool
}.

(** [unaryStreamDesc] of [call.go]. *)
Definition unaryStreamDesc : StreamDesc := mkStreamDesc false false.

(** The fields of [callInfo] the stream reads.  [newClientStream] stores the
    result of [getMaxSize], which is never nil, in both size fields, so the
    record keeps the pointees. *)
Record callInfo : Type := mkCallInfo {
  failFast : bool;
  maxSendMessageSize : Z;
  maxReceiveMessageSize : Z
}.

(** [csAttempt]: optional collaborators are kept as presence flags, the
    decompressors by the name of their encoding. *)
Record csAttempt : Type := mkAttempt {
  done : bool;                 (* done != nil *)
  dc : option string;          (* dc.Type() when dc != nil *)
  decomp : option string;      (* the registered compressor found *)
  decompSet : bool;
  tr : bool;                   (* trInfo.tr != nil *)
  statsHandler : bool          (* statsHandler != nil *)
}.

(** [clientStream]; call options are named by a number. *)
Record clientStream : Type := mkClientStream {
  opts : list nat;
  c : callInfo;
  desc : StreamDesc;
  sentLast : bool;
  finished : bool;
  attempt : csAttempt
}.

(** What lies outside the client stream: package switches, the codec and
    compressor helpers of [rpc_util.go] ([encode], [compress], [msgHeader],
    [recv]) and the transport stream.  [Write k] and [recv k] give the
    outcome of the [k]-th call on this attempt. *)
Record World : Type := mkWorld {
  channelzOn : bool;
  EnableTracing : bool;
  encode : Msg -> result error bytes;
  compress : bytes -> result error (option bytes);
  msgHeader : bytes -> option bytes -> bytes * bytes;
  Write : nat -> option error;
  recv : nat -> option string -> option string -> Z -> option error;
  StatusErr : option error;        (* a.s.Status().Err() *)
  RecvCompress : string;
  BytesReceived : bool;
  Unprocessed : bool;
  GetCompressor : string -> option string
}.

(** The observable actions of a stream, in the order they happen. *)
Inductive Event : Type :=
| EvWrite (hdr payload : bytes) (last : bool)
| EvCloseStream (err : option error)
| EvDone (err : option error) (bytesSent bytesReceived : bool)
| EvStatsEnd (err : option error)
| EvStatsOutPayload
| EvStatsInPayload
| EvTraceLog
| EvTraceFinish (err : option error)
| EvAfter (opt : nat)
| EvCancel
| EvCallsFailed
| EvCallsSucceeded
| EvMsgSent
| EvMsgRecv.

(** The mutable state an operation threads: the stream, the number of
    transport writes and framed reads so far, and the actions so far. *)
Record State : Type := mkState {
  cs : clientStream;
  nWrites : nat;
  nRecvs : nat;
  trace : list Event
}.

Definition newState (s : clientStream) : State := mkState s 0 0 [].

(** A small state monad over [State]. *)
Definition M (A : Type) : Type := State -> A * State.

Definition ret {A} (a : A) : M A := fun st => (a, st).
Definition bind {A B} (m : M A) (k : A -> M B) : M B :=
  fun st => let '(a, st') := m st in k a st'.
Definition get : M State := fun st => (st, st).
Definition emit (e : Event) : M unit :=
  fun st => (tt, mkState (cs st) (nWrites st) (nRecvs st) (trace st ++ [e])).
Definition modifyStream (f : clientStream -> clientStream) : M unit :=
  fun st => (tt, mkState (f (cs st)) (nWrites st) (nRecvs st) (trace st)).
Definition when (b : bool) (m : M unit) : M unit :=
  if b then m else ret tt.

Declare Scope stream_scope.
Delimit Scope stream_scope with stream.
Notation "x <- m ;; k" := (bind m (fun x => k))
  (at level 61, m at next level, right associativity) : stream_scope.
Notation "m ;; k" := (bind m (fun _ => k))
  (at level 61, right associativity) : stream_scope.
Local Open Scope stream_scope.

Fixpoint forEach {A} (l : list A) (f : A -> M unit) : M unit :=
  match l with
  | [] => ret tt
  | x :: l' => f x ;; forEach l' f
  end.

Definition setFinished (s : clientStream) : clientStream :=
  mkClientStream (opts s) (c s) (desc s) (sentLast s) true (attempt s).
Definition setSentLast (s : clientStream) : clientStream :=
  mkClientStream (opts s) (c s) (desc s) true (finished s) (attempt s).
Definition setAttempt (a : csAttempt) (s : clientStream) : clientStream :=
  mkClientStream (opts s) (c s) (desc s) (sentLast s) (finished s) a.
Definition clearTr (a : csAttempt) : csAttempt :=
  mkAttempt (done a) (dc a) (decomp a) (decompSet a) false (statsHandler a).
Definition setDecomp (d : option string) (dcmp : option string) (a : csAttempt)
  : csAttempt :=
  mkAttempt (done a) d dcmp true (tr a) (statsHandler a).

Section WithWorld.
Variable w : World.

(** [csAttempt.finish] *)
Definition attempt_finish (err : option error) : M unit :=
  st <- get ;;
  let a := attempt (cs st) in
  emit (EvCloseStream err) ;;
  when (done a) (emit (EvDone err true (BytesReceived w))) ;;
  when (statsHandler a) (emit (EvStatsEnd err)) ;;
  when (tr a)
    (emit (EvTraceFinish err) ;;
     modifyStream (fun s => setAttempt (clearTr (attempt s)) s)).

(** [clientStream.finish]; the mutex makes the test and the set of
    [finished] one step. *)
Definition finish (err : option error) : M unit :=
  let err := if isEOF err then None else err in
  st <- get ;;
  if finished (cs st) then ret tt
  else
    modifyStream setFinished ;;
    when (channelzOn w)
      (emit (if negb (isNil err) then EvCallsFailed else EvCallsSucceeded)) ;;
    attempt_finish err ;;
    forEach (opts (cs st)) (fun o => emit (EvAfter o)) ;;
    emit EvCancel.

(** [Write] on the attempt's transport. *)
Definition transportWrite (hdr payload : bytes) (last : bool) : M (option error) :=
  fun st =>
    (Write w (nWrites st),
     mkState (cs st) (S (nWrites st)) (nRecvs st)
             (trace st ++ [EvWrite hdr payload last])).

(** One framed read through [recv]. *)
Definition framedRecv (withPayload : bool) : M (option error) :=
  fun st =>
    let a := attempt (cs st) in
    (recv w (nRecvs st) (dc a) (decomp a) (maxReceiveMessageSize (c (cs st))),
     mkState (cs st) (nWrites st) (S (nRecvs st)) (trace st)).

Definition tooLarge : error :=
  StatusError ResourceExhausted "trying to send message larger than max".

(** The body of [csAttempt.sendMsg], before the deferred function runs. *)
Definition sendMsg_body (m : Msg) : M (option error) :=
  st <- get ;;
  let s := cs st in
  when (EnableTracing w && tr (attempt s)) (emit EvTraceLog) ;;
  match encode w m with
  | Err e => ret (Some e)
  | Ok data =>
      match compress w data with
      | Err e => ret (Some e)
      | Ok compData =>
          let '(hdr, payload) := msgHeader w data compData in
          if maxSendMessageSize (c s) <? Z.of_nat (List.length payload)
          then ret (Some tooLarge)
          else
            when (negb (ClientStreams (desc s))) (modifyStream setSentLast) ;;
            err <- transportWrite hdr payload (negb (ClientStreams (desc s))) ;;
            match err with
            | None =>
                when (statsHandler (attempt s)) (emit EvStatsOutPayload) ;;
                when (channelzOn w) (emit EvMsgSent) ;;
                ret None
            | Some _ => ret (Some io_EOF)
            end
      end
  end.

(** [csAttempt.sendMsg]: the body, then the deferred function. *)
Definition sendMsg (m : Msg) : M (option error) :=
  err <- sendMsg_body m ;;
  st <- get ;;
  let err := if isEOF err && negb (ClientStreams (desc (cs st)))
             then None else err in
  when (negb (isNil err) && negb (isEOF err)) (finish err) ;;
  ret err.

Definition Identity : string := "identity".

(** The lazy choice of the decompressor at the top of [recvMsg]. *)
Definition initDecomp : M unit :=
  st <- get ;;
  let a := attempt (cs st) in
  when (negb (decompSet a))
    (let ct := RecvCompress w in
     if negb (String.eqb ct "") && negb (String.eqb ct Identity) then
       match dc a with
       | Some ty =>
           if String.eqb ty ct
           then modifyStream (setAttempt (setDecomp (dc a) (decomp a) a))
           else modifyStream (setAttempt (setDecomp None (GetCompressor w ct) a))
       | None => modifyStream (setAttempt (setDecomp None (GetCompressor w ct) a))
       end
     else modifyStream (setAttempt (setDecomp None (decomp a) a))).

Definition protocolViolation : error :=
  PlainError "grpc: client streaming protocol violation: get <nil>, want <EOF>".

(** The body of [csAttempt.recvMsg], before the deferred function runs. *)
Definition recvMsg_body : M (option error) :=
  st <- get ;;
  let s := cs st in
  let inPayload := statsHandler (attempt s) in
  initDecomp ;;
  err <- framedRecv inPayload ;;
  match err with
  | Some e =>
      if isEOF err then
        match StatusErr w with
        | Some statusErr => ret (Some statusErr)
        | None => ret (Some io_EOF)
        end
      else ret (Some (toRPCErr e))
  | None =>
      when (EnableTracing w && tr (attempt s)) (emit EvTraceLog) ;;
      when inPayload (emit EvStatsInPayload) ;;
      when (channelzOn w) (emit EvMsgRecv) ;;
      if ServerStreams (desc s) then ret None
      else
        err <- framedRecv false ;;
        match err with
        | None => ret (Some (toRPCErr protocolViolation))
        | Some e =>
            if isEOF err then ret (StatusErr w)
            else ret (Some (toRPCErr e))
        end
  end.

(** [csAttempt.recvMsg]: the body, then the deferred function. *)
Definition recvMsg : M (option error) :=
  err <- recvMsg_body ;;
  st <- get ;;
  when (negb (isNil err) || negb (ServerStreams (desc (cs st)))) (finish err) ;;
  ret err.

(** [clientStream.SendMsg] and [clientStream.RecvMsg] delegate to the
    attempt. *)
Definition SendMsg (m : Msg) : M (option error) := sendMsg m.
Definition RecvMsg : M (option error) := recvMsg.

End WithWorld.

(** The context [newClientStream] derives from the method config: a timeout
    only for a non-negative [Timeout], otherwise plain cancellation. *)
Inductive ctxDerivation : Type :=
| WithTimeout (d : Z)
| WithCancel.

Definition newClientStream_context (mc : ServiceConfig.MethodConfig)
  : ctxDerivation :=
  match ServiceConfig.Timeout mc with
  | Some d => if 0 <=? d then WithTimeout d else WithCancel
  | None => WithCancel
  end.

End Stream.

(** ** [call.go]: the unary call *)

Module Call.
Import Errors Stream.

(** What one successful run of [newClientStream] came up with: the
    surroundings of the new attempt and the fields of the stream literal. *)
Record Dialled : Type := mkDialled {
  world : World;
  callOpts : list nat;
  info : callInfo;
  firstTry : csAttempt
}.

(** The [&clientStream{...}] literal at the end of [newClientStream]. *)
Definition buildStream (d : StreamDesc) (x : Dialled) : clientStream :=
  mkClientStream (callOpts x) (info x) d false false (firstTry x).

(** The outcome of the [k]-th call of [newClientStream] made by one
    [invoke]: an error, or a stream. *)
Definition Dialler : Type := nat -> result error Dialled.

(** The loop of [invoke].  [calls] counts the calls of [newClientStream] so
    far; the result is the returned error and the final count, or [None]
    when [fuel] iterations were not enough. *)
Fixpoint invoke_loop (newClientStream : Dialler) (req : Msg)
    (fuel calls : nat) (firstAttempt : bool) : option (option error * nat) :=
  match fuel with
  | O => None
  | S fuel' =>
      match newClientStream calls with
      | Err e => Some (Some e, S calls)
      | Ok x =>
          let w := world x in
          let st0 := newState (buildStream unaryStreamDesc x) in
          let '(err, st1) := SendMsg w req st0 in
          match err with
          | Some e =>
              if negb (failFast (c (cs st1))) && Unprocessed w && firstAttempt
              then invoke_loop newClientStream req fuel' (S calls) false
              else Some (Some e, S calls)
          | None =>
              let '(err, st2) := RecvMsg w st1 in
              match err with
              | Some e =>
                  if negb (failFast (c (cs st2))) && Unprocessed w && firstAttempt
                  then invoke_loop newClientStream req fuel' (S calls) false
                  else Some (Some e, S calls)
              | None => Some (None, S calls)
              end
          end
      end
  end.

Definition invoke (newClientStream : Dialler) (req : Msg) (fuel : nat)
  : option (option error * nat) :=
  invoke_loop newClientStream req fuel 0 true.

(** The error, if any, with which the send/receive pair of one attempt
    ends. *)
Definition attemptError (x : Dialled) (req : Msg) : option error :=
  let w := world x in
  let '(err, st1) := SendMsg w req (newState (buildStream unaryStreamDesc x)) in
  match err with
  | Some e => Some e
  | None => fst (RecvMsg w st1)
  end.

(** An attempt ends in an error that [invoke] may retry: the call is not
    fail-fast and the transport reports the request as unprocessed. *)
Definition retryable (x : Dialled) (req : Msg) : bool :=
  match attemptError x req with
  | Some _ => negb (failFast (info x)) && Unprocessed (world x)
  | None => false
  end.

End Call.

(** ** [resolver_conn_wrapper.go]: the one-slot channels *)

Module Resolver.

(** A buffered Go channel: its capacity and the values waiting in it,
    oldest first. *)
Record chan (A : Type) : Type := mkChan {
  cap : nat;
  buf : list A
}.
Arguments mkChan {A} cap buf.
Arguments cap {A} _.
Arguments buf {A} _.

(** [make(chan A, n)] *)
Definition make (A : Type) (n : nat) : chan A := mkChan n [].

(** [select { case <-ch: default: }]: take a waiting value if there is
    one, never wait. *)
Definition drain {A} (ch : chan A) : chan A :=
  match buf ch with
  | [] => ch
  | _ :: rest => mkChan (cap ch) rest
  end.

(** [ch <- v]: [None] when the buffer is full, that is when the send has to
    wait for a receiver. *)
Definition send {A} (ch : chan A) (v : A) : option (chan A) :=
  if (List.length (buf ch) <? cap ch)%nat
  then Some (mkChan (cap ch) (buf ch ++ [v]))
  else None.

(** [v := <-ch] as a case of the watcher's [select]: taken only when a
    value is waiting. *)
Definition receive {A} (ch : chan A) : option (A * chan A) :=
  match buf ch with
  | [] => None
  | v :: rest => Some (v, mkChan (cap ch) rest)
  end.

Definition Address : Type := string.

(** The two update channels of [ccResolverWrapper]. *)
Record ccResolverWrapper : Type := mkWrapper {
  addrCh : chan (list Address);
  scCh : chan string
}.

(** The channels as [newCCResolverWrapper] makes them. *)
Definition newCCResolverWrapper : ccResolverWrapper :=
  mkWrapper (make (list Address) 1) (make string 1).

(** [NewAddress]; [None] when the call would block. *)
Definition NewAddress (ccr : ccResolverWrapper) (addrs : list Address)
  : option ccResolverWrapper :=
  match send (drain (addrCh ccr)) addrs with
  | Some ch => Some (mkWrapper ch (scCh ccr))
  | None => None
  end.

(** [NewServiceConfig]; [None] when the call would block. *)
Definition NewServiceConfig (ccr : ccResolverWrapper) (sc : string)
  : option ccResolverWrapper :=
  match send (drain (scCh ccr)) sc with
  | Some ch => Some (mkWrapper (addrCh ccr) ch)
  | None => None
  end.

(** The watcher taking the pending value of a channel, if there is
    one. *)
Definition watcherTake {A} (ch : chan A) : chan A :=
  match receive ch with
  | Some (_, ch') => ch'
  | None => ch
  end.

(** A channel of capacity one holding at most one value. *)
Definition oneSlot {A} (ch : chan A) : Prop :=
  cap ch = 1%nat /\ (List.length (buf ch) <= 1)%nat.

(** A one-slot channel as a publish finds it: empty between its drain and
    its send ([busy]), holding at most one value otherwise. *)
Definition slot {A} (busy : bool) (ch : chan A) : Prop :=
  cap ch = 1%nat /\
  if busy then buf ch = [] else (List.length (buf ch) <= 1)%nat.

(** The two statements of a publish taken apart, so that calls running in
    different goroutines can interleave: the [select] that drains and the
    send, for each of the two operations; and the watcher's receives. *)
Inductive Half : Type :=
| AddrDrain                              (* select { case <-ccr.addrCh: default: } *)
| AddrSend (addrs : list Address)        (* ccr.addrCh <- addrs *)
| ScDrain                                (* select { case <-ccr.scCh: default: } *)
| ScSend (sc : string)                   (* ccr.scCh <- sc *)
| WatcherAddr                            (* the watcher's case addrs := <-ccr.addrCh *)
| WatcherSc.                             (* the watcher's case sc := <-ccr.scCh *)

(** One statement; [None] when a send finds the buffer full and has to
    wait. *)
Definition half (ccr : ccResolverWrapper) (h : Half) : option ccResolverWrapper :=
  match h with
  | AddrDrain => Some (mkWrapper (drain (addrCh ccr)) (scCh ccr))
  | AddrSend addrs =>
      match send (addrCh ccr) addrs with
      | Some ch => Some (mkWrapper ch (scCh ccr))
      | None => None
      end
  | ScDrain => Some (mkWrapper (addrCh ccr) (drain (scCh ccr)))
  | ScSend sc =>
      match send (scCh ccr) sc with
      | Some ch => Some (mkWrapper (addrCh ccr) ch)
      | None => None
      end
  | WatcherAddr => Some (mkWrapper (watcherTake (addrCh ccr)) (scCh ccr))
  | WatcherSc => Some (mkWrapper (addrCh ccr) (watcherTake (scCh ccr)))
  end.

(** A schedule of statements, run until a send has to wait. *)
Fixpoint halves (ccr : ccResolverWrapper) (hs : list Half) : option ccResolverWrapper :=
  match hs with
  | [] => Some ccr
  | h :: rest =>
      match half ccr h with
      | Some ccr' => halves ccr' rest
      | None => None
      end
  end.

(** The schedules in which the calls of one operation do not overlap one
    another: every drain of a channel is followed by its send before the
    next drain of that channel.  [addrBusy] and [scBusy] say that a call
    has drained and not yet sent.  Calls of the two operations, and the
    watcher, interleave freely. *)
Fixpoint sequentialFrom (addrBusy scBusy : bool) (hs : list Half) : bool :=
  match hs with
  | [] => true
  | AddrDrain :: rest => negb addrBusy && sequentialFrom true scBusy rest
  | AddrSend _ :: rest => addrBusy && sequentialFrom false scBusy rest
  | ScDrain :: rest => negb scBusy && sequentialFrom addrBusy true rest
  | ScSend _ :: rest => scBusy && sequentialFrom addrBusy false rest
  | WatcherAddr :: rest | WatcherSc :: rest => sequentialFrom addrBusy scBusy rest
  end.

Definition sequential (hs : list Half) : bool := sequentialFrom false false hs.

End Resolver.

(** ** Observing a stream *)

Module StreamObs.
Import Errors Stream.

Definition isCancel (e : Event) : bool :=
  match e with EvCancel => true | _ => false end.
Definition isCloseStream (e : Event) : bool :=
  match e with EvCloseStream _ => true | _ => false end.
Definition isDone (e : Event) : bool :=
  match e with EvDone _ _ _ => true | _ => false end.
Definition isStatsEnd (e : Event) : bool :=
  match e with EvStatsEnd _ => true | _ => false end.
Definition isTraceFinish (e : Event) : bool :=
  match e with EvTraceFinish _ => true | _ => false end.
Definition isAfter (e : Event) : bool :=
  match e with EvAfter _ => true | _ => false end.
Definition isWrite (e : Event) : bool :=
  match e with EvWrite _ _ _ => true | _ => false end.

(** The actions only [finish] performs. *)
Definition isTermination (e : Event) : bool :=
  match e with
  | EvCloseStream _ | EvDone _ _ _ | EvStatsEnd _ | EvTraceFinish _
  | EvAfter _ | EvCancel | EvCallsFailed | EvCallsSucceeded => true
  | _ => false
  end.

(** How often an action of some kind happened. *)
Definition occurrences (kind : Event -> bool) (tr : list Event) : nat :=
  List.length (filter kind tr).

(** The error [finish] works with: end of stream counts as success. *)
Definition finalError (err : option error) : option error :=
  if isEOF err then None else err.

(** What one effective [finish] does, in order. *)
Definition finishActions (w : World) (s : clientStream) (err : option error)
  : list Event :=
  let a := attempt s in
  (if channelzOn w
   then [if isNil err then EvCallsSucceeded else EvCallsFailed] else [])
  ++ [EvCloseStream err]
  ++ (if done a then [EvDone err true (BytesReceived w)] else [])
  ++ (if statsHandler a then [EvStatsEnd err] else [])
  ++ (if tr a then [EvTraceFinish err] else [])
  ++ map EvAfter (opts s)
  ++ [EvCancel].

(** The stream an effective [finish] leaves behind. *)
Definition finishedStream (s : clientStream) : clientStream :=
  let s' := setFinished s in
  if tr (attempt s) then setAttempt (clearTr (attempt s')) s' else s'.

(** Two streams that differ at most in what sending and receiving touch:
    [sentLast], the decompressor choice. *)
Definition sameStream (s s' : clientStream) : Prop :=
  opts s' = opts s /\ c s' = c s /\ desc s' = desc s /\
  finished s' = finished s /\
  done (attempt s') = done (attempt s) /\
  statsHandler (attempt s') = statsHandler (attempt s) /\
  tr (attempt s') = tr (attempt s).

(** A step that terminates nothing. *)
Definition quiet (st st' : State) : Prop :=
  sameStream (cs st) (cs st') /\
  filter isTermination (trace st') = filter isTermination (trace st).

(** Each termination action happened once if the stream is finished, and
    not at all otherwise. *)
Definition onceInv (st : State) : Prop :=
  let n := if finished (cs st) then 1%nat else 0%nat in
  occurrences isCancel (trace st) = n /\
  occurrences isCloseStream (trace st) = n /\
  (occurrences isDone (trace st) <= n)%nat /\
  (occurrences isStatsEnd (trace st) <= n)%nat /\
  (occurrences isTraceFinish (trace st) <= n)%nat /\
  occurrences isAfter (trace st) = (n * List.length (opts (cs st)))%nat.

(** What a caller, or the watching goroutine, can do with a stream. *)
Inductive StreamOp : Type :=
| OpFinish (err : option error)
| OpSendMsg (m : Msg)
| OpRecvMsg.

Definition runOp (w : World) (st : State) (op : StreamOp) : State :=
  match op with
  | OpFinish err => snd (finish w err st)
  | OpSendMsg m => snd (sendMsg w m st)
  | OpRecvMsg => snd (recvMsg w st)
  end.

Definition runOps (w : World) (ops : list StreamOp) (st : State) : State :=
  fold_left (runOp w) ops st.

(** The decompressors the framed reads of [recvMsg] are given. *)
Definition readerOf (w : World) (st : State) (k : nat) : option error :=
  let a := attempt (cs (snd (initDecomp w st))) in
  recv w k (dc a) (decomp a) (maxReceiveMessageSize (c (cs st))).

(** The events of one successfully received message. *)
Definition received (w : World) (s : clientStream) : list Event :=
  (if EnableTracing w && tr (attempt s) then [EvTraceLog] else [])
  ++ (if statsHandler (attempt s) then [EvStatsInPayload] else [])
  ++ (if channelzOn w then [EvMsgRecv] else []).

End StreamObs.

(** ** A unary call on a well-behaved transport *)

Module Examples.
Import Errors Stream.

(** No tracing, no channelz; the codec hands the message over as it is,
    nothing is compressed, every write succeeds and every framed read
    delivers a message. *)
Definition talkative : World :=
  mkWorld false false
    (fun m => Ok (list_byte_of_string m))
    (fun _ => Ok None)
    (fun data compData =>
       ([], match compData with Some cd => cd | None => data end))
    (fun _ => None)
    (fun _ _ _ _ => None)
    None "" true false
    (fun _ => None).

(** A unary stream as [invoke] gets it from [newClientStream]. *)
Definition unaryStream : clientStream :=
  mkClientStream [] (mkCallInfo true 16 4194304) unaryStreamDesc false false
    (mkAttempt true None None false false false).

(** The same, with a transport whose writes fail and whose stream ends
    with an Unavailable status before the request was processed. *)
Definition refused : World :=
  mkWorld false false
    (fun m => Ok (list_byte_of_string m))
    (fun _ => Ok None)
    (fun data compData =>
       ([], match compData with Some cd => cd | None => data end))
    (fun _ => Some (TransportError "connection refused"))
    (fun _ _ _ _ => Some io_EOF)
    (Some (StatusError Codes.Unavailable "connection refused"))
    "" false true
    (fun _ => None).

(** The same, with a server that sends one reply and an OK status. *)
Definition oneReply : World :=
  mkWorld false false
    (fun m => Ok (list_byte_of_string m))
    (fun _ => Ok None)
    (fun data compData =>
       ([], match compData with Some cd => cd | None => data end))
    (fun _ => None)
    (fun k _ _ _ => match k with O => None | S _ => Some io_EOF end)
    None "" true false
    (fun _ => None).

(** A wait-for-ready call whose first stream lands on the refusing
    transport and whose later streams get their reply. *)
Definition retryOnce : Call.Dialler :=
  fun k =>
    Ok (Call.mkDialled
          (match k with O => refused | S _ => oneReply end)
          [] (mkCallInfo false 4194304 4194304)
          (mkAttempt true None None false false false)).

End Examples.

(** ** The duration grammar, as words and as accepted *)

Module DurationSpec.
Import GoStrings GoStrconv ServiceConfig.

Fixpoint allDigits (s : string) : bool :=
  match s with
  | EmptyString => true
  | String ch s' => isDigit ch && allDigits s'
  end.

(** Positional value of a digit string. *)
Fixpoint decimalValue (s : string) : Z :=
  match s with
  | EmptyString => 0
  | String ch s' =>
      digitVal ch * 10 ^ Z.of_nat (String.length s') + decimalValue s'
  end.

Definition isDot (ch : ascii) : bool := Ascii.eqb ch ".".

Fixpoint countDots (s : string) : nat :=
  match s with
  | EmptyString => O
  | String ch s' => ((if isDot ch then 1 else 0) + countDots s')%nat
  end.

Fixpoint beforeDot (s : string) : string :=
  match s with
  | EmptyString => EmptyString
  | String ch s' => if isDot ch then EmptyString else String ch (beforeDot s')
  end.

Fixpoint afterDot (s : string) : string :=
  match s with
  | EmptyString => EmptyString
  | String ch s' => if isDot ch then s' else afterDot s'
  end.

Fixpoint zeros (n : nat) : string :=
  match n with
  | O => EmptyString
  | S k => String "0" (zeros k)
  end.

(** The grammar in the words of the specification: a string ending in
    [s]; a body with at most one decimal point between integer and
    fractional seconds; at most nine fractional digits, right-padded with
    zeros to nine to give nanoseconds; at least one of the two parts
    present; anything else is an error. *)
Definition grammarDuration (s : string) : option Z :=
  if HasSuffix s "s" then
    let body := dropLast s in
    let ip := beforeDot body in
    let fp := afterDot body in
    if (countDots body <=? 1)%nat
       && allDigits ip && allDigits fp
       && (String.length fp <=? 9)%nat
       && (0 <? String.length ip + String.length fp)%nat
    then Some (decimalValue ip * Second
               + decimalValue (fp ++ zeros (9 - String.length fp)))
    else None
  else None.

(** What the code takes for a number: digits behind an optional sign. *)
Definition signedDecimal (s : string) (v : Z) : Prop :=
  exists ds,
    ds <> "" /\ allDigits ds = true /\
    (((s = ds \/ s = "+" ++ ds) /\ v = decimalValue ds) \/
     (s = "-" ++ ds /\ v = - decimalValue ds)).

(** Whole seconds: absent, or a signed decimal that fits 32 bits. *)
Definition integerPart (ip : string) (i : Z) : Prop :=
  (ip = "" /\ i = 0) \/
  (signedDecimal ip i /\ - 2 ^ 31 <= i < 2 ^ 31).

(** Nanoseconds of the fraction: absent, or at most nine characters of
    signed decimal, scaled by ten for every character short of nine. *)
Definition fractionPart (fp : string) (f : Z) : Prop :=
  (fp = "" /\ f = 0) \/
  ((String.length fp <= 9)%nat /\
   exists v, signedDecimal fp v /\
             f = v * 10 ^ Z.of_nat (9 - String.length fp)).

(** The strings [parseDuration] accepts, with their value. *)
Definition acceptedDuration (s : string) (d : Z) : Prop :=
  exists ip fp i f,
    Contains ip "." = false /\ Contains fp "." = false /\
    ((s = ip ++ "s" /\ fp = "") \/ s = ip ++ "." ++ fp ++ "s") /\
    (ip <> "" \/ fp <> "") /\
    integerPart ip i /\ fractionPart fp f /\
    d = i * Second + f.

(** [parseDuration] reports a parse error on [s]. *)
Definition rejected (s : string) : Prop :=
  exists e, parseDuration (Some s) = Err e.

End DurationSpec.

(** ** Registries keyed by name *)

Module Registry.

(** A Go [map[string]A]: what a lookup of each key finds. *)
Definition registry (A : Type) : Type := string -> option A.

(** [make(map[string]A)] *)
Definition empty {A : Type} : registry A := fun _ => None.

(** [m[k] = v] *)
Definition put {A : Type} (m : registry A) (k : string) (v : A) : registry A :=
  fun k' => if String.eqb k' k then Some v else m k'.

(** A value behind an interface with a [Name()] method: the name it
    reports and which implementation it is. *)
Record Named : Type := mkNamed {
  Name : string;
  impl : nat
}.

End Registry.

(** ** [encoding.go]: compressors and codecs *)

Module Encoding.
Import Registry.

Definition Compressor : Type := Named.
Definition Codec : Type := Named.

(** [RegisterCompressor]: [registeredCompressor[c.Name()] = c]. *)
Definition RegisterCompressor (m : registry Compressor) (c : Compressor)
  : registry Compressor :=
  put m (Name c) c.

(** [GetCompressor]; a missing key gives the nil interface, [None]. *)
Definition GetCompressor (m : registry Compressor) (name : string)
  : option Compressor :=
  m name.

(** The two panics of [RegisterCodec]. *)
Inductive Panic : Type :=
| NilCodec
| EmptyName.

Section WithToLower.
(** [strings.ToLower]. *)
Variable ToLower : string -> string.

(** [RegisterCodec]; the codec argument may be the nil interface. *)
Definition RegisterCodec (m : registry Codec) (codec : option Codec)
  : result Panic (registry Codec) :=
  match codec with
  | None => Err NilCodec
  | Some cd =>
      let contentSubtype := ToLower (Name cd) in
      if String.eqb contentSubtype "" then Err EmptyName
      else Ok (put m contentSubtype cd)
  end.

(** Registering one codec after the other, as [init] functions do; a
    panic ends the program. *)
Fixpoint RegisterCodecs (m : registry Codec) (codecs : list (option Codec))
  : result Panic (registry Codec) :=
  match codecs with
  | [] => Ok m
  | cd :: rest =>
      match RegisterCodec m cd with
      | Ok m' => RegisterCodecs m' rest
      | Err p => Err p
      end
  end.

End WithToLower.

(** [GetCodec]: the content-subtype is looked up as it is given. *)
Definition GetCodec (m : registry Codec) (contentSubtype : string)
  : option Codec :=
  m contentSubtype.

End Encoding.

(** ** [balancer.go]: the balancer builders *)

Module Balancer.
Import Registry.

Definition Builder : Type := Named.

Section WithToLower.
Variable ToLower : string -> string.

(** [Register]: [m[strings.ToLower(b.Name())] = b]. *)
Definition Register (m : registry Builder) (b : Builder) : registry Builder :=
  put m (ToLower (Name b)) b.

(** [Get]: the builder under the lowercased name, or nil. *)
Definition Get (m : registry Builder) (name : string) : option Builder :=
  match m (ToLower name) with
  | Some b => Some b
  | None => None
  end.

End WithToLower.

End Balancer.

(** ** [service_config.go]: from the JSON document to the method table *)

Module ConfigJSON.

(** [jsonName] *)
Record jsonName : Type := mkJsonName {
  Service : option string;
  Method : option string
}.

(** [jsonName.generatePath] *)
Definition generatePath (j : jsonName) : string * bool :=
  match Service j with
  | None => ("", false)
  | Some svc =>
      let res := "/" ++ svc ++ "/" in
      (match Method j with
       | Some m => res ++ m
       | None => res
       end, true)
  end.

(** [jsonMC] and [jsonSC]: the document as [json.Unmarshal] fills it in. *)
Record jsonMC : Type := mkJsonMC {
  Name : option (list jsonName);
  WaitForReady : option bool;
  Timeout : option string;
  MaxRequestMessageBytes : option Z;
  MaxResponseMessageBytes : option Z
}.

Record jsonSC : Type := mkJsonSC {
  LoadBalancingPolicy : option string;
  MethodConfig : option (list jsonMC)
}.

(** [ServiceConfig] *)
Record ServiceConfig : Type := mkServiceConfig {
  LB : option string;
  Methods : Registry.registry ServiceConfig.MethodConfig
}.

(** Why [parseServiceConfig] fails: [json.Unmarshal] did, or a timeout
    is no duration. *)
Inductive ConfigError : Type :=
| JsonError (msg : string)
| BadTimeout (e : ServiceConfig.DurationError).

Section WithPlatform.
(** The width of [int] on the platform, 32 or 64. *)
Variable intBits : Z.

(** [maxInt = int(^uint(0) >> 1)] *)
Definition maxInt : Z := 2 ^ (intBits - 1) - 1.

(** The conversion [int(x)] of an [int64]. *)
Definition toInt (x : Z) : Z :=
  (x + 2 ^ (intBits - 1)) mod 2 ^ intBits - 2 ^ (intBits - 1).

(** The size fields of [parseServiceConfig]: clamped from above. *)
Definition sizeField (v : option Z) : option Z :=
  match v with
  | None => None
  | Some x => if maxInt <? x then Some maxInt else Some (toInt x)
  end.

(** [for _, n := range *m.Name { ... sc.Methods[path] = mc }] *)
Fixpoint addNames (names : list jsonName) (mc : ServiceConfig.MethodConfig)
    (methods : Registry.registry ServiceConfig.MethodConfig)
  : Registry.registry ServiceConfig.MethodConfig :=
  match names with
  | [] => methods
  | n :: rest =>
      let '(path, valid) := generatePath n in
      addNames rest mc (if valid then Registry.put methods path mc else methods)
  end.

(** [for _, m := range *rsc.MethodConfig { ... }] *)
Fixpoint addMethods (ms : list jsonMC)
    (methods : Registry.registry ServiceConfig.MethodConfig)
  : result ConfigError (Registry.registry ServiceConfig.MethodConfig) :=
  match ms with
  | [] => Ok methods
  | m :: rest =>
      match Name m with
      | None => addMethods rest methods
      | Some names =>
          match ServiceConfig.parseDuration (Timeout m) with
          | Err e => Err (BadTimeout e)
          | Ok d =>
              let mc := ServiceConfig.mkMethodConfig
                          (WaitForReady m) d
                          (sizeField (MaxRequestMessageBytes m))
                          (sizeField (MaxResponseMessageBytes m)) in
              addMethods rest (addNames names mc methods)
          end
      end
  end.

(** [parseServiceConfig], with [json.Unmarshal] into a [jsonSC] as a
    parameter. *)
Definition parseServiceConfig (unmarshal : string -> result string jsonSC)
    (js : string) : result ConfigError ServiceConfig :=
  match unmarshal js with
  | Err msg => Err (JsonError msg)
  | Ok rsc =>
      match MethodConfig rsc with
      | None => Ok (mkServiceConfig (LoadBalancingPolicy rsc) Registry.empty)
      | Some ms =>
          match addMethods ms Registry.empty with
          | Err e => Err e
          | Ok methods => Ok (mkServiceConfig (LoadBalancingPolicy rsc) methods)
          end
      end
  end.

End WithPlatform.

(** The method config the table is given for one [jsonMC] whose timeout
    parsed to [d]. *)
Definition methodConfigOf (intBits : Z) (m : jsonMC) (d : option Z)
  : ServiceConfig.MethodConfig :=
  ServiceConfig.mkMethodConfig (WaitForReady m) d
    (sizeField intBits (MaxRequestMessageBytes m))
    (sizeField intBits (MaxResponseMessageBytes m)).

(** A method config names the path [p]. *)
Definition namesPath (m : jsonMC) (p : string) : bool :=
  match Name m with
  | None => false
  | Some names =>
      existsb (fun n => snd (generatePath n) && String.eqb p (fst (generatePath n)))
              names
  end.

(** The table entry a method config stands for, if its timeout parses. *)
Definition entryOf (intBits : Z) (m : jsonMC)
  : option ServiceConfig.MethodConfig :=
  match ServiceConfig.parseDuration (Timeout m) with
  | Ok d => Some (methodConfigOf intBits m d)
  | Err _ => None
  end.

(** A method config that [parseServiceConfig] does not stumble over: it
    has no names, or its timeout is absent or a duration. *)
Definition passable (m : jsonMC) : Prop :=
  Name m = None \/ exists d, ServiceConfig.parseDuration (Timeout m) = Ok d.

(** The method of a name, the empty string when absent. *)
Definition methodOf (j : jsonName) : string :=
  match Method j with
  | Some m => m
  | None => ""
  end.

End ConfigJSON.

(** ** [stream.go]: the rest of the client stream's methods *)

Module ClientAPI.
Import Errors Stream StreamObs.
Local Open Scope stream_scope.

(** Header metadata. *)
Definition MD : Type := list (string * list string).

(** [csAttempt.closeSend]: the error of the write is ignored. *)
Definition closeSend (w : World) : M unit :=
  st <- get ;;
  if sentLast (cs st) then ret tt
  else
    modifyStream setSentLast ;;
    _ <- transportWrite w [] [] true ;;
    ret tt.

(** [clientStream.CloseSend] *)
Definition CloseSend (w : World) : M (option error) :=
  closeSend w ;; ret None.

(** [clientStream.Header]; [fromTransport] is what [a.s.Header()] gives. *)
Definition Header (w : World) (fromTransport : MD * option error)
  : M (MD * option error) :=
  let '(m, err) := fromTransport in
  match err with
  | Some e =>
      let err' := Some (toRPCErr e) in
      finish w err' ;; ret (m, err')
  | None => ret (m, None)
  end.

(** Every way a stream is driven: its five methods and the [finish] of
    the goroutine that watches the contexts. *)
Inductive Call : Type :=
| CallFinish (err : option error)
| CallSendMsg (m : Msg)
| CallRecvMsg
| CallCloseSend
| CallHeader (fromTransport : MD * option error).

Definition runCall (w : World) (st : State) (k : Call) : State :=
  match k with
  | CallFinish err => snd (finish w err st)
  | CallSendMsg m => snd (SendMsg w m st)
  | CallRecvMsg => snd (RecvMsg w st)
  | CallCloseSend => snd (CloseSend w st)
  | CallHeader h => snd (Header w h st)
  end.

Definition runCalls (w : World) (calls : list Call) (st : State) : State :=
  fold_left (runCall w) calls st.

(** A transport write that ends the sending side. *)
Definition isLastWrite (e : Event) : bool :=
  match e with
  | EvWrite _ _ true => true
  | _ => false
  end.

(** A step that leaves the sending side as it is: the stream keeps its
    description and its [sentLast], and no write ending the sending side
    is added. *)
Definition steady (st st' : State) : Prop :=
  desc (cs st') = desc (cs st) /\
  sentLast (cs st') = sentLast (cs st) /\
  filter isLastWrite (trace st') = filter isLastWrite (trace st).

(** The sending side was ended on the wire at most once, and only if
    [sentLast] says so. *)
Definition lastWriteInv (st : State) : Prop :=
  (occurrences isLastWrite (trace st)
   <= if sentLast (cs st) then 1 else 0)%nat.

End ClientAPI.

(** ** [stream.go]: the server stream *)

Module ServerStream.
Import Codes Errors.

Definition bytes : Type := Stream.bytes.
Definition Msg : Type := Stream.Msg.

(** What a framed read on the server side comes back with. *)
Inductive recvError : Type :=
| io_ErrUnexpectedEOF
| otherError (e : error).

(** The fields of [serverStream] its methods read. *)
Record serverStream : Type := mkServerStream {
  maxReceiveMessageSize : Z;
  maxSendMessageSize : Z;
  trInfo : option bool;        (* trInfo != nil, and then tr != nil *)
  statsHandler : bool
}.

(** Package switches, the helpers of [rpc_util.go] and the transport.
    [toRPCErr] is kept a parameter here: nothing below depends on which
    status it picks. *)
Record ServerWorld : Type := mkServerWorld {
  channelzOn : bool;
  toRPCErr : error -> error;
  encode : Msg -> result error bytes;
  compress : bytes -> result error (option bytes);
  msgHeader : bytes -> option bytes -> bytes * bytes;
  Write : nat -> option error;
  recv : nat -> option recvError
}.

Inductive ServerEvent : Type :=
| SvWrite (hdr payload : bytes) (last : bool)
| SvWriteStatus (err : error)        (* the status of status.FromError(err) *)
| SvTracePayload (sent : bool)
| SvTraceError (err : error)
| SvStatsOutPayload
| SvStatsInPayload
| SvMsgSent
| SvMsgRecv.

Record ServerState : Type := mkServerState {
  nWrites : nat;
  nRecvs : nat;
  trace : list ServerEvent
}.

Definition tooLarge : error :=
  StatusError ResourceExhausted "trying to send message larger than max".

Definition unexpectedEOF : error := StatusError Internal "unexpected EOF".

Definition notEOF (err : option error) : bool :=
  negb (isNil err) && negb (isEOF err).

Section WithServer.
Variable w : ServerWorld.
Variable ss : serverStream.

Definition log (evs : list ServerEvent) (st : ServerState) : ServerState :=
  mkServerState (nWrites st) (nRecvs st) (trace st ++ evs).

(** The body of [serverStream.SendMsg]. *)
Definition SendMsg_body (m : Msg) (st : ServerState) : option error * ServerState :=
  match encode w m with
  | Err e => (Some e, st)
  | Ok data =>
      match compress w data with
      | Err e => (Some e, st)
      | Ok compData =>
          let '(hdr, payload) := msgHeader w data compData in
          if maxSendMessageSize ss <? Z.of_nat (List.length payload)
          then (Some tooLarge, st)
          else
            let st1 := mkServerState (S (nWrites st)) (nRecvs st)
                         (trace st ++ [SvWrite hdr payload false]) in
            match Write w (nWrites st) with
            | Some e => (Some (toRPCErr w e), st1)
            | None =>
                (None, if statsHandler ss then log [SvStatsOutPayload] st1 else st1)
            end
      end
  end.

(** The deferred function of [serverStream.SendMsg]. *)
Definition SendMsg_deferred (err : option error) (st : ServerState) : ServerState :=
  let st1 :=
    match trInfo ss with
    | Some true =>
        match err with
        | None => log [SvTracePayload true] st
        | Some e => log [SvTraceError e] st
        end
    | _ => st
    end in
  let st2 :=
    match err with
    | Some e => if notEOF err then log [SvWriteStatus (toRPCErr w e)] st1 else st1
    | None => st1
    end in
  if channelzOn w && isNil err then log [SvMsgSent] st2 else st2.

(** [serverStream.SendMsg] *)
Definition SendMsg (m : Msg) (st : ServerState) : option error * ServerState :=
  let '(err, st1) := SendMsg_body m st in
  (err, SendMsg_deferred err st1).

(** The body of [serverStream.RecvMsg]. *)
Definition RecvMsg_body (st : ServerState) : option error * ServerState :=
  let st1 := mkServerState (nWrites st) (S (nRecvs st)) (trace st) in
  match recv w (nRecvs st) with
  | Some (otherError io_EOF) => (Some io_EOF, st1)
  | Some io_ErrUnexpectedEOF => (Some (toRPCErr w unexpectedEOF), st1)
  | Some (otherError e) => (Some (toRPCErr w e), st1)
  | None =>
      (None, if statsHandler ss then log [SvStatsInPayload] st1 else st1)
  end.

(** The deferred function of [serverStream.RecvMsg]. *)
Definition RecvMsg_deferred (err : option error) (st : ServerState) : ServerState :=
  let st1 :=
    match trInfo ss with
    | Some true =>
        match err with
        | None => log [SvTracePayload false] st
        | Some e => if isEOF err then st else log [SvTraceError e] st
        end
    | _ => st
    end in
  let st2 :=
    match err with
    | Some e => if notEOF err then log [SvWriteStatus (toRPCErr w e)] st1 else st1
    | None => st1
    end in
  if channelzOn w && isNil err then log [SvMsgRecv] st2 else st2.

(** [serverStream.RecvMsg] *)
Definition RecvMsg (st : ServerState) : option error * ServerState :=
  let '(err, st1) := RecvMsg_body st in
  (err, RecvMsg_deferred err st1).

End WithServer.

Definition isWriteStatus (e : ServerEvent) : bool :=
  match e with SvWriteStatus _ => true | _ => false end.
Definition isSvWrite (e : ServerEvent) : bool :=
  match e with SvWrite _ _ _ => true | _ => false end.

(** How many events of a kind an operation added. *)
Definition added (kind : ServerEvent -> bool) (before after : ServerState) : Z :=
  Z.of_nat (List.length (filter kind (trace after)))
  - Z.of_nat (List.length (filter kind (trace before))).

End ServerStream.

(** ** [stream.go]: setting up a call in [newClientStream] *)

Module NewStream.
Import Codes Errors Registry.

(** The choice of the outgoing compression: the header value
    [SendCompress], the dial-option compressor [cp] (by its type) and the
    registered compressor [comp]. *)
Record Compression : Type := mkCompression {
  SendCompress : string;
  cp : option string;
  comp : option Named
}.

Definition notInstalled : error :=
  StatusError Internal "grpc: Compressor is not installed for requested grpc-encoding".

(** Lines 211-226: [compressorType] is [c.compressorType], [dialCp] the
    type of [cc.dopts.cp] when that is set. *)
Definition chooseCompression (GetCompressor : string -> option Named)
    (compressorType : string) (dialCp : option string)
  : result error Compression :=
  if negb (String.eqb compressorType "") then
    if negb (String.eqb compressorType Stream.Identity) then
      match GetCompressor compressorType with
      | None => Err notInstalled
      | Some found => Ok (mkCompression compressorType None (Some found))
      end
    else Ok (mkCompression compressorType None None)
  else
    match dialCp with
    | Some ty => Ok (mkCompression ty (Some ty) None)
    | None => Ok (mkCompression "" None None)
    end.

(** What the attempt loop meets: whether the context is done at the top
    of turn [k] (and with which error), what [cc.getTransport] gives (a
    transport and whether the picker handed out a done callback) and
    whether [t.NewStream] fails. *)
Record Surroundings : Type := mkSurroundings {
  ctxErr : nat -> option error;
  getTransport : nat -> result error (nat * bool);
  NewStream : nat -> option error
}.

(** The outcome of the loop: a transport with the done callback still
    pending or not, or the error returned. *)
Definition Attempt : Type := result error (nat * bool).

(** Lines 283-319.  [doneCalls] collects the errors the done callback was
    called with; the result also tells how many turns were taken.  [None]
    when [fuel] turns were not enough. *)
Fixpoint attemptLoop (env : Surroundings) (failFast : bool)
    (fuel k : nat) (doneCalls : list error)
  : option (Attempt * nat * list error) :=
  match fuel with
  | O => None
  | S fuel' =>
      match ctxErr env k with
      | Some ce => Some (Err (toRPCErr ce), S k, doneCalls)
      | None =>
          match getTransport env k with
          | Err e => Some (Err e, S k, doneCalls)
          | Ok (t, hasDone) =>
              match NewStream env k with
              | Some e =>
                  let doneCalls' :=
                    if hasDone then (doneCalls ++ [e])%list else doneCalls in
                  if negb failFast
                  then attemptLoop env failFast fuel' (S k) doneCalls'
                  else Some (Err (toRPCErr e), S k, doneCalls')
              | None => Some (Ok (t, hasDone), S k, doneCalls)
              end
          end
      end
  end.

(** The turns before [k] on which a stream could not be opened although
    the picker had handed out a done callback. *)
Fixpoint failedWithDone (env : Surroundings) (k : nat) : list error :=
  match k with
  | O => []
  | S j =>
      (failedWithDone env j ++
       match getTransport env j, NewStream env j with
       | Ok (_, true), Some e => [e]
       | _, _ => []
       end)%list
  end.

End NewStream.

(** ** [resolver_conn_wrapper.go]: the watcher *)

Module Watcher.
Import Resolver.

(** What the watcher hands to the ClientConn. *)
Inductive Update : Type :=
| ResolvedAddrs (addrs : list Address)     (* cc.handleResolvedAddrs(addrs, nil) *)
| NewConfig (sc : string).                 (* cc.handleServiceConfig(sc) *)

(** The wrapper with its [done] channel: closed or not. *)
Record WatchState : Type := mkWatchState {
  ccr : ccResolverWrapper;
  closed : bool
}.

(** Which ready case the [select] of a turn takes. *)
Inductive Pick : Type := PickAddr | PickConfig | PickDone.

Inductive Outcome : Type :=
| Returned                   (* the goroutine ends *)
| Waiting                    (* no case is ready *)
| Handled (u : Update).      (* one update reached the ClientConn *)

(** When [close()] closes [done] with respect to one turn of the loop:
    not during the turn, or at one of the three places where it makes a
    difference. *)
Inductive Closing : Type :=
| NoClose          (* [done] stays open during the turn *)
| BeforeSelect     (* after the first look at [done], before the [select] *)
| BeforeCheck      (* after the [select] took a value, before the second look at [done] *)
| AfterCheck.      (* after the second look at [done] *)

(** One turn of the loop of [watcher], for the [close()] of [closing] and
    the case [pick] the runtime prefers among the ready ones.  [done] is a
    ready case of the [select] only when it was closed before; a value
    taken is handed over unless the second look at [done] finds it closed;
    and a [select] that finds nothing pending waits, and returns when
    [close()] comes. *)
Definition turn (pick : Pick) (closing : Closing) (st : WatchState)
  : Outcome * WatchState :=
  if closed st then (Returned, st)
  else
    let closes := match closing with NoClose => false | _ => true end in
    let doneReady := match closing with BeforeSelect => true | _ => false end in
    let seen := match closing with
                | BeforeSelect | BeforeCheck => true
                | _ => false
                end in
    let st' := mkWatchState (ccr st) closes in
    let addr := receive (addrCh (ccr st)) in
    let conf := receive (scCh (ccr st)) in
    let takeAddr (got : list Address * chan (list Address)) :=
      let st1 := mkWatchState (mkWrapper (snd got) (scCh (ccr st))) closes in
      if seen then (Returned, st1) else (Handled (ResolvedAddrs (fst got)), st1) in
    let takeConf (got : string * chan string) :=
      let st1 := mkWatchState (mkWrapper (addrCh (ccr st)) (snd got)) closes in
      if seen then (Returned, st1) else (Handled (NewConfig (fst got)), st1) in
    match pick, addr, conf with
    | PickDone, _, _ =>
        if doneReady then (Returned, st')
        else match addr, conf with
             | Some got, _ => takeAddr got
             | None, Some got => takeConf got
             | None, None => if closes then (Returned, st') else (Waiting, st')
             end
    | PickAddr, Some got, _ => takeAddr got
    | PickAddr, None, Some got => takeConf got
    | PickConfig, _, Some got => takeConf got
    | PickConfig, Some got, None => takeAddr got
    | _, None, None => if closes then (Returned, st') else (Waiting, st')
    end.

(** [ccResolverWrapper.close], the resolver's own [Close] aside. *)
Definition close (st : WatchState) : WatchState := mkWatchState (ccr st) true.

(** A history of an open wrapper: the resolver publishes addresses or a
    service config, the watcher takes a turn with the runtime preferring
    some case. *)
Inductive Step : Type :=
| Publish (addrs : list Address)
| PublishConfig (sc : string)
| Turn (pick : Pick).

(** The address lists handed to the ClientConn along a history, oldest
    first, and the wrapper at its end. *)
Fixpoint deliveries (st : WatchState) (steps : list Step)
  : list (list Address) * WatchState :=
  match steps with
  | [] => ([], st)
  | Publish addrs :: rest =>
      match NewAddress (ccr st) addrs with
      | Some c' => deliveries (mkWatchState c' (closed st)) rest
      | None => ([], st)
      end
  | PublishConfig sc :: rest =>
      match NewServiceConfig (ccr st) sc with
      | Some c' => deliveries (mkWatchState c' (closed st)) rest
      | None => ([], st)
      end
  | Turn pick :: rest =>
      let '(out, st') := turn pick NoClose st in
      let '(ds, final) := deliveries st' rest in
      (match out with
       | Handled (ResolvedAddrs a) => a :: ds
       | _ => ds
       end, final)
  end.

Fixpoint published (steps : list Step) : list (list Address) :=
  match steps with
  | [] => []
  | Publish addrs :: rest => addrs :: published rest
  | _ :: rest => published rest
  end.

(** [l1] is [l2] with some elements left out. *)
Inductive subsequence {A : Type} : list A -> list A -> Prop :=
| sub_nil : subsequence [] []
| sub_skip (x : A) (l1 l2 : list A) : subsequence l1 l2 -> subsequence l1 (x :: l2)
| sub_keep (x : A) (l1 l2 : list A) : subsequence l1 l2 -> subsequence (x :: l1) (x :: l2).

End Watcher.

(** ** [credentials.go]: the server name of a TLS handshake *)

Module Credentials.
Import GoStrings.

(** [strings.LastIndex]: where the last instance of [sep] starts. *)
Fixpoint LastIndex (s sep : string) : option nat :=
  match s with
  | EmptyString => if String.eqb sep "" then Some O else None
  | String _ s' =>
      match LastIndex s' sep with
      | Some i => Some (S i)
      | None => if HasPrefix s sep then Some O else None
      end
  end.

(** The slice [s[:n]]. *)
Fixpoint take (n : nat) (s : string) : string :=
  match n, s with
  | S k, String c s' => String c (take k s')
  | _, _ => EmptyString
  end.

(** The [ServerName] [ClientHandshake] puts into its copy of the config:
    the configured one, or the authority up to its last colon. *)
Definition handshakeServerName (configured authority : string) : string :=
  if String.eqb configured "" then
    let colonPos :=
      match LastIndex authority ":" with
      | None => String.length authority
      | Some i => i
      end in
    take colonPos authority
  else configured.

End Credentials.

(** ** What [invoke] leaves of an attempt *)

Module CallObs.
Import Errors Stream Call.

(** A stream put in front of the streams of the turns that follow. *)
Definition keep (st : State) (r : option (option error * nat * list State))
  : option (option error * nat * list State) :=
  match r with
  | Some (err, n, sts) => Some (err, n, st :: sts)
  | None => None
  end.

(** The loop of [invoke] once more, statement by statement as
    [Call.invoke_loop], this time keeping the stream of every attempt in
    the state in which [invoke] leaves it: when it returns, or when it
    goes on to the next attempt. *)
Fixpoint invoke_streams (newClientStream : Dialler) (req : Msg)
    (fuel calls : nat) (firstAttempt : bool)
  : option (option error * nat * list State) :=
  match fuel with
  | O => None
  | S fuel' =>
      match newClientStream calls with
      | Err e => Some (Some e, S calls, [])
      | Ok x =>
          let w := world x in
          let st0 := newState (buildStream unaryStreamDesc x) in
          let '(err, st1) := SendMsg w req st0 in
          match err with
          | Some e =>
              if negb (failFast (c (cs st1))) && Unprocessed w && firstAttempt
              then keep st1 (invoke_streams newClientStream req fuel' (S calls) false)
              else Some (Some e, S calls, [st1])
          | None =>
              let '(err, st2) := RecvMsg w st1 in
              match err with
              | Some e =>
                  if negb (failFast (c (cs st2))) && Unprocessed w && firstAttempt
                  then keep st2 (invoke_streams newClientStream req fuel' (S calls) false)
                  else Some (Some e, S calls, [st2])
              | None => Some (None, S calls, [st2])
              end
          end
      end
  end.

End CallObs.

(** ** A small service, for trying things out *)

Module Samples.
Import Errors.

(** Lower case for the letters A to Z. *)
Definition lowerChar (ch : ascii) : ascii :=
  let n := nat_of_ascii ch in
  if ((65 <=? n) && (n <=? 90))%nat then ascii_of_nat (n + 32) else ch.

Fixpoint asciiLower (s : string) : string :=
  match s with
  | EmptyString => EmptyString
  | String ch s' => String (lowerChar ch) (asciiLower s')
  end.

Definition proto : Registry.Named := Registry.mkNamed "Proto" 1.

Definition echoSay : ConfigJSON.jsonName :=
  ConfigJSON.mkJsonName (Some "echo.Echo") (Some "Say").
Definition echoAny : ConfigJSON.jsonName :=
  ConfigJSON.mkJsonName (Some "echo.Echo") None.

(** One method config: wait for ready, a second and a half, requests of
    up to four gigabytes. *)
Definition echoConfig : ConfigJSON.jsonMC :=
  ConfigJSON.mkJsonMC (Some [echoSay]) (Some true) (Some "1.5s")
    (Some 4294967296) None.

Definition document : ConfigJSON.jsonSC :=
  ConfigJSON.mkJsonSC (Some "round_robin") (Some [echoConfig]).

Definition unmarshalled (js : string) : result string ConfigJSON.jsonSC :=
  Ok document.

(** What the document stores for its one method on a 32-bit platform. *)
Definition echoEntry : ServiceConfig.MethodConfig :=
  ServiceConfig.mkMethodConfig (Some true) (Some 1500000000)
    (Some 2147483647) None.

Definition table32 : ConfigJSON.ServiceConfig :=
  ConfigJSON.mkServiceConfig (Some "round_robin")
    (ConfigJSON.addNames [echoSay] echoEntry Registry.empty).

(** A client-streaming stream. *)
Definition uploadStream : Stream.clientStream :=
  Stream.mkClientStream [] (Stream.mkCallInfo true 16 4194304)
    (Stream.mkStreamDesc false true) false false
    (Stream.mkAttempt true None None false false false).

(** A server whose transport takes every write and whose peer has closed
    the stream. *)
Definition quietServer : ServerStream.ServerWorld :=
  ServerStream.mkServerWorld false toRPCErr
    (fun m => Ok (list_byte_of_string m))
    (fun _ => Ok None)
    (fun data compData =>
       ([], match compData with Some cd => cd | None => data end))
    (fun _ => None)
    (fun _ => Some (ServerStream.otherError io_EOF)).

Definition handlerStream : ServerStream.serverStream :=
  ServerStream.mkServerStream 4194304 16 None false.

(** Two turns on which the stream cannot be opened, then success; the
    context would be done on the fourth turn. *)
Definition flaky : NewStream.Surroundings :=
  NewStream.mkSurroundings
    (fun k => if (3 <=? k)%nat then Some ContextDeadlineExceeded else None)
    (fun k => Ok (k, true))
    (fun k => if (k <? 2)%nat then Some (TransportError "connection refused")
              else None).

End Samples.

(** * Properties *)

(** ** Slicing strings *)

Section StringFacts.
Import GoStrings.

Lemma append_assoc (a b c : string) : (a ++ b) ++ c = a ++ b ++ c.
Proof. induction a as [|x a IH]; simpl; [|rewrite IH]; reflexivity. Qed.

Lemma append_empty_r (a : string) : a ++ "" = a.
Proof. induction a as [|x a IH]; simpl; [|rewrite IH]; reflexivity. Qed.

Lemma length_append (a b : string) :
  String.length (a ++ b) = (String.length a + String.length b)%nat.
Proof. induction a as [|x a IH]; simpl; [|rewrite IH]; reflexivity. Qed.

Lemma CutPrefix_Some (p s r : string) :
  CutPrefix s p = Some r <-> s = p ++ r.
Proof.
  revert s; induction p as [|a p IH]; intros s; simpl.
  - split; intros H; [injection H as ->|subst]; reflexivity.
  - destruct s as [|b s].
    + split; intros H; discriminate.
    + destruct (Ascii.eqb_spec a b) as [->|Hab].
      * rewrite IH. split; intros H; [subst|injection H as ->]; reflexivity.
      * split; intros H; [discriminate|injection H as -> _; contradiction].
Qed.

Lemma CutPrefix_app (p r : string) : CutPrefix (p ++ r) p = Some r.
Proof. apply CutPrefix_Some; reflexivity. Qed.

Lemma HasPrefix_app (s p x : string) :
  HasPrefix s p = true -> HasPrefix (s ++ x) p = true.
Proof.
  unfold HasPrefix. destruct (CutPrefix s p) as [r|] eqn:E; [|discriminate].
  apply CutPrefix_Some in E; subst s. intros _.
  rewrite append_assoc, CutPrefix_app. reflexivity.
Qed.

Lemma Cut_Some_eq (sep s a b : string) :
  Cut s sep = Some (a, b) -> s = a ++ sep ++ b.
Proof.
  revert a b; induction s as [|ch s IH]; intros a b; cbn [Cut].
  - destruct (CutPrefix "" sep) as [r|] eqn:E; [|discriminate].
    intros H; injection H as <- <-. apply CutPrefix_Some in E. exact E.
  - destruct (CutPrefix (String ch s) sep) as [r|] eqn:E.
    + intros H; injection H as <- <-. apply CutPrefix_Some in E. exact E.
    + destruct (Cut s sep) as [[a' b']|]; [|discriminate].
      intros H; injection H as <- <-. simpl. f_equal. apply IH; reflexivity.
Qed.

Lemma Cut_None (sep s : string) :
  Cut s sep = None <-> Contains s sep = false.
Proof.
  induction s as [|ch s IH]; cbn [Cut Contains]; unfold HasPrefix.
  - destruct (CutPrefix "" sep); simpl; split; congruence.
  - destruct (CutPrefix (String ch s) sep); simpl; [split; congruence|].
    rewrite <- IH. destruct (Cut s sep) as [[a b]|]; split; congruence.
Qed.

(** The piece before the first separator does not contain it. *)
Lemma Cut_Some_first (sep s a b : string) :
  sep <> "" -> Cut s sep = Some (a, b) -> Contains a sep = false.
Proof.
  intros Hsep. revert a b; induction s as [|ch s IH]; intros a b; cbn [Cut].
  - destruct (CutPrefix "" sep) as [r|] eqn:E; [|discriminate].
    intros H; injection H as <- <-. simpl. unfold HasPrefix.
    destruct sep; [contradiction|reflexivity].
  - destruct (CutPrefix (String ch s) sep) as [r|] eqn:E.
    + intros H; injection H as <- <-. simpl. unfold HasPrefix.
      destruct sep; [contradiction|reflexivity].
    + destruct (Cut s sep) as [[a' b']|] eqn:Ec; [|discriminate].
      intros H; injection H as <- <-.
      pose proof (Cut_Some_eq _ _ _ _ Ec) as Hs.
      simpl. rewrite (IH a' b' eq_refl), orb_false_r.
      destruct (HasPrefix (String ch a') sep) eqn:Hp; [|reflexivity].
      apply (HasPrefix_app _ _ (sep ++ b')) in Hp.
      unfold HasPrefix in Hp. simpl in Hp. rewrite <- Hs, E in Hp.
      discriminate.
Qed.

(** A one-byte separator is found at its first occurrence. *)
Lemma Cut_app_char (ch : ascii) (a b : string) :
  Contains a (String ch "") = false ->
  Cut (a ++ String ch "" ++ b) (String ch "") = Some (a, b).
Proof.
  induction a as [|x a IH]; intros H.
  - simpl. rewrite Ascii.eqb_refl. reflexivity.
  - simpl in H. apply orb_false_iff in H as [Hp Hc].
    change (String x a ++ String ch "" ++ b)
      with (String x (a ++ String ch "" ++ b)).
    cbn [Cut]. rewrite (IH Hc).
    unfold HasPrefix in Hp. cbn [CutPrefix] in *.
    destruct (Ascii.eqb ch x); [discriminate|reflexivity].
Qed.

(** So is ["://"], which no proper overlap with itself can fake. *)
Lemma Cut_app_scheme (a b : string) :
  Contains a "://" = false ->
  Cut (a ++ "://" ++ b) "://" = Some (a, b).
Proof.
  induction a as [|x a IH]; intros H.
  - reflexivity.
  - simpl in H. apply orb_false_iff in H as [Hp Hc].
    specialize (IH Hc).
    change (String x a ++ "://" ++ b) with (String x (a ++ "://" ++ b)).
    cbn [Cut]. rewrite IH.
    replace (CutPrefix (String x (a ++ "://" ++ b)) "://") with (@None string);
      [reflexivity|].
    unfold HasPrefix in Hp. clear IH Hc. cbn [CutPrefix] in *.
    destruct (Ascii.eqb ":" x); [|reflexivity].
    destruct a as [|y a]; cbn [CutPrefix append] in *; [reflexivity|].
    destruct (Ascii.eqb "/" y); [|reflexivity].
    destruct a as [|z a]; cbn [CutPrefix append] in *; [reflexivity|].
    destruct (Ascii.eqb "/" z); [discriminate|reflexivity].
Qed.

Lemma SplitN_2 (s sep : string) :
  SplitN s sep 2 =
  match Cut s sep with
  | Some (a, b) => [a; b]
  | None => [s]
  end.
Proof. simpl. destruct (Cut s sep) as [[a b]|]; reflexivity. Qed.

End StringFacts.

(** ** Target parsing *)

Section TargetFacts.
Import GoStrings Target.

Lemma split2_found (s sep a b : string) :
  Cut s sep = Some (a, b) -> split2 s sep = (a, b, true).
Proof. intros H. unfold split2. rewrite SplitN_2, H. reflexivity. Qed.

Lemma split2_missing (s sep : string) :
  Contains s sep = false -> split2 s sep = ("", "", false).
Proof.
  intros H. apply Cut_None in H. unfold split2. rewrite SplitN_2, H.
  reflexivity.
Qed.

Lemma parseTarget_no_scheme (target : string) :
  Contains target "://" = false ->
  parseTarget target = mkTarget "" "" target.
Proof. intros H. unfold parseTarget. rewrite (split2_missing _ _ H). reflexivity. Qed.

Lemma parseTarget_no_slash (scheme rest : string) :
  Contains scheme "://" = false ->
  Contains rest "/" = false ->
  parseTarget (scheme ++ "://" ++ rest) = mkTarget "" "" (scheme ++ "://" ++ rest).
Proof.
  intros Hs Hr. unfold parseTarget.
  rewrite (split2_found _ _ _ _ (Cut_app_scheme scheme rest Hs)).
  cbn [negb]. rewrite (split2_missing _ _ Hr). reflexivity.
Qed.

Lemma parseTarget_well_formed (scheme authority endpoint : string) :
  Contains scheme "://" = false ->
  Contains authority "/" = false ->
  parseTarget (scheme ++ "://" ++ authority ++ "/" ++ endpoint)
  = mkTarget scheme authority endpoint.
Proof.
  intros Hs Ha. unfold parseTarget.
  rewrite (split2_found _ _ _ _ (Cut_app_scheme scheme _ Hs)).
  cbn [negb].
  rewrite (split2_found _ _ _ _ (Cut_app_char "/" authority endpoint Ha)).
  reflexivity.
Qed.

(** Every result of [parseTarget] has a scheme free of ["://"] and an
    authority free of ["/"]. *)
Lemma parseTarget_fields (target : string) :
  Contains (Scheme (parseTarget target)) "://" = false /\
  Contains (Authority (parseTarget target)) "/" = false.
Proof.
  destruct (Cut target "://") as [[s r]|] eqn:E1.
  - unfold parseTarget. rewrite (split2_found _ _ _ _ E1). cbn [negb].
    destruct (Cut r "/") as [[a e]|] eqn:E2.
    + rewrite (split2_found _ _ _ _ E2). cbn [negb Scheme Authority]. split.
      * apply (Cut_Some_first "://" target s r); [discriminate|exact E1].
      * apply (Cut_Some_first "/" r a e); [discriminate|exact E2].
    + apply Cut_None in E2. rewrite (split2_missing _ _ E2).
      split; reflexivity.
  - apply Cut_None in E1. rewrite (parseTarget_no_scheme _ E1).
    split; reflexivity.
Qed.

Lemma parseTarget_assemble (target : string) :
  parseTarget (assemble (parseTarget target)) = parseTarget target.
Proof.
  destruct (parseTarget_fields target) as [Hs Ha].
  unfold assemble. rewrite (parseTarget_well_formed _ _ _ Hs Ha).
  destruct (parseTarget target); reflexivity.
Qed.

(** C8. [parseTarget] on the three shapes of a dial target: without
    ["://"] the whole target is the endpoint; with ["://"] but no ["/"]
    after it the whole target is the endpoint again; a well-formed
    [scheme://authority/endpoint] yields that triple, and parsing the string
    put together from any parsed triple gives the same triple back. *)
Theorem C8_parseTarget_shapes :
  (forall target,
      Contains target "://" = false ->
      parseTarget target = mkTarget "" "" target) /\
  (forall scheme rest,
      Contains scheme "://" = false ->
      Contains rest "/" = false ->
      parseTarget (scheme ++ "://" ++ rest)
      = mkTarget "" "" (scheme ++ "://" ++ rest)) /\
  (forall scheme authority endpoint,
      Contains scheme "://" = false ->
      Contains authority "/" = false ->
      parseTarget (scheme ++ "://" ++ authority ++ "/" ++ endpoint)
      = mkTarget scheme authority endpoint) /\
  (forall target,
      parseTarget (assemble (parseTarget target)) = parseTarget target).
Proof.
  repeat split.
  - exact parseTarget_no_scheme.
  - exact parseTarget_no_slash.
  - exact parseTarget_well_formed.
  - exact parseTarget_assemble.
Qed.

End TargetFacts.

(** ** Decimal numbers *)

Section NumberFacts.
Import GoStrconv DurationSpec.

Lemma isDigit_digitVal (ch : ascii) :
  isDigit ch = true -> 0 <= digitVal ch <= 9.
Proof.
  unfold isDigit, digitVal. intros H.
  apply andb_true_iff in H as [H1 H2].
  apply Z.leb_le in H1, H2. lia.
Qed.

Lemma isDigit_not_sign (ch : ascii) :
  isDigit ch = true -> Ascii.eqb ch "+" = false /\ Ascii.eqb ch "-" = false.
Proof.
  intros H. split.
  - destruct (Ascii.eqb_spec ch "+") as [->|]; [discriminate H|reflexivity].
  - destruct (Ascii.eqb_spec ch "-") as [->|]; [discriminate H|reflexivity].
Qed.

Lemma pow10_pos (n : nat) : 1 <= 10 ^ Z.of_nat n.
Proof.
  pose proof (Z.pow_pos_nonneg 10 (Z.of_nat n)). lia.
Qed.

Lemma pow10_succ (n : nat) : 10 ^ Z.of_nat (S n) = 10 * 10 ^ Z.of_nat n.
Proof. rewrite Nat2Z.inj_succ, Z.pow_succ_r by lia. reflexivity. Qed.

Lemma decimalValue_bound (s : string) :
  allDigits s = true ->
  0 <= decimalValue s < 10 ^ Z.of_nat (String.length s).
Proof.
  induction s as [|ch s IH]; intros H.
  - simpl. lia.
  - cbn [allDigits] in H. apply andb_true_iff in H as [Hd Hs].
    specialize (IH Hs). apply isDigit_digitVal in Hd.
    cbn [decimalValue String.length]. rewrite pow10_succ.
    pose proof (pow10_pos (String.length s)). nia.
Qed.

(** The digit loop returns the positional value, unless a non-digit or the
    bound gets in the way. *)
Lemma parseDigits_Ok (s : string) (maxVal n v : Z) :
  0 <= n <= maxVal ->
  parseDigits s maxVal n = Ok v <->
  allDigits s = true /\
  v = n * 10 ^ Z.of_nat (String.length s) + decimalValue s /\
  v <= maxVal.
Proof.
  revert n; induction s as [|ch s IH]; intros n Hn.
  - simpl. split.
    + intros H; injection H as <-. repeat split; lia.
    + intros (_ & -> & _). f_equal. lia.
  - cbn [parseDigits allDigits decimalValue String.length].
    rewrite pow10_succ.
    pose proof (pow10_pos (String.length s)) as Hp.
    destruct (isDigit ch) eqn:Hd; cbn [andb].
    + pose proof (isDigit_digitVal _ Hd) as Hv.
      destruct (Z.ltb_spec maxVal (n * 10 + digitVal ch)) as [Hlt|Hle].
      * split; [discriminate|].
        intros (Hs & -> & Hmax).
        pose proof (decimalValue_bound _ Hs). nia.
      * rewrite IH by lia. split.
        -- intros (Hs & -> & Hmax). repeat split; [exact Hs|lia|lia].
        -- intros (Hs & -> & Hmax). repeat split; [exact Hs|lia|lia].
    + split; [discriminate|]. intros (Hs & _); discriminate.
Qed.

Lemma ParseUint_Ok (s : string) (bits v : Z) :
  0 <= bits ->
  ParseUint s bits = Ok v <->
  s <> "" /\ allDigits s = true /\ v = decimalValue s /\ v <= 2 ^ bits - 1.
Proof.
  intros Hb. pose proof (Z.pow_pos_nonneg 2 bits ltac:(lia) Hb) as Hp.
  unfold ParseUint. destruct s as [|ch s].
  - split; [discriminate|]. intros (H & _); contradiction.
  - rewrite parseDigits_Ok by lia. split.
    + intros (Hs & -> & Hm).
      refine (conj _ (conj Hs (conj _ _))); [discriminate|lia|lia].
    + intros (_ & Hs & -> & Hm). refine (conj Hs (conj _ _)); lia.
Qed.

Lemma ParseInt_unsigned (s : string) (ch : ascii) (rest : string) (bits : Z) :
  s = String ch rest ->
  Ascii.eqb ch "+" = false -> Ascii.eqb ch "-" = false ->
  ParseInt s bits =
  match ParseUint s bits with
  | Err e => Err e
  | Ok un => if 2 ^ (bits - 1) <=? un then Err ErrRange else Ok un
  end.
Proof. intros -> H1 H2. unfold ParseInt. rewrite H1, H2. reflexivity. Qed.

(** [ParseInt] accepts exactly the signed decimals that fit [bits] bits. *)
Lemma ParseInt_Ok (s : string) (bits v : Z) :
  1 <= bits ->
  ParseInt s bits = Ok v <->
  signedDecimal s v /\ - 2 ^ (bits - 1) <= v < 2 ^ (bits - 1).
Proof.
  intros Hb.
  assert (Hpow : 2 ^ bits = 2 * 2 ^ (bits - 1)).
  { rewrite <- Z.pow_succ_r by lia. f_equal. lia. }
  pose proof (Z.pow_pos_nonneg 2 (bits - 1) ltac:(lia) ltac:(lia)) as Hp.
  split.
  - intros H. destruct s as [|ch rest]; [discriminate|].
    unfold ParseInt in H.
    destruct (Ascii.eqb_spec ch "+") as [->|Hplus];
      [|destruct (Ascii.eqb_spec ch "-") as [->|Hminus]].
    + destruct (ParseUint rest bits) as [un|] eqn:E; [|discriminate].
      apply ParseUint_Ok in E as (Hne & Hd & -> & Hm); [|lia].
      cbn [negb andb] in H.
      destruct (Z.leb_spec (2 ^ (bits - 1)) (decimalValue rest));
        [discriminate|].
      injection H as <-. pose proof (decimalValue_bound _ Hd).
      split; [|lia]. exists rest. repeat split; try assumption.
      left. split; [right|]; reflexivity.
    + destruct (ParseUint rest bits) as [un|] eqn:E; [|discriminate].
      apply ParseUint_Ok in E as (Hne & Hd & -> & Hm); [|lia].
      cbn [negb andb] in H.
      destruct (Z.ltb_spec (2 ^ (bits - 1)) (decimalValue rest));
        [discriminate|].
      injection H as <-. pose proof (decimalValue_bound _ Hd).
      split; [|lia]. exists rest. repeat split; try assumption.
      right. split; reflexivity.
    + remember (String ch rest) as body eqn:Hbody. clear Hbody.
      destruct (ParseUint body bits) as [un|] eqn:E; [|discriminate].
      apply ParseUint_Ok in E as (Hne & Hd & -> & Hm); [|lia].
      cbn [negb andb] in H.
      destruct (Z.leb_spec (2 ^ (bits - 1)) (decimalValue body));
        [discriminate|].
      injection H as <-. pose proof (decimalValue_bound _ Hd).
      split; [|lia]. exists body. repeat split; try assumption.
      left. split; [left|]; reflexivity.
  - intros ((ds & Hne & Hd & Hs) & Hr).
    pose proof (decimalValue_bound _ Hd) as Hbd.
    assert (Hu : forall un, un = decimalValue ds -> un <= 2 ^ bits - 1 ->
                 ParseUint ds bits = Ok un).
    { intros un -> Hm. apply ParseUint_Ok; [lia|].
      refine (conj Hne (conj Hd (conj eq_refl Hm))). }
    destruct Hs as [[[->| ->] ->]|[-> ->]].
    + assert (Hsign : exists ch rest, ds = String ch rest /\
                        Ascii.eqb ch "+" = false /\ Ascii.eqb ch "-" = false).
      { destruct ds as [|ch rest]; [contradiction|]. exists ch, rest.
        cbn [allDigits] in Hd. apply andb_true_iff in Hd as [Hc _].
        split; [reflexivity|apply isDigit_not_sign; exact Hc]. }
      destruct Hsign as (ch & rest & Hds & Hp1 & Hp2).
      rewrite (ParseInt_unsigned _ _ _ _ Hds Hp1 Hp2).
      rewrite (Hu _ eq_refl) by lia.
      destruct (Z.leb_spec (2 ^ (bits - 1)) (decimalValue ds));
        [lia|reflexivity].
    + cbn [append ParseInt]. rewrite Ascii.eqb_refl.
      rewrite (Hu _ eq_refl) by lia. cbn [negb andb].
      destruct (Z.leb_spec (2 ^ (bits - 1)) (decimalValue ds));
        [lia|reflexivity].
    + cbn [append ParseInt].
      replace (Ascii.eqb "-" "+") with false by reflexivity.
      rewrite Ascii.eqb_refl.
      rewrite (Hu _ eq_refl) by lia. cbn [negb andb].
      destruct (Z.ltb_spec (2 ^ (bits - 1)) (decimalValue ds));
        [lia|reflexivity].
Qed.

End NumberFacts.

(** ** Durations *)

Section DurationFacts.
Import GoStrings GoStrconv ServiceConfig DurationSpec.

Lemma wrap64_small (z : Z) : - 2 ^ 63 <= z < 2 ^ 63 -> wrap64 z = z.
Proof.
  intros H. unfold wrap64.
  change (2 ^ 63) with 9223372036854775808 in *.
  change (2 ^ 64) with 18446744073709551616.
  rewrite Z.mod_small by lia. lia.
Qed.

Lemma padNanos_exact (k : nat) (f : Z) :
  - 2 ^ 63 <= f * 10 ^ Z.of_nat k < 2 ^ 63 ->
  padNanos k f = f * 10 ^ Z.of_nat k.
Proof.
  revert f; induction k as [|k IH]; intros f H.
  - simpl. lia.
  - rewrite pow10_succ in *. pose proof (pow10_pos k) as Hp.
    cbn [padNanos].
    assert (Hw : wrap64 (f * 10) = f * 10).
    { apply wrap64_small. change (2 ^ 63) with 9223372036854775808 in *. nia. }
    rewrite Hw, IH; [lia|].
    replace (f * 10 * 10 ^ Z.of_nat k) with (f * (10 * 10 ^ Z.of_nat k)) by lia.
    exact H.
Qed.

Lemma HasSuffix_s (s : string) :
  HasSuffix s "s" = true -> s = dropLast s ++ "s".
Proof.
  induction s as [|ch s IH]; cbn [HasSuffix]; intros H.
  - discriminate.
  - apply orb_true_iff in H as [H|H].
    + apply String.eqb_eq in H; rewrite H; reflexivity.
    + destruct s as [|ch' s']; [discriminate|].
      specialize (IH H). cbn [dropLast] in *. cbn [append]. congruence.
Qed.

Lemma dropLast_s (body : string) : dropLast (body ++ "s") = body.
Proof.
  induction body as [|ch b IH]; [reflexivity|].
  cbn [append dropLast]. rewrite IH.
  destruct b; reflexivity.
Qed.

Lemma HasSuffix_app_s (body : string) : HasSuffix (body ++ "s") "s" = true.
Proof.
  induction body as [|ch b IH]; [reflexivity|].
  cbn [append HasSuffix]. rewrite IH. apply orb_true_r.
Qed.

Lemma Contains_app (x sep y : string) : Contains (x ++ sep ++ y) sep = true.
Proof.
  induction x as [|ch x IH].
  - cbn [append]. destruct (sep ++ y) eqn:E; cbn [Contains]; unfold HasPrefix;
      rewrite <- E, CutPrefix_app; reflexivity.
  - cbn [append Contains]. rewrite IH. apply orb_true_r.
Qed.

Lemma SplitN_3 (s sep : string) :
  SplitN s sep 3 =
  match Cut s sep with
  | None => [s]
  | Some (a, b) =>
      match Cut b sep with
      | None => [a; b]
      | Some (x, y) => [a; x; y]
      end
  end.
Proof.
  cbn [SplitN]. destruct (Cut s sep) as [[a b]|]; [|reflexivity].
  destruct (Cut b sep) as [[x y]|]; reflexivity.
Qed.

Lemma len_pos (s : string) : (0 <? len s)%nat = negb (String.eqb s "").
Proof. destruct s; reflexivity. Qed.

(** The three shapes of the body and what [parseDuration] does on each. *)
Lemma parseDuration_whole (body : string) :
  Contains body "." = false ->
  parseDuration (Some (body ++ "s")) =
  if String.eqb body "" then Err (Malformed (body ++ "s") None)
  else match ParseInt body 32 with
       | Ok i => Ok (Some (wrap64 (i * Second)))
       | Err e => Err (Malformed (body ++ "s") (Some e))
       end.
Proof.
  intros H. apply Cut_None in H. unfold parseDuration.
  rewrite HasSuffix_app_s, dropLast_s, SplitN_3, H.
  cbn [negb List.length nth].
  change (2 <? 1)%nat with false. change (1 =? 2)%nat with false.
  cbn [andb]. rewrite len_pos. destruct (String.eqb body ""); cbn [negb rbind].
  - reflexivity.
  - unfold parseInt. destruct (ParseInt body 32); reflexivity.
Qed.

Lemma parseDuration_split (ip fp : string) :
  Contains ip "." = false ->
  Contains fp "." = false ->
  parseDuration (Some (ip ++ "." ++ fp ++ "s")) =
  let s := ip ++ "." ++ fp ++ "s" in
  match (if String.eqb ip "" then Ok (0, false)
         else match ParseInt ip 32 with
              | Ok i => Ok (wrap64 (i * Second), true)
              | Err e => Err (Malformed s (Some e))
              end) with
  | Err e => Err e
  | Ok (d, hasDigits) =>
      if String.eqb fp "" then
        if hasDigits then Ok (Some d) else Err (Malformed s None)
      else if (9 <? len fp)%nat then Err (Malformed s None)
      else match ParseInt fp 64 with
           | Ok f => Ok (Some (wrap64 (d + padNanos (9 - len fp) f)))
           | Err e => Err (Malformed s (Some e))
           end
  end.
Proof.
  intros Hi Hf. apply Cut_None in Hf. unfold parseDuration.
  replace (ip ++ "." ++ fp ++ "s") with ((ip ++ "." ++ fp) ++ "s")
    by (rewrite append_assoc; reflexivity).
  rewrite HasSuffix_app_s, dropLast_s, SplitN_3.
  rewrite (Cut_app_char "." ip fp Hi), Hf.
  cbn [negb List.length nth].
  change (2 <? 2)%nat with false. change (2 =? 2)%nat with true.
  cbn [andb]. rewrite !len_pos. cbv zeta. unfold parseInt.
  destruct (String.eqb ip ""); cbn [negb rbind].
  - destruct (String.eqb fp ""); cbn [negb rbind]; [reflexivity|].
    destruct (9 <? len fp)%nat; [reflexivity|].
    destruct (ParseInt fp 64); reflexivity.
  - destruct (ParseInt ip 32); cbn [rbind]; [|reflexivity].
    destruct (String.eqb fp ""); cbn [negb rbind]; [reflexivity|].
    destruct (9 <? len fp)%nat; [reflexivity|].
    destruct (ParseInt fp 64); reflexivity.
Qed.

Lemma parseDuration_many (a b : string) :
  Contains a "." = false ->
  Contains b "." = true ->
  parseDuration (Some (a ++ "." ++ b ++ "s")) =
  Err (Malformed (a ++ "." ++ b ++ "s") None).
Proof.
  intros Ha Hb. unfold parseDuration.
  replace (a ++ "." ++ b ++ "s") with ((a ++ "." ++ b) ++ "s")
    by (rewrite append_assoc; reflexivity).
  rewrite HasSuffix_app_s, dropLast_s, SplitN_3.
  rewrite (Cut_app_char "." a b Ha).
  destruct (Cut b ".") as [[x y]|] eqn:E.
  - reflexivity.
  - apply Cut_None in E. congruence.
Qed.

(** Every string ending in [s] has exactly one of the three shapes. *)
Lemma body_shapes (body : string) :
  Contains body "." = false \/
  exists a b, body = a ++ "." ++ b /\ Contains a "." = false.
Proof.
  destruct (Cut body ".") as [[a b]|] eqn:E.
  - right. exists a, b. split.
    + apply (Cut_Some_eq _ _ _ _ E).
    + apply (Cut_Some_first "." body a b); [discriminate|exact E].
  - left. apply Cut_None. exact E.
Qed.

Lemma signedDecimal_nonempty (v : Z) : ~ signedDecimal "" v.
Proof.
  intros (ds & Hne & _ & [[[H|H] _]|[H _]]).
  - subst ds. contradiction.
  - discriminate.
  - discriminate.
Qed.

(** A fraction of at most nine characters stays below one second. *)
Lemma fraction_bound (fp : string) (v : Z) :
  signedDecimal fp v ->
  (String.length fp <= 9)%nat ->
  - 10 ^ 9 < v < 10 ^ 9 /\
  - 10 ^ 9 < v * 10 ^ Z.of_nat (9 - String.length fp) < 10 ^ 9.
Proof.
  intros (ds & Hne & Hd & Hs) Hlen.
  pose proof (decimalValue_bound ds Hd) as Hb.
  assert (Hl : (String.length ds <= String.length fp)%nat).
  { destruct Hs as [[[->| ->] _]|[-> _]]; cbn [append String.length]; lia. }
  assert (Hpow : 10 ^ Z.of_nat (String.length ds)
                 <= 10 ^ Z.of_nat (String.length fp))
    by (apply Z.pow_le_mono_r; lia).
  assert (Hprod : 10 ^ Z.of_nat (String.length fp)
                  * 10 ^ Z.of_nat (9 - String.length fp) = 10 ^ 9).
  { rewrite <- Z.pow_add_r by lia. f_equal. lia. }
  pose proof (pow10_pos (9 - String.length fp)) as HB.
  change (10 ^ 9) with 1000000000 in *.
  destruct Hs as [[_ ->]|[_ ->]]; nia.
Qed.

Lemma integer_seconds (i : Z) :
  - 2 ^ 31 <= i < 2 ^ 31 -> wrap64 (i * Second) = i * Second.
Proof.
  intros H. apply wrap64_small. unfold Second.
  change (2 ^ 31) with 2147483648 in H.
  change (2 ^ 63) with 9223372036854775808. lia.
Qed.

Lemma ParseInt32_Ok (s : string) (v : Z) :
  ParseInt s 32 = Ok v <-> signedDecimal s v /\ - 2 ^ 31 <= v < 2 ^ 31.
Proof. apply (ParseInt_Ok s 32 v). lia. Qed.

Lemma ParseInt64_Ok (s : string) (v : Z) :
  ParseInt s 64 = Ok v <-> signedDecimal s v /\ - 2 ^ 63 <= v < 2 ^ 63.
Proof. apply (ParseInt_Ok s 64 v). lia. Qed.

(** The fractional block of [parseDuration] on a well-formed fraction. *)
Lemma fraction_nanos (fp : string) (v d : Z) :
  signedDecimal fp v ->
  (String.length fp <= 9)%nat ->
  - 2 ^ 31 * Second <= d <= 2 ^ 31 * Second ->
  ParseInt fp 64 = Ok v /\
  wrap64 (d + padNanos (9 - len fp) v)
  = d + v * 10 ^ Z.of_nat (9 - String.length fp).
Proof.
  intros Hv Hlen Hd.
  destruct (fraction_bound fp v Hv Hlen) as [H1 H2].
  unfold Second in Hd. change (2 ^ 31) with 2147483648 in Hd.
  change (10 ^ 9) with 1000000000 in *.
  split.
  - apply ParseInt64_Ok. split; [exact Hv|].
    change (2 ^ 63) with 9223372036854775808. lia.
  - unfold len. rewrite padNanos_exact.
    + apply wrap64_small. change (2 ^ 63) with 9223372036854775808. lia.
    + change (2 ^ 63) with 9223372036854775808. lia.
Qed.

Lemma parseDuration_sound (s : string) (d : Z) :
  parseDuration (Some s) = Ok (Some d) -> acceptedDuration s d.
Proof.
  intros H.
  destruct (HasSuffix s "s") eqn:Hs;
    [|unfold parseDuration in H; rewrite Hs in H; discriminate].
  apply HasSuffix_s in Hs. remember (dropLast s) as body eqn:Hb. clear Hb.
  subst s. destruct (body_shapes body) as [Hw|(a & b & -> & Ha)].
  - rewrite (parseDuration_whole body Hw) in H.
    destruct (String.eqb_spec body "") as [|Hne]; [discriminate|].
    destruct (ParseInt body 32) as [i|] eqn:Ei; [|discriminate].
    apply ParseInt32_Ok in Ei as [Hi Hr].
    rewrite (integer_seconds i Hr) in H. injection H as <-.
    exists body, "", i, 0.
    refine (conj Hw (conj eq_refl (conj (or_introl (conj eq_refl eq_refl))
             (conj (or_introl Hne) (conj _ (conj _ _)))))).
    + right. split; assumption.
    + left. split; reflexivity.
    + lia.
  - rewrite append_assoc in H. cbn [append] in H.
    change (a ++ String "." (b ++ "s")) with (a ++ "." ++ b ++ "s") in H.
    destruct (Contains b ".") eqn:Hb;
      [rewrite (parseDuration_many a b Ha Hb) in H; discriminate|].
    rewrite (parseDuration_split a b Ha Hb) in H. cbv zeta in H.
    rewrite append_assoc.
    exists a, b.
    assert (Hint : exists i h,
               (if String.eqb a "" then Ok (0, false)
                else match ParseInt a 32 with
                     | Ok i => Ok (wrap64 (i * Second), true)
                     | Err e =>
                         Err (Malformed (a ++ "." ++ b ++ "s") (Some e))
                     end) = Ok (i * Second, h) /\
               integerPart a i /\ h = negb (String.eqb a "") /\
               - 2 ^ 31 <= i < 2 ^ 31).
    { destruct (String.eqb_spec a "") as [->|Hne].
      - exists 0, false. repeat split; try reflexivity; try lia.
        left. split; reflexivity.
      - destruct (ParseInt a 32) as [i|] eqn:Ei; [|discriminate].
        pose proof Ei as Ei'. apply ParseInt32_Ok in Ei' as [Hi Hr].
        exists i, true. rewrite (integer_seconds i Hr).
        repeat split; try reflexivity; try lia.
        right. split; assumption. }
    destruct Hint as (i & h & Heq & Hi & -> & Hr).
    rewrite Heq in H. clear Heq.
    destruct (String.eqb_spec b "") as [->|Hbne].
    + destruct (String.eqb_spec a "") as [->|Hane]; cbn [negb] in H;
        [discriminate|]. injection H as <-.
      exists i, 0.
      refine (conj Ha (conj eq_refl (conj (or_intror eq_refl)
               (conj (or_introl Hane) (conj Hi (conj _ _)))))).
      * left. split; reflexivity.
      * lia.
    + destruct (Nat.ltb_spec 9 (len b)) as [|Hlen]; [discriminate|].
      destruct (ParseInt b 64) as [f|] eqn:Ef; [|discriminate].
      apply ParseInt64_Ok in Ef as [Hf _]. unfold len in Hlen.
      assert (Hd : - 2 ^ 31 * Second <= i * Second <= 2 ^ 31 * Second)
        by (unfold Second; lia).
      destruct (fraction_nanos b f (i * Second) Hf Hlen Hd) as [_ Hn].
      rewrite Hn in H. injection H as <-.
      exists i, (f * 10 ^ Z.of_nat (9 - String.length b)).
      refine (conj Ha (conj Hb (conj (or_intror eq_refl)
               (conj (or_intror Hbne) (conj Hi (conj _ eq_refl)))))).
      right. split; [exact Hlen|]. exists f. split; [exact Hf|reflexivity].
Qed.

Lemma parseDuration_complete (s : string) (d : Z) :
  acceptedDuration s d -> parseDuration (Some s) = Ok (Some d).
Proof.
  intros (ip & fp & i & f & Hip & Hfp & Hshape & Hne & Hi & Hf & ->).
  assert (Hint : (if String.eqb ip "" then Ok (0, false)
                  else match ParseInt ip 32 with
                       | Ok i => Ok (wrap64 (i * Second), true)
                       | Err e => Err (Malformed s (Some e))
                       end) = Ok (i * Second, negb (String.eqb ip "")) /\
                 - 2 ^ 31 <= i < 2 ^ 31).
  { destruct Hi as [[-> ->]|[Hi Hr]].
    - split; [reflexivity|]. change (2 ^ 31) with 2147483648. lia.
    - destruct (String.eqb_spec ip "") as [->|_];
        [destruct (signedDecimal_nonempty i Hi)|].
      rewrite (proj2 (ParseInt32_Ok ip i) (conj Hi Hr)).
      rewrite (integer_seconds i Hr). split; [reflexivity|exact Hr]. }
  destruct Hint as [Hint Hr].
  destruct Hshape as [[-> ->]| ->].
  - destruct Hne as [Hne|Hne]; [|contradiction].
    destruct Hf as [[_ ->]|[_ (v & Hv & _)]];
      [|destruct (signedDecimal_nonempty v Hv)].
    rewrite (parseDuration_whole ip Hip).
    destruct (String.eqb_spec ip "") as [|_]; [contradiction|].
    cbn [negb] in Hint.
    destruct (ParseInt ip 32) as [i'|]; [|discriminate].
    injection Hint as ->. do 2 f_equal. lia.
  - rewrite (parseDuration_split ip fp Hip Hfp). cbv zeta. rewrite Hint.
    destruct Hf as [[-> ->]|[Hlen (v & Hv & ->)]].
    + cbn [String.eqb]. destruct Hne as [Hne|Hne]; [|contradiction].
      destruct (String.eqb_spec ip "") as [|_]; [contradiction|].
      cbn [negb]. do 2 f_equal. lia.
    + destruct (String.eqb_spec fp "") as [->|_];
        [destruct (signedDecimal_nonempty v Hv)|].
      destruct (Nat.ltb_spec 9 (len fp)) as [Hgt|_];
        [unfold len in Hgt; lia|].
      assert (Hd : - 2 ^ 31 * Second <= i * Second <= 2 ^ 31 * Second)
        by (unfold Second; lia).
      destruct (fraction_nanos fp v (i * Second) Hv Hlen Hd) as [-> ->].
      reflexivity.
Qed.

End DurationFacts.

(** ** The duration grammar and the code *)

Section DurationClaims.
Import GoStrings GoStrconv ServiceConfig DurationSpec.

Lemma parseDuration_never_nil (s : string) :
  parseDuration (Some s) <> Ok None.
Proof.
  destruct (HasSuffix s "s") eqn:Hs;
    [|unfold parseDuration; rewrite Hs; discriminate].
  apply HasSuffix_s in Hs. rewrite Hs.
  destruct (body_shapes (dropLast s)) as [Hw|(a & b & -> & Ha)].
  - rewrite (parseDuration_whole _ Hw).
    destruct (String.eqb (dropLast s) ""); [discriminate|].
    destruct (ParseInt (dropLast s) 32); discriminate.
  - rewrite append_assoc.
    change (("." ++ b) ++ "s") with ("." ++ b ++ "s").
    destruct (Contains b ".") eqn:Hb.
    + rewrite (parseDuration_many a b Ha Hb). discriminate.
    + rewrite (parseDuration_split a b Ha Hb). cbv zeta.
      destruct (String.eqb a ""); [|destruct (ParseInt a 32)];
        try discriminate;
        (destruct (String.eqb b ""); [try discriminate|];
         destruct (9 <? len b)%nat; [discriminate|];
         destruct (ParseInt b 64); discriminate).
Qed.

Lemma long_fraction_rejected (ip fp : string) :
  (9 < String.length fp)%nat -> rejected (ip ++ "." ++ fp ++ "s").
Proof.
  intros Hlen. unfold rejected.
  destruct (body_shapes ip) as [Hi|(a & r & -> & Ha)].
  - destruct (Contains fp ".") eqn:Hf.
    + rewrite (parseDuration_many ip fp Hi Hf). eexists; reflexivity.
    + rewrite (parseDuration_split ip fp Hi Hf). cbv zeta.
      assert (Hne : String.eqb fp "" = false)
        by (destruct fp; [simpl in Hlen; lia|reflexivity]).
      assert (Hgt : (9 <? len fp)%nat = true)
        by (apply Nat.ltb_lt; exact Hlen).
      rewrite Hne, Hgt.
      destruct (String.eqb ip ""); [eexists; reflexivity|].
      destruct (ParseInt ip 32); eexists; reflexivity.
  - replace ((a ++ "." ++ r) ++ "." ++ fp ++ "s")
      with (a ++ "." ++ (r ++ "." ++ fp) ++ "s")
      by (rewrite !append_assoc; reflexivity).
    rewrite (parseDuration_many a _ Ha (Contains_app r "." fp)).
    eexists; reflexivity.
Qed.

(** The grammar in the specification's words and the code disagree both
    ways: a sign is accepted by the code only, a seconds count beyond 32
    bits by the grammar only. *)
Lemma grammar_differs_overflow :
  grammarDuration "4294967296s" = Some 4294967296000000000 /\
  parseDuration (Some "4294967296s")
  = Err (Malformed "4294967296s" (Some ErrRange)).
Proof. split; reflexivity. Qed.

(** C7, as stated, fails: ["-1s"] is no duration of the stated grammar (its
    integer part is not made of digits), yet [parseDuration] accepts it. *)
Lemma C7_signed_counterexample :
  grammarDuration "-1s" = None /\
  parseDuration (Some "-1s") = Ok (Some (-1000000000)).
Proof. split; reflexivity. Qed.

(** C7, amended. [parseDuration] accepts exactly the strings ending in [s]
    whose body has at most one decimal point, whose integer part, when
    present, is an optionally signed decimal that fits 32 bits, whose
    fractional part, when present, is at most nine characters of optionally
    signed decimal (scaled by ten for every character short of nine), with
    at least one of the two present; the value is the sum in nanoseconds.
    It accepts ["1s"], ["0.500s"] and ["1.000000001s"] with their canonical
    values and rejects ["1"], ["s"], ["1.2.3s"] and every fractional part
    longer than nine characters. *)
Theorem C7_parseDuration_accepted :
  (forall s d, parseDuration (Some s) = Ok (Some d) <-> acceptedDuration s d) /\
  (forall s, parseDuration (Some s) <> Ok None) /\
  parseDuration (Some "1s") = Ok (Some 1000000000) /\
  parseDuration (Some "0.500s") = Ok (Some 500000000) /\
  parseDuration (Some "1.000000001s") = Ok (Some 1000000001) /\
  rejected "1" /\ rejected "s" /\ rejected "1.2.3s" /\
  (forall ip fp, (9 < String.length fp)%nat ->
                 rejected (ip ++ "." ++ fp ++ "s")).
Proof.
  refine (conj _ (conj parseDuration_never_nil
           (conj eq_refl (conj eq_refl (conj eq_refl
           (conj _ (conj _ (conj _ long_fraction_rejected)))))))).
  - intros s d. split; [apply parseDuration_sound|apply parseDuration_complete].
  - eexists; reflexivity.
  - eexists; reflexivity.
  - eexists; reflexivity.
Qed.

(** The amended grammar at work on ["1.5s"] and on an over-long fraction. *)
Lemma C7_parseDuration_accepted_witness :
  acceptedDuration "1.5s" 1500000000 /\ rejected "1.0000000001s".
Proof.
  destruct C7_parseDuration_accepted as (Hiff & _ & _ & _ & _ & _ & _ & _ & Hlong).
  split.
  - apply Hiff. reflexivity.
  - apply (Hlong "1" "0000000001"). simpl. lia.
Defined.

Lemma allDigits_no_dot (s : string) :
  allDigits s = true -> Contains s "." = false.
Proof.
  induction s as [|ch s IH]; [reflexivity|].
  cbn [allDigits Contains]. intros H. apply andb_true_iff in H as [Hd Hs].
  rewrite (IH Hs), orb_false_r. unfold HasPrefix. cbn [CutPrefix].
  destruct (Ascii.eqb_spec "." ch) as [<-|]; [discriminate Hd|reflexivity].
Qed.

Lemma minus_seconds (ds : string) :
  ds <> "" -> allDigits ds = true -> decimalValue ds <= 2 ^ 31 ->
  parseDuration (Some ("-" ++ ds ++ "s"))
  = Ok (Some (- decimalValue ds * Second)).
Proof.
  intros Hne Hd Hr. apply parseDuration_complete.
  pose proof (decimalValue_bound ds Hd) as Hb.
  exists ("-" ++ ds), "", (- decimalValue ds), 0.
  refine (conj _ (conj eq_refl (conj (or_introl (conj eq_refl eq_refl))
           (conj (or_introl _) (conj _ (conj _ _)))))).
  - cbn [append Contains]. rewrite (allDigits_no_dot ds Hd). reflexivity.
  - discriminate.
  - right. split; [|lia]. exists ds.
    refine (conj Hne (conj Hd (or_intror (conj eq_refl eq_refl)))).
  - left. split; reflexivity.
  - lia.
Qed.

(** C10. A minus sign before the seconds is accepted: ["-1s"] parses to
    minus one second, and so does every other negated count of seconds that
    fits 32 bits; and [newClientStream] gives the context a deadline only
    for a non-negative configured timeout: a negative one is treated like an
    absent one. *)
Theorem C10_negative_timeout :
  parseDuration (Some "-1s") = Ok (Some (- Second)) /\
  (forall ds,
      ds <> "" -> allDigits ds = true -> decimalValue ds <= 2 ^ 31 ->
      parseDuration (Some ("-" ++ ds ++ "s"))
      = Ok (Some (- decimalValue ds * Second))) /\
  (forall mc d,
      Stream.newClientStream_context mc = Stream.WithTimeout d <->
      Timeout mc = Some d /\ 0 <= d) /\
  (forall mc d,
      Timeout mc = Some d -> d < 0 ->
      Stream.newClientStream_context mc
      = Stream.newClientStream_context
          (mkMethodConfig (WaitForReady mc) None (MaxReqSize mc) (MaxRespSize mc))).
Proof.
  split; [reflexivity|]. split; [exact minus_seconds|]. split.
  - intros mc d. unfold Stream.newClientStream_context.
    destruct (Timeout mc) as [t|].
    + destruct (Z.leb_spec 0 t) as [Hle|Hlt].
      * split; [intros E; injection E as ->; split; [reflexivity|assumption]|].
        intros [E _]; injection E as ->; reflexivity.
      * split; [discriminate|]. intros [E ?]; injection E as ->; lia.
    + split; [discriminate|]. intros [H _]; discriminate.
  - intros mc d Ht Hneg. unfold Stream.newClientStream_context.
    rewrite Ht. cbn [Timeout].
    destruct (Z.leb_spec 0 d); [lia|reflexivity].
Qed.

(** A method config whose timeout came from ["-1s"] gets no deadline. *)
Lemma C10_negative_timeout_witness :
  Stream.newClientStream_context (mkMethodConfig None (Some (-1000000000)) None None)
  = Stream.WithCancel.
Proof.
  destruct C10_negative_timeout as (_ & _ & _ & H).
  rewrite (H (mkMethodConfig None (Some (-1000000000)) None None) (-1000000000));
    [reflexivity|reflexivity|lia].
Defined.

(** C6. [getMaxSize] returns the smaller of the two values when both are
    set, the one that is set when only one is, and the default when none
    is. *)
Theorem C6_getMaxSize (defaultVal : Z) :
  (forall a b, getMaxSize (Some a) (Some b) defaultVal = Some (Z.min a b)) /\
  (forall a, getMaxSize (Some a) None defaultVal = Some a) /\
  (forall b, getMaxSize None (Some b) defaultVal = Some b) /\
  getMaxSize None None defaultVal = Some defaultVal.
Proof.
  repeat split. intros a b. unfold getMaxSize, min. f_equal.
  destruct (Z.ltb_spec a b); lia.
Qed.

End DurationClaims.

(** ** Stream termination *)

Section FinishFacts.
Import Errors Stream StreamObs.
Local Open Scope stream_scope.
Variable w : World.

Lemma forEach_after (l : list nat) (st : State) :
  forEach l (fun o => emit (EvAfter o)) st
  = (tt, mkState (cs st) (nWrites st) (nRecvs st) (trace st ++ map EvAfter l)).
Proof.
  revert st; induction l as [|o l IH]; intros st.
  - simpl. unfold ret. rewrite app_nil_r. destruct st; reflexivity.
  - cbn [forEach map]. unfold bind, emit. rewrite IH. cbn.
    rewrite <- app_assoc. reflexivity.
Qed.

Lemma finish_again (err : option error) (st : State) :
  finished (cs st) = true -> finish w err st = (tt, st).
Proof.
  intros H. unfold finish, bind, get. rewrite H. reflexivity.
Qed.

Lemma finish_first (err : option error) (st : State) :
  finished (cs st) = false ->
  finish w err st
  = (tt, mkState (finishedStream (cs st)) (nWrites st) (nRecvs st)
                 (trace st ++ finishActions w (cs st) (finalError err))).
Proof.
  intros H. destruct st as [s nw nr tr0]. cbn [cs nWrites nRecvs trace] in *.
  pose proof (forEach_after (opts s)) as HF.
  unfold finish, finalError, finishActions, finishedStream.
  unfold bind at 1. unfold get at 1. cbn [cs]. rewrite H.
  set (F := forEach (opts s) _) in *. clearbody F.
  destruct s as [o ci d sl fin [dn dc0 dcm ds tr1 sh]].
  unfold attempt_finish, bind, get, modifyStream, when, emit, ret.
  cbn [cs nWrites nRecvs trace attempt setFinished setAttempt clearTr
       done statsHandler tr opts c desc sentLast finished dc decomp decompSet]
    in *.
  destruct (channelzOn w), dn, sh, tr1;
    cbn [cs nWrites nRecvs trace attempt setFinished setAttempt clearTr
         done statsHandler tr opts c desc sentLast finished dc decomp
         decompSet];
    rewrite HF; cbn; repeat rewrite <- app_assoc; cbn;
    destruct (isNil (if isEOF err then None else err)); reflexivity.
Qed.

Lemma finish_sets_flag (err : option error) (st : State) :
  finished (cs (snd (finish w err st))) = true.
Proof.
  destruct (finished (cs st)) eqn:H.
  - rewrite (finish_again err st H). exact H.
  - rewrite (finish_first err st H). cbn [snd cs]. unfold finishedStream.
    destruct (tr (attempt (cs st))); reflexivity.
Qed.

Lemma finish_idempotent (e1 e2 : option error) (st : State) :
  finish w e2 (snd (finish w e1 st)) = (tt, snd (finish w e1 st)).
Proof. apply finish_again, finish_sets_flag. Qed.

Lemma occurrences_app (kind : Event -> bool) (l1 l2 : list Event) :
  occurrences kind (l1 ++ l2)
  = (occurrences kind l1 + occurrences kind l2)%nat.
Proof. unfold occurrences. rewrite filter_app, length_app. reflexivity. Qed.

Lemma occurrences_after (kind : Event -> bool) (b : bool) (l : list nat) :
  (forall o, kind (EvAfter o) = b) ->
  occurrences kind (map EvAfter l) = if b then List.length l else 0%nat.
Proof.
  intros K. unfold occurrences. induction l as [|o l IH]; cbn [map filter].
  - destruct b; reflexivity.
  - rewrite K. destruct b; cbn [List.length]; rewrite IH; reflexivity.
Qed.

Lemma occurrences_finishActions (s : clientStream) (err : option error) :
  occurrences isCancel (finishActions w s err) = 1%nat /\
  occurrences isCloseStream (finishActions w s err) = 1%nat /\
  (occurrences isDone (finishActions w s err) <= 1)%nat /\
  (occurrences isStatsEnd (finishActions w s err) <= 1)%nat /\
  (occurrences isTraceFinish (finishActions w s err) <= 1)%nat /\
  occurrences isAfter (finishActions w s err) = List.length (opts s).
Proof.
  unfold finishActions. rewrite !occurrences_app.
  rewrite (occurrences_after isCancel false), (occurrences_after isCloseStream false),
    (occurrences_after isDone false), (occurrences_after isStatsEnd false),
    (occurrences_after isTraceFinish false), (occurrences_after isAfter true)
    by reflexivity.
  destruct (channelzOn w), (isNil err), (done (attempt s)),
    (statsHandler (attempt s)), (tr (attempt s));
    cbn; repeat split; lia.
Qed.

Lemma filter_filter_sub (p q : Event -> bool) (l : list Event) :
  (forall e, p e = true -> q e = true) ->
  filter p (filter q l) = filter p l.
Proof.
  intros Hpq. induction l as [|e l IH]; [reflexivity|].
  cbn [filter]. destruct (q e) eqn:Q; cbn [filter].
  - rewrite IH. reflexivity.
  - destruct (p e) eqn:P; [rewrite (Hpq e P) in Q; discriminate|exact IH].
Qed.

Lemma quiet_occurrences (kind : Event -> bool) (st st' : State) :
  (forall e, kind e = true -> isTermination e = true) ->
  quiet st st' ->
  occurrences kind (trace st') = occurrences kind (trace st).
Proof.
  intros Hk [_ Hq]. unfold occurrences.
  rewrite <- (filter_filter_sub kind isTermination (trace st') Hk), Hq.
  rewrite (filter_filter_sub kind isTermination (trace st) Hk). reflexivity.
Qed.

Lemma quiet_refl (st : State) : quiet st st.
Proof. repeat split. Qed.

Lemma quiet_trans (st1 st2 st3 : State) :
  quiet st1 st2 -> quiet st2 st3 -> quiet st1 st3.
Proof.
  intros [(A1 & A2 & A3 & A4 & A5 & A6 & A7) A8]
         [(B1 & B2 & B3 & B4 & B5 & B6 & B7) B8].
  repeat split; congruence.
Qed.

Lemma onceInv_quiet (st st' : State) :
  onceInv st -> quiet st st' -> onceInv st'.
Proof.
  intros (I1 & I2 & I3 & I4 & I5 & I6) Hq. unfold onceInv.
  rewrite !(quiet_occurrences _ st st') by
    (exact Hq || (intros [] E; (reflexivity || discriminate E))).
  destruct Hq as [(Ho & _ & _ & Hf & _) _]. rewrite Ho, Hf.
  repeat split; assumption.
Qed.

Lemma onceInv_finish (err : option error) (st : State) :
  onceInv st -> onceInv (snd (finish w err st)).
Proof.
  intros Inv. destruct (finished (cs st)) eqn:H.
  - rewrite (finish_again err st H). exact Inv.
  - rewrite (finish_first err st H). unfold onceInv in *.
    rewrite H in Inv. destruct Inv as (I1 & I2 & I3 & I4 & I5 & I6).
    cbn [snd cs trace].
    assert (Hfin : finished (finishedStream (cs st)) = true)
      by (unfold finishedStream; destruct (tr (attempt (cs st))); reflexivity).
    assert (Hopts : opts (finishedStream (cs st)) = opts (cs st))
      by (unfold finishedStream; destruct (tr (attempt (cs st))); reflexivity).
    rewrite Hfin, Hopts, !occurrences_app.
    destruct (occurrences_finishActions (cs st) (finalError err))
      as (F1 & F2 & F3 & F4 & F5 & F6).
    repeat split; lia.
Qed.

End FinishFacts.

(** ** Sending *)

Section SendFacts.
Import Codes Errors Stream StreamObs.
Local Open Scope stream_scope.
Variable w : World.

(** The outcome of the body of [sendMsg], case by case. *)
Lemma sendMsg_body_cases (m : Msg) (st : State) :
  let s := cs st in
  let logged := if EnableTracing w && tr (attempt s) then [EvTraceLog] else [] in
  let early := mkState s (nWrites st) (nRecvs st) (trace st ++ logged) in
  let last := negb (ClientStreams (desc s)) in
  let s1 := if last then setSentLast s else s in
  sendMsg_body w m st =
  match encode w m with
  | Err e => (Some e, early)
  | Ok data =>
      match compress w data with
      | Err e => (Some e, early)
      | Ok compData =>
          let '(hdr, payload) := msgHeader w data compData in
          if maxSendMessageSize (c s) <? Z.of_nat (List.length payload)
          then (Some tooLarge, early)
          else
            match Write w (nWrites st) with
            | Some _ =>
                (Some io_EOF,
                 mkState s1 (S (nWrites st)) (nRecvs st)
                   (trace st ++ logged ++ [EvWrite hdr payload last]))
            | None =>
                (None,
                 mkState s1 (S (nWrites st)) (nRecvs st)
                   (trace st ++ logged ++ [EvWrite hdr payload last]
                    ++ (if statsHandler (attempt s) then [EvStatsOutPayload] else [])
                    ++ (if channelzOn w then [EvMsgSent] else [])))
            end
      end
  end.
Proof.
  destruct st as [s nw nr tr0]. cbv zeta. cbn [cs nWrites nRecvs trace].
  unfold sendMsg_body, bind, get. cbn [cs].
  assert (Hlog : forall st' : State,
             when (EnableTracing w && tr (attempt s)) (emit EvTraceLog) st'
             = (tt, mkState (cs st') (nWrites st') (nRecvs st')
                      (trace st' ++ (if EnableTracing w && tr (attempt s)
                                     then [EvTraceLog] else [])))).
  { intros [s' a b t']. unfold when, emit, ret.
    destruct (EnableTracing w && tr (attempt s)); cbn;
      rewrite ?app_nil_r; reflexivity. }
  rewrite Hlog. cbn [cs nWrites nRecvs trace].
  set (logged := if EnableTracing w && tr (attempt s) then [EvTraceLog] else []).
  clearbody logged. clear Hlog.
  destruct (encode w m) as [data|e]; [|reflexivity].
  destruct (compress w data) as [compData|e]; [|reflexivity].
  destruct (msgHeader w data compData) as [hdr payload].
  destruct (maxSendMessageSize (c s) <? Z.of_nat (List.length payload));
    [reflexivity|].
  unfold when, modifyStream, transportWrite, emit, ret, bind.
  destruct (ClientStreams (desc s)); cbn [negb cs nWrites nRecvs trace];
    destruct (Write w nw); cbn [cs nWrites nRecvs trace];
    destruct (statsHandler (attempt s)), (channelzOn w);
    cbn [cs nWrites nRecvs trace attempt setSentLast];
    repeat rewrite <- app_assoc; cbn [app]; rewrite ?app_nil_r;
    reflexivity.
Qed.

(** [sendMsg] is its body followed by the deferred function. *)
Lemma sendMsg_deferred (m : Msg) (st : State) :
  sendMsg w m st =
  let '(err, st1) := sendMsg_body w m st in
  let err' := if isEOF err && negb (ClientStreams (desc (cs st1)))
              then None else err in
  (err', if negb (isNil err') && negb (isEOF err')
         then snd (finish w err' st1) else st1).
Proof.
  unfold sendMsg, bind, get, when, ret.
  destruct (sendMsg_body w m st) as [err st1].
  destruct (negb (isNil _) && negb (isEOF _)); [|reflexivity].
  destruct (finish w _ st1) as [[] st2]. reflexivity.
Qed.

Lemma quiet_setSentLast (b : bool) (s : clientStream) (n n' r r' : nat)
    (t extra : list Event) :
  filter isTermination extra = [] ->
  quiet (mkState s n r t)
        (mkState (if b then setSentLast s else s) n' r' (t ++ extra)).
Proof.
  intros H. split.
  - destruct b; repeat split.
  - cbn [trace]. rewrite filter_app, H, app_nil_r. reflexivity.
Qed.

Lemma sendMsg_body_quiet (m : Msg) (st : State) :
  quiet st (snd (sendMsg_body w m st)).
Proof.
  rewrite sendMsg_body_cases. cbv zeta.
  destruct st as [s nw nr tr0]. cbn [cs nWrites nRecvs trace].
  assert (Hl : forall b : bool,
             filter isTermination (if b then [EvTraceLog] else []) = [])
    by (intros []; reflexivity).
  assert (Hearly : quiet (mkState s nw nr tr0)
            (mkState s nw nr (tr0 ++ (if EnableTracing w && tr (attempt s)
                                      then [EvTraceLog] else [])))).
  { apply (quiet_setSentLast false). apply Hl. }
  destruct (encode w m) as [data|e]; [|exact Hearly].
  destruct (compress w data) as [compData|e]; [|exact Hearly].
  destruct (msgHeader w data compData) as [hdr payload].
  destruct (maxSendMessageSize (c s) <? Z.of_nat (List.length payload));
    [exact Hearly|].
  destruct (Write w nw); cbn [snd]; apply quiet_setSentLast;
    rewrite !filter_app, Hl;
    destruct (statsHandler (attempt s)), (channelzOn w); reflexivity.
Qed.

Lemma onceInv_sendMsg (m : Msg) (st : State) :
  onceInv st -> onceInv (snd (sendMsg w m st)).
Proof.
  intros Inv. rewrite sendMsg_deferred.
  pose proof (sendMsg_body_quiet m st) as Hq.
  destruct (sendMsg_body w m st) as [err st1]. cbn [snd] in *.
  pose proof (onceInv_quiet st st1 Inv Hq) as Inv1.
  destruct (negb (isNil _) && negb (isEOF _)); cbn [snd];
    [apply onceInv_finish|]; exact Inv1.
Qed.

End SendFacts.

(** ** Receiving *)

Section RecvFacts.
Import Codes Errors Stream StreamObs.
Local Open Scope stream_scope.
Variable w : World.

(** The lazy decompressor choice touches the attempt's decompressor
    fields and nothing else. *)
Lemma initDecomp_shape (st : State) :
  exists a',
    initDecomp w st
    = (tt, mkState (setAttempt a' (cs st)) (nWrites st) (nRecvs st) (trace st)) /\
    done a' = done (attempt (cs st)) /\
    statsHandler a' = statsHandler (attempt (cs st)) /\
    tr a' = tr (attempt (cs st)).
Proof.
  destruct st as [[o ci d sl fin a] nw nr tr0].
  unfold initDecomp, bind, get, when, modifyStream, ret.
  cbn [cs attempt nWrites nRecvs trace].
  destruct (decompSet a) eqn:Hset; cbn [negb].
  - exists a. repeat split.
  - destruct (negb (String.eqb (RecvCompress w) "")
              && negb (String.eqb (RecvCompress w) Identity)).
    + destruct (dc a) as [ty|] eqn:Hdc.
      * destruct (String.eqb ty (RecvCompress w));
          eexists; repeat split.
      * eexists; repeat split.
    + eexists; repeat split.
Qed.

Lemma initDecomp_quiet (st : State) : quiet st (snd (initDecomp w st)).
Proof.
  destruct (initDecomp_shape st) as (a' & -> & H1 & H2 & H3).
  cbn [snd]. repeat split; cbn; assumption.
Qed.

(** The outcome of the body of [recvMsg], case by case. *)
Lemma recvMsg_body_cases (st : State) :
  let s0 := cs (snd (initDecomp w st)) in
  recvMsg_body w st =
  match readerOf w st (nRecvs st) with
  | Some e =>
      (if isEOF (Some e)
       then match StatusErr w with
            | Some statusErr => Some statusErr
            | None => Some io_EOF
            end
       else Some (toRPCErr e),
       mkState s0 (nWrites st) (S (nRecvs st)) (trace st))
  | None =>
      if ServerStreams (desc (cs st)) then
        (None,
         mkState s0 (nWrites st) (S (nRecvs st)) (trace st ++ received w (cs st)))
      else
        (match readerOf w st (S (nRecvs st)) with
         | None => Some (toRPCErr protocolViolation)
         | Some e => if isEOF (Some e) then StatusErr w
                     else Some (toRPCErr e)
         end,
         mkState s0 (nWrites st) (S (S (nRecvs st)))
                 (trace st ++ received w (cs st)))
  end.
Proof.
  unfold readerOf, received. cbv zeta.
  destruct (initDecomp_shape st) as (a' & Hinit & H1 & H2 & H3).
  unfold recvMsg_body. unfold bind at 1. unfold get at 1.
  unfold bind at 1. rewrite Hinit. cbn [snd].
  destruct st as [[o ci d sl fin a] nw nr tr0].
  cbn [cs attempt nWrites nRecvs trace setAttempt c desc] in *.
  unfold bind, framedRecv, when, emit, ret.
  cbn [cs attempt nWrites nRecvs trace setAttempt c desc].
  destruct (recv w nr (dc a') (decomp a') (maxReceiveMessageSize ci)) as [e|].
  - destruct (isEOF (Some e)); [destruct (StatusErr w)|]; reflexivity.
  - destruct (EnableTracing w && tr a), (statsHandler a), (channelzOn w),
      (ServerStreams d);
      cbn [cs attempt nWrites nRecvs trace setAttempt c desc];
      repeat rewrite <- app_assoc; cbn [app]; rewrite ?app_nil_r;
      try reflexivity;
      (destruct (recv w (S nr) (dc a') (decomp a') (maxReceiveMessageSize ci))
         as [e|]; [destruct (isEOF (Some e))|]; reflexivity).
Qed.

(** [recvMsg] is its body followed by the deferred function. *)
Lemma recvMsg_deferred (st : State) :
  recvMsg w st =
  let '(err, st1) := recvMsg_body w st in
  (err, if negb (isNil err) || negb (ServerStreams (desc (cs st1)))
        then snd (finish w err st1) else st1).
Proof.
  unfold recvMsg, bind, get, when, ret.
  destruct (recvMsg_body w st) as [err st1].
  destruct (negb (isNil err) || negb (ServerStreams (desc (cs st1))));
    [|reflexivity].
  destruct (finish w err st1) as [[] st2]. reflexivity.
Qed.

Lemma received_quiet (s : clientStream) :
  filter isTermination (received w s) = [].
Proof.
  unfold received.
  destruct (EnableTracing w && tr (attempt s)), (statsHandler (attempt s)),
    (channelzOn w); reflexivity.
Qed.

Lemma recvMsg_body_quiet (st : State) :
  quiet st (snd (recvMsg_body w st)).
Proof.
  rewrite recvMsg_body_cases. cbv zeta.
  pose proof (initDecomp_quiet st) as [Hs _].
  assert (Hq : forall n extra,
             filter isTermination extra = [] ->
             quiet st (mkState (cs (snd (initDecomp w st))) (nWrites st) n
                               (trace st ++ extra))).
  { intros n extra He. split; [exact Hs|].
    cbn [trace]. rewrite filter_app, He, app_nil_r. reflexivity. }
  destruct (readerOf w st (nRecvs st)) as [e|].
  - cbn [snd]. rewrite <- (app_nil_r (trace st)). apply Hq. reflexivity.
  - destruct (ServerStreams (desc (cs st))); cbn [snd];
      apply Hq, received_quiet.
Qed.

Lemma onceInv_recvMsg (st : State) :
  onceInv st -> onceInv (snd (recvMsg w st)).
Proof.
  intros Inv. rewrite recvMsg_deferred.
  pose proof (recvMsg_body_quiet st) as Hq.
  destruct (recvMsg_body w st) as [err st1]. cbn [snd] in *.
  pose proof (onceInv_quiet st st1 Inv Hq) as Inv1.
  destruct (negb (isNil err) || negb (ServerStreams (desc (cs st1))));
    cbn [snd]; [apply onceInv_finish|]; exact Inv1.
Qed.

End RecvFacts.

(** ** The stream claims *)

Section StreamClaims.
Import Codes Errors Stream StreamObs Examples.
Variable w : World.

Lemma finish_frame (err : option error) (st : State) :
  opts (cs (snd (finish w err st))) = opts (cs st) /\
  nWrites (snd (finish w err st)) = nWrites st /\
  nRecvs (snd (finish w err st)) = nRecvs st /\
  filter isWrite (trace (snd (finish w err st))) = filter isWrite (trace st).
Proof.
  destruct (finished (cs st)) eqn:H.
  - rewrite (finish_again w err st H). repeat split.
  - rewrite (finish_first w err st H). cbn [snd cs nWrites nRecvs trace].
    repeat split.
    + unfold finishedStream. destruct (tr (attempt (cs st))); reflexivity.
    + rewrite filter_app. unfold finishActions. rewrite !filter_app.
      assert (Hmap : filter isWrite (map EvAfter (opts (cs st))) = []).
      { induction (opts (cs st)) as [|o l IH]; [reflexivity|exact IH]. }
      rewrite Hmap.
      destruct (channelzOn w), (isNil (finalError err)),
        (done (attempt (cs st))), (statsHandler (attempt (cs st))),
        (tr (attempt (cs st))); cbn; rewrite app_nil_r; reflexivity.
Qed.

Lemma runOp_opts (op : StreamOp) (st : State) :
  opts (cs (runOp w st op)) = opts (cs st).
Proof.
  destruct op as [err|m|]; cbn [runOp].
  - apply finish_frame.
  - rewrite sendMsg_deferred.
    pose proof (sendMsg_body_quiet w m st) as [(Ho & _) _].
    destruct (sendMsg_body w m st) as [err st1]. cbn [snd] in *.
    destruct (negb (isNil _) && negb (isEOF _)); cbn [snd];
      [rewrite (proj1 (finish_frame _ st1))|]; exact Ho.
  - rewrite recvMsg_deferred.
    pose proof (recvMsg_body_quiet w st) as [(Ho & _) _].
    destruct (recvMsg_body w st) as [err st1]. cbn [snd] in *.
    destruct (negb (isNil err) || negb (ServerStreams (desc (cs st1))));
      cbn [snd]; [rewrite (proj1 (finish_frame _ st1))|]; exact Ho.
Qed.

Lemma runOps_inv (ops : list StreamOp) (st : State) :
  onceInv st ->
  onceInv (runOps w ops st) /\ opts (cs (runOps w ops st)) = opts (cs st).
Proof.
  revert st; induction ops as [|op ops IH]; intros st Inv.
  - split; [exact Inv|reflexivity].
  - cbn [runOps fold_left]. fold (runOps w ops (runOp w st op)).
    assert (Inv' : onceInv (runOp w st op)).
    { destruct op as [err|m|]; cbn [runOp].
      - apply onceInv_finish; exact Inv.
      - apply onceInv_sendMsg; exact Inv.
      - apply onceInv_recvMsg; exact Inv. }
    destruct (IH _ Inv') as [I O]. split; [exact I|].
    rewrite O. apply runOp_opts.
Qed.

Lemma onceInv_new (s : clientStream) : finished s = false -> onceInv (newState s).
Proof. intros H. unfold onceInv. cbn. rewrite H. repeat split; lia. Qed.

(** C1. [finish] sets the flag and, on an unfinished stream, performs the
    termination actions (closing the transport stream, the attempt's done
    callback, the stats and trace ends, every option's after hook, the
    context cancel); a later [finish] changes nothing; and whatever a stream
    is put through, each of these actions happens at most once. *)
Theorem C1_finish_once :
  (forall err st, finished (cs (snd (finish w err st))) = true) /\
  (forall err st,
      finished (cs st) = false ->
      trace (snd (finish w err st))
      = (trace st ++ finishActions w (cs st) (finalError err))%list) /\
  (forall e1 e2 st,
      snd (finish w e2 (snd (finish w e1 st))) = snd (finish w e1 st)) /\
  (forall s ops,
      finished s = false ->
      let tr := trace (runOps w ops (newState s)) in
      (occurrences isCancel tr <= 1)%nat /\
      (occurrences isCloseStream tr <= 1)%nat /\
      (occurrences isDone tr <= 1)%nat /\
      (occurrences isStatsEnd tr <= 1)%nat /\
      (occurrences isTraceFinish tr <= 1)%nat /\
      (occurrences isAfter tr <= List.length (opts s))%nat).
Proof.
  refine (conj (finish_sets_flag w) (conj _ (conj _ _))).
  - intros err st H. rewrite (finish_first w err st H). reflexivity.
  - intros e1 e2 st. rewrite finish_idempotent. reflexivity.
  - intros s ops H. cbv zeta.
    destruct (runOps_inv ops (newState s) (onceInv_new s H)) as [Inv Ho].
    unfold onceInv in Inv. cbn [cs newState] in Ho. rewrite Ho in Inv.
    destruct Inv as (I1 & I2 & I3 & I4 & I5 & I6).
    destruct (finished (cs (runOps w ops (newState s)))); repeat split; lia.
Qed.

(** C3. On a stream that is not client-streaming [sendMsg] never returns
    the end-of-stream marker: a failed transport write ends in a nil return
    without finishing the stream, and an error that is returned stems from
    encoding, compressing or the size check. *)
Theorem C3_sendMsg_never_EOF (m : Msg) (st : State) :
  ClientStreams (desc (cs st)) = false ->
  fst (sendMsg w m st) <> Some io_EOF /\
  (forall data compData e,
      encode w m = Ok data ->
      compress w data = Ok compData ->
      Z.of_nat (List.length (snd (msgHeader w data compData)))
      <= maxSendMessageSize (c (cs st)) ->
      Write w (nWrites st) = Some e ->
      fst (sendMsg w m st) = None /\
      finished (cs (snd (sendMsg w m st))) = finished (cs st)) /\
  (forall e,
      fst (sendMsg w m st) = Some e ->
      encode w m = Err e \/
      exists data,
        encode w m = Ok data /\
        (compress w data = Err e \/
         exists compData,
           compress w data = Ok compData /\
           maxSendMessageSize (c (cs st))
           < Z.of_nat (List.length (snd (msgHeader w data compData))) /\
           e = tooLarge)).
Proof.
  intros Hcs. rewrite sendMsg_deferred.
  pose proof (sendMsg_body_quiet w m st) as [(_ & _ & Hd & _) _].
  pose proof (sendMsg_body_cases w m st) as Hb. cbv zeta in Hb.
  destruct (sendMsg_body w m st) as [err st1]. cbn [snd] in Hd.
  rewrite Hd, Hcs. cbn [negb]. rewrite andb_true_r.
  refine (conj _ (conj _ _)).
  - cbn [fst]. destruct err as [[]|]; cbn; discriminate.
  - intros data compData e He Hc Hsize Hw.
    rewrite He, Hc in Hb.
    destruct (msgHeader w data compData) as [hdr payload]. cbn [snd] in Hsize.
    destruct (Z.ltb_spec (maxSendMessageSize (c (cs st)))
                (Z.of_nat (List.length payload))); [lia|].
    rewrite Hw in Hb. injection Hb as -> ->. cbn [isEOF isNil negb andb fst snd cs].
    rewrite Hcs. split; reflexivity.
  - intros e Hret. cbn [fst] in Hret.
    destruct (encode w m) as [data|e0].
    + right. exists data. split; [reflexivity|].
      destruct (compress w data) as [compData|e0].
      * right. exists compData. split; [reflexivity|].
        destruct (msgHeader w data compData) as [hdr payload]. cbn [snd].
        destruct (Z.ltb_spec (maxSendMessageSize (c (cs st)))
                    (Z.of_nat (List.length payload))) as [Hlt|Hle].
        -- injection Hb as -> _. cbn in Hret. injection Hret as <-.
           split; [exact Hlt|reflexivity].
        -- destruct (Write w (nWrites st)); injection Hb as -> _;
             cbn in Hret; discriminate.
      * left. injection Hb as -> _.
        destruct e0; cbn in Hret; congruence.
    + left. injection Hb as -> _.
      destruct e0; cbn in Hret; congruence.
Qed.

(** C5. A message whose framed payload is longer than
    [maxSendMessageSize] makes [sendMsg] return a ResourceExhausted status,
    and no transport write happens for it. *)
Theorem C5_sendMsg_too_large (m : Msg) (st : State) (data : bytes)
    (compData : option bytes) :
  encode w m = Ok data ->
  compress w data = Ok compData ->
  maxSendMessageSize (c (cs st))
  < Z.of_nat (List.length (snd (msgHeader w data compData))) ->
  (exists msg, fst (sendMsg w m st) = Some (StatusError ResourceExhausted msg)) /\
  nWrites (snd (sendMsg w m st)) = nWrites st /\
  filter isWrite (trace (snd (sendMsg w m st))) = filter isWrite (trace st).
Proof.
  intros He Hc Hsize. rewrite sendMsg_deferred.
  pose proof (sendMsg_body_cases w m st) as Hb. cbv zeta in Hb.
  rewrite He, Hc in Hb.
  destruct (msgHeader w data compData) as [hdr payload]. cbn [snd] in Hsize.
  destruct (Z.ltb_spec (maxSendMessageSize (c (cs st)))
              (Z.of_nat (List.length payload))); [|lia].
  rewrite Hb. cbn [isEOF isNil tooLarge negb andb fst snd].
  destruct (finish_frame (Some tooLarge)
              (mkState (cs st) (nWrites st) (nRecvs st)
                 (trace st ++ (if EnableTracing w && tr (attempt (cs st))
                               then [EvTraceLog] else []))))
    as (_ & Hn & _ & Hf).
  refine (conj (ex_intro _ _ eq_refl) (conj Hn (eq_trans Hf _))).
  cbn [trace]. rewrite filter_app.
  destruct (EnableTracing w && tr (attempt (cs st))); cbn;
    rewrite app_nil_r; reflexivity.
Qed.

(** C4. On a stream that is not server-streaming, after a first message
    [recvMsg] reads a second frame and finishes the stream: another message
    makes it return what [toRPCErr] makes of the protocol-violation error,
    an Internal status; the end of the stream makes it return the stream's
    final status error, nil for an OK status. *)
Theorem C4_recvMsg_second_read (st : State) :
  ServerStreams (desc (cs st)) = false ->
  readerOf w st (nRecvs st) = None ->
  nRecvs (snd (recvMsg w st)) = S (S (nRecvs st)) /\
  finished (cs (snd (recvMsg w st))) = true /\
  (readerOf w st (S (nRecvs st)) = None ->
   fst (recvMsg w st) = Some (toRPCErr protocolViolation) /\
   codeOf (toRPCErr protocolViolation) = Some Internal) /\
  (readerOf w st (S (nRecvs st)) = Some io_EOF ->
   fst (recvMsg w st) = StatusErr w).
Proof.
  intros Hss H1. rewrite recvMsg_deferred.
  pose proof (recvMsg_body_quiet w st) as [(_ & _ & Hd & _) _].
  pose proof (recvMsg_body_cases w st) as Hb. cbv zeta in Hb.
  rewrite H1, Hss in Hb.
  destruct (recvMsg_body w st) as [err st1]. cbn [snd] in Hd.
  rewrite Hd, Hss. cbn [negb]. rewrite orb_true_r. cbn [fst snd].
  injection Hb as Herr Hst.
  destruct (finish_frame err st1) as (_ & _ & Hn & _).
  refine (conj _ (conj (finish_sets_flag w err st1) (conj _ _))).
  - rewrite Hn, Hst. reflexivity.
  - intros H2. rewrite H2 in Herr. split; [exact Herr|reflexivity].
  - intros H2. rewrite H2 in Herr. exact Herr.
Qed.

End StreamClaims.

(** ** The unary call *)

Section InvokeClaims.
Import Errors Stream StreamObs Call.

Lemma finish_callInfo (w : World) (err : option error) (st : State) :
  c (cs (snd (finish w err st))) = c (cs st).
Proof.
  destruct (finished (cs st)) eqn:H.
  - rewrite (finish_again w err st H). reflexivity.
  - rewrite (finish_first w err st H). cbn [snd cs]. unfold finishedStream.
    destruct (tr (attempt (cs st))); reflexivity.
Qed.

Lemma sendMsg_callInfo (w : World) (m : Msg) (st : State) :
  c (cs (snd (sendMsg w m st))) = c (cs st).
Proof.
  rewrite sendMsg_deferred.
  pose proof (sendMsg_body_quiet w m st) as [(_ & Hc & _) _].
  destruct (sendMsg_body w m st) as [err st1]. cbn [snd] in *.
  destruct (negb (isNil _) && negb (isEOF _)); cbn [snd];
    [rewrite finish_callInfo|]; exact Hc.
Qed.

Lemma recvMsg_callInfo (w : World) (st : State) :
  c (cs (snd (recvMsg w st))) = c (cs st).
Proof.
  rewrite recvMsg_deferred.
  pose proof (recvMsg_body_quiet w st) as [(_ & Hc & _) _].
  destruct (recvMsg_body w st) as [err st1]. cbn [snd] in *.
  destruct (negb (isNil err) || negb (ServerStreams (desc (cs st1))));
    cbn [snd]; [rewrite finish_callInfo|]; exact Hc.
Qed.

Variable newClientStream : Dialler.
Variable req : Msg.

(** One turn of the loop, in terms of how the attempt ends. *)
Lemma invoke_loop_step (fuel calls : nat) (firstAttempt : bool) :
  invoke_loop newClientStream req (S fuel) calls firstAttempt =
  match newClientStream calls with
  | Err e => Some (Some e, S calls)
  | Ok x =>
      match attemptError x req with
      | None => Some (None, S calls)
      | Some e =>
          if retryable x req && firstAttempt
          then invoke_loop newClientStream req fuel (S calls) false
          else Some (Some e, S calls)
      end
  end.
Proof.
  cbn [invoke_loop]. destruct (newClientStream calls) as [x|e]; [|reflexivity].
  unfold retryable, attemptError, SendMsg, RecvMsg.
  pose proof (sendMsg_callInfo (world x) req
                (newState (buildStream unaryStreamDesc x))) as Hc1.
  destruct (sendMsg (world x) req (newState (buildStream unaryStreamDesc x)))
    as [err st1].
  cbn [snd cs newState buildStream c] in Hc1.
  destruct err as [e|].
  - rewrite Hc1. reflexivity.
  - pose proof (recvMsg_callInfo (world x) st1) as Hc2.
    destruct (recvMsg (world x) st1) as [err st2]. cbn [fst snd] in *.
    destruct err as [e|]; [|reflexivity].
    rewrite Hc2, Hc1. reflexivity.
Qed.

(** Without a first attempt to fall back on, the loop stops after one
    turn. *)
Lemma invoke_loop_last (fuel calls : nat) :
  invoke_loop newClientStream req (S fuel) calls false =
  Some (match newClientStream calls with
        | Err e => Some e
        | Ok x => attemptError x req
        end, S calls).
Proof.
  rewrite invoke_loop_step.
  destruct (newClientStream calls) as [x|e]; [|reflexivity].
  destruct (attemptError x req); [rewrite andb_false_r|]; reflexivity.
Qed.

(** C2. [invoke] returns after at most two calls of [newClientStream],
    whatever the streams do: two turns of the loop are always enough; a
    second stream is made exactly when the first attempt ends in an error
    while the call is not fail-fast and the transport reports the request
    as unprocessed; and what the second attempt ends with, error or not, is
    what the caller gets. *)
Theorem C2_invoke_at_most_two :
  exists r n,
    invoke newClientStream req 2 = Some (r, n) /\
    (1 <= n <= 2)%nat /\
    (forall fuel, (2 <= fuel)%nat -> invoke newClientStream req fuel = Some (r, n)) /\
    (n = 2%nat <->
     exists x e,
       newClientStream 0%nat = Ok x /\ attemptError x req = Some e /\
       failFast (info x) = false /\ Unprocessed (world x) = true) /\
    (n = 2%nat ->
     r = match newClientStream 1%nat with
         | Err e => Some e
         | Ok x => attemptError x req
         end).
Proof.
  assert (Hfuel : forall fuel, (2 <= fuel)%nat ->
             invoke newClientStream req fuel = invoke newClientStream req 2).
  { intros [|[|fuel]] H; [lia|lia|]. unfold invoke.
    rewrite (invoke_loop_step (S fuel)), (invoke_loop_step 1).
    destruct (newClientStream 0%nat) as [x|e]; [|reflexivity].
    destruct (attemptError x req); [|reflexivity].
    destruct (retryable x req && true); [|reflexivity].
    rewrite !invoke_loop_last. reflexivity. }
  unfold invoke in *. rewrite invoke_loop_step.
  destruct (newClientStream 0%nat) as [x|e] eqn:Hx.
  - destruct (attemptError x req) as [e|] eqn:Ha.
    + destruct (retryable x req) eqn:Hr; cbn [andb].
      * rewrite invoke_loop_last.
        eexists _, 2%nat. refine (conj eq_refl (conj _ (conj _ (conj _ _)))).
        -- lia.
        -- intros fuel Hf. rewrite (Hfuel fuel Hf), invoke_loop_step, Hx, Ha, Hr.
           cbn [andb]. apply invoke_loop_last.
        -- split; [intros _|reflexivity]. exists x, e.
           unfold retryable in Hr. rewrite Ha in Hr.
           apply andb_true_iff in Hr as [Hff Hu].
           apply negb_true_iff in Hff. repeat split; assumption.
        -- reflexivity.
      * eexists _, 1%nat. refine (conj eq_refl (conj _ (conj _ (conj _ _)))).
        -- lia.
        -- intros fuel Hf. rewrite (Hfuel fuel Hf), invoke_loop_step, Hx, Ha, Hr.
           reflexivity.
        -- split; [discriminate|]. intros (x' & e' & Hx' & Ha' & Hff & Hu).
           injection Hx' as <-. unfold retryable in Hr.
           rewrite Ha, Hff, Hu in Hr. discriminate.
        -- discriminate.
    + eexists _, 1%nat. refine (conj eq_refl (conj _ (conj _ (conj _ _)))).
      * lia.
      * intros fuel Hf. rewrite (Hfuel fuel Hf), invoke_loop_step, Hx, Ha.
        reflexivity.
      * split; [discriminate|]. intros (x' & e' & Hx' & Ha' & _).
        injection Hx' as <-. congruence.
      * discriminate.
  - eexists _, 1%nat. refine (conj eq_refl (conj _ (conj _ (conj _ _)))).
    + lia.
    + intros fuel Hf. rewrite (Hfuel fuel Hf), invoke_loop_step, Hx.
      reflexivity.
    + split; [discriminate|]. intros (x' & e' & Hx' & _). discriminate.
    + discriminate.
Qed.

End InvokeClaims.

(** ** The resolver wrapper *)

Section ResolverClaims.
Import Resolver.

Lemma publish_oneSlot {A} (ch : chan A) (v : A) :
  oneSlot ch -> send (drain ch) v = Some (mkChan 1 [v]).
Proof.
  intros [Hc Hl]. destruct ch as [n b]. cbn [cap buf] in *. subst n.
  unfold drain, send. cbn [buf cap].
  destruct b as [|x [|y b]]; cbn in *; [reflexivity|reflexivity|lia].
Qed.

Lemma oneSlot_single {A} (v : A) : oneSlot (mkChan 1 [v]).
Proof. split; cbn; lia. Qed.

Lemma slot_oneSlot {A} (busy : bool) (ch : chan A) :
  slot busy ch -> oneSlot ch.
Proof.
  intros [Hc Hb]. split; [exact Hc|].
  destruct busy; [rewrite Hb; cbn; lia|exact Hb].
Qed.

Lemma slot_drain {A} (ch : chan A) : slot false ch -> slot true (drain ch).
Proof.
  intros [Hc Hl]. destruct ch as [n b]. cbn [cap buf] in *. unfold drain.
  cbn [buf cap]. destruct b as [|x [|y b]]; cbn in *; (split; [exact Hc|]);
    [reflexivity|reflexivity|lia].
Qed.

Lemma slot_send {A} (ch : chan A) (v : A) :
  slot true ch -> send ch v = Some (mkChan 1 [v]).
Proof.
  intros [Hc Hb]. destruct ch as [n b]. cbn [cap buf] in *. subst n b.
  reflexivity.
Qed.

Lemma slot_watcherTake {A} (busy : bool) (ch : chan A) :
  slot busy ch -> slot busy (watcherTake ch).
Proof.
  intros [Hc Hb]. destruct ch as [n b]. cbn [cap buf] in *.
  unfold watcherTake, receive. cbn [buf cap].
  destruct b as [|x b]; [split; assumption|].
  split; [exact Hc|]. destruct busy; [discriminate Hb|cbn in *; lia].
Qed.

(** One statement of a schedule without overlap: it does not wait, keeps
    the channels as a publish expects them, and a send leaves exactly its
    value. *)
Lemma half_slot (ccr : ccResolverWrapper) (ab sb : bool) (h : Half)
    (rest : list Half) :
  slot ab (addrCh ccr) -> slot sb (scCh ccr) ->
  sequentialFrom ab sb (h :: rest) = true ->
  exists ccr' ab' sb',
    half ccr h = Some ccr' /\
    slot ab' (addrCh ccr') /\ slot sb' (scCh ccr') /\
    sequentialFrom ab' sb' rest = true /\
    (forall addrs, h = AddrSend addrs -> addrCh ccr' = mkChan 1 [addrs]) /\
    (forall sc, h = ScSend sc -> scCh ccr' = mkChan 1 [sc]).
Proof.
  intros Ha Hs Hseq. destruct h as [|addrs| |sc| |]; cbn [sequentialFrom] in Hseq;
    cbn [half].
  - apply andb_prop in Hseq as [Hb Hseq]. destruct ab; [discriminate Hb|].
    exists (mkWrapper (drain (addrCh ccr)) (scCh ccr)), true, sb.
    refine (conj eq_refl (conj (slot_drain _ Ha) (conj Hs (conj Hseq (conj _ _)))));
      intros v E; discriminate E.
  - apply andb_prop in Hseq as [Hb Hseq]. subst ab.
    rewrite (slot_send _ addrs Ha).
    exists (mkWrapper (mkChan 1 [addrs]) (scCh ccr)), false, sb.
    refine (conj eq_refl (conj _ (conj Hs (conj Hseq (conj _ _))))).
    + split; cbn; lia.
    + intros v E. injection E as <-. reflexivity.
    + intros v E; discriminate E.
  - apply andb_prop in Hseq as [Hb Hseq]. destruct sb; [discriminate Hb|].
    exists (mkWrapper (addrCh ccr) (drain (scCh ccr))), ab, true.
    refine (conj eq_refl (conj Ha (conj (slot_drain _ Hs) (conj Hseq (conj _ _)))));
      intros v E; discriminate E.
  - apply andb_prop in Hseq as [Hb Hseq]. subst sb.
    rewrite (slot_send _ sc Hs).
    exists (mkWrapper (addrCh ccr) (mkChan 1 [sc])), ab, false.
    refine (conj eq_refl (conj Ha (conj _ (conj Hseq (conj _ _))))).
    + split; cbn; lia.
    + intros v E; discriminate E.
    + intros v E. injection E as <-. reflexivity.
  - exists (mkWrapper (watcherTake (addrCh ccr)) (scCh ccr)), ab, sb.
    refine (conj eq_refl (conj (slot_watcherTake ab _ Ha)
                               (conj Hs (conj Hseq (conj _ _)))));
      intros v E; discriminate E.
  - exists (mkWrapper (addrCh ccr) (watcherTake (scCh ccr))), ab, sb.
    refine (conj eq_refl (conj Ha (conj (slot_watcherTake sb _ Hs)
                                        (conj Hseq (conj _ _)))));
      intros v E; discriminate E.
Qed.

(** A schedule without overlap runs to its end, and when it ends in a
    send the channel holds exactly the value sent. *)
Lemma halves_sequential (hs : list Half) :
  forall (ccr : ccResolverWrapper) (ab sb : bool),
    slot ab (addrCh ccr) -> slot sb (scCh ccr) ->
    sequentialFrom ab sb hs = true ->
    exists ccr',
      halves ccr hs = Some ccr' /\
      oneSlot (addrCh ccr') /\ oneSlot (scCh ccr') /\
      (forall pre addrs, hs = (pre ++ [AddrSend addrs])%list ->
                         addrCh ccr' = mkChan 1 [addrs]) /\
      (forall pre sc, hs = (pre ++ [ScSend sc])%list ->
                      scCh ccr' = mkChan 1 [sc]).
Proof.
  induction hs as [|h rest IH]; intros ccr ab sb Ha Hs Hseq.
  - exists ccr. cbn [halves].
    refine (conj eq_refl (conj (slot_oneSlot _ _ Ha)
                               (conj (slot_oneSlot _ _ Hs) (conj _ _))));
      intros [|p pre] v E; discriminate E.
  - destruct (half_slot ccr ab sb h rest Ha Hs Hseq)
      as (ccr1 & ab1 & sb1 & Hh & Ha1 & Hs1 & Hseq1 & Hlast_a & Hlast_s).
    destruct (IH ccr1 ab1 sb1 Ha1 Hs1 Hseq1) as (ccr' & Hr & Hoa & Hos & Hla & Hls).
    exists ccr'. cbn [halves]. rewrite Hh.
    refine (conj Hr (conj Hoa (conj Hos (conj _ _)))).
    + intros [|p pre] addrs E; cbn [app] in E; injection E as E1 E2.
      * subst rest. cbn [halves] in Hr. injection Hr as <-.
        apply Hlast_a, E1.
      * apply (Hla pre addrs E2).
    + intros [|p pre] sc E; cbn [app] in E; injection E as E1 E2.
      * subst rest. cbn [halves] in Hr. injection Hr as <-.
        apply Hlast_s, E1.
      * apply (Hls pre sc E2).
Qed.

(** What comes first in a schedule without overlap is one. *)
Lemma sequentialFrom_prefix (pre post : list Half) :
  forall ab sb,
    sequentialFrom ab sb (pre ++ post) = true -> sequentialFrom ab sb pre = true.
Proof.
  induction pre as [|h pre IH]; intros ab sb H; [reflexivity|].
  destruct h; cbn [app sequentialFrom] in *;
    try (apply andb_prop in H as [H1 H2]; rewrite H1; cbn [andb]);
    eapply IH; eassumption.
Qed.

Lemma slot_new_addr : slot false (addrCh newCCResolverWrapper).
Proof. split; cbn; lia. Qed.

Lemma slot_new_sc : slot false (scCh newCCResolverWrapper).
Proof. split; cbn; lia. Qed.

(** C9, amended. In every schedule of the statements of [NewAddress],
    [NewServiceConfig] and the watcher in which the calls of one publish
    operation do not overlap one another, no send has to wait, both
    channels hold at most one value, and the send of each call leaves
    exactly the published value in its channel; a call is its drain
    followed by its send. *)
Theorem C9_publish_keeps_latest (hs : list Half) :
  sequential hs = true ->
  (exists ccr,
      halves newCCResolverWrapper hs = Some ccr /\
      (List.length (buf (addrCh ccr)) <= 1)%nat /\
      (List.length (buf (scCh ccr)) <= 1)%nat) /\
  (forall pre addrs post,
      hs = (pre ++ AddrSend addrs :: post)%list ->
      exists ccr,
        halves newCCResolverWrapper (pre ++ [AddrSend addrs]) = Some ccr /\
        addrCh ccr = mkChan 1 [addrs]) /\
  (forall pre sc post,
      hs = (pre ++ ScSend sc :: post)%list ->
      exists ccr,
        halves newCCResolverWrapper (pre ++ [ScSend sc]) = Some ccr /\
        scCh ccr = mkChan 1 [sc]) /\
  (forall c addrs, NewAddress c addrs = halves c [AddrDrain; AddrSend addrs]) /\
  (forall c sc, NewServiceConfig c sc = halves c [ScDrain; ScSend sc]).
Proof.
  intros Hseq. unfold sequential in Hseq.
  refine (conj _ (conj _ (conj _ (conj _ _)))).
  - destruct (halves_sequential hs newCCResolverWrapper false false
                slot_new_addr slot_new_sc Hseq) as (ccr & Hr & Ha & Hs & _).
    exists ccr. exact (conj Hr (conj (proj2 Ha) (proj2 Hs))).
  - intros pre addrs post E.
    assert (Hp : sequentialFrom false false (pre ++ [AddrSend addrs]) = true).
    { apply (sequentialFrom_prefix _ post). rewrite <- app_assoc.
      cbn [app]. rewrite <- E. exact Hseq. }
    destruct (halves_sequential _ newCCResolverWrapper false false
                slot_new_addr slot_new_sc Hp) as (ccr & Hr & _ & _ & Hl & _).
    exists ccr. exact (conj Hr (Hl pre addrs eq_refl)).
  - intros pre sc post E.
    assert (Hp : sequentialFrom false false (pre ++ [ScSend sc]) = true).
    { apply (sequentialFrom_prefix _ post). rewrite <- app_assoc.
      cbn [app]. rewrite <- E. exact Hseq. }
    destruct (halves_sequential _ newCCResolverWrapper false false
                slot_new_addr slot_new_sc Hp) as (ccr & Hr & _ & _ & _ & Hl).
    exists ccr. exact (conj Hr (Hl pre sc eq_refl)).
  - intros c addrs. unfold NewAddress. cbn [halves half addrCh scCh].
    destruct (send (drain (addrCh c)) addrs); reflexivity.
  - intros c sc. unfold NewServiceConfig. cbn [halves half addrCh scCh].
    destruct (send (drain (scCh c)) sc); reflexivity.
Qed.

End ResolverClaims.

(** C9, as stated, fails: when two calls of [NewAddress] overlap, both
    drain before either sends, and the second send finds the buffer full
    and has to wait. *)
Lemma C9_overlapping_publish_counterexample :
  Resolver.halves Resolver.newCCResolverWrapper
    [Resolver.AddrDrain; Resolver.AddrDrain; Resolver.AddrSend ["10.0.0.1:443"]]
  = Some (Resolver.mkWrapper (Resolver.mkChan 1 [["10.0.0.1:443"]])
                             (Resolver.mkChan 1 [])) /\
  Resolver.half
    (Resolver.mkWrapper (Resolver.mkChan 1 [["10.0.0.1:443"]]) (Resolver.mkChan 1 []))
    (Resolver.AddrSend ["10.0.0.2:443"])
  = None /\
  Resolver.halves Resolver.newCCResolverWrapper
    [Resolver.AddrDrain; Resolver.AddrDrain;
     Resolver.AddrSend ["10.0.0.1:443"]; Resolver.AddrSend ["10.0.0.2:443"]]
  = None.
Proof. repeat split. Qed.

(** ** The claims at work *)

Section Witnesses.
Import GoStrings Target Codes Errors Stream StreamObs Call Resolver Examples.

(** A stream put through a whole unary exchange and one more [finish]
    cancels its context once. *)
Lemma C1_finish_once_witness :
  (occurrences isCancel
     (trace (runOps oneReply [OpSendMsg "ping"; OpRecvMsg; OpFinish None]
               (newState unaryStream))) <= 1)%nat.
Proof.
  destruct (C1_finish_once oneReply) as (_ & _ & _ & H).
  apply (H unaryStream [OpSendMsg "ping"; OpRecvMsg; OpFinish None]).
  reflexivity.
Defined.

(** A refused first attempt is retried once and the reply of the second
    attempt is what the caller gets. *)
Lemma C2_invoke_at_most_two_witness :
  exists r n, invoke retryOnce "ping" 5 = Some (r, n) /\ (n <= 2)%nat.
Proof.
  destruct (C2_invoke_at_most_two retryOnce "ping") as (r & n & _ & Hn & Hf & _).
  exists r, n. split; [apply Hf; lia|lia].
Defined.

(** A failed write on a unary stream: [sendMsg] returns nil. *)
Lemma C3_sendMsg_never_EOF_witness :
  fst (sendMsg refused "ping" (newState unaryStream)) = None.
Proof.
  destruct (C3_sendMsg_never_EOF refused "ping" (newState unaryStream) eq_refl)
    as (_ & H & _).
  apply (H (list_byte_of_string "ping") None (TransportError "connection refused"));
    [reflexivity|reflexivity|vm_compute; discriminate|reflexivity].
Defined.

(** One reply and an OK status: [recvMsg] returns nil.  Two replies: an
    Internal status. *)
Lemma C4_recvMsg_second_read_witness :
  fst (recvMsg oneReply (newState unaryStream)) = None /\
  fst (recvMsg talkative (newState unaryStream))
  = Some (StatusError Codes.Internal extraMessage).
Proof.
  split.
  - destruct (C4_recvMsg_second_read oneReply (newState unaryStream)
                eq_refl eq_refl) as (_ & _ & _ & H).
    apply H. reflexivity.
  - destruct (C4_recvMsg_second_read talkative (newState unaryStream)
                eq_refl eq_refl) as (_ & _ & H & _).
    destruct (H eq_refl) as [H1 _]. exact H1.
Defined.

(** A limit of 16 bytes and a message of 32: nothing is written. *)
Lemma C5_sendMsg_too_large_witness :
  nWrites (snd (sendMsg talkative "0123456789abcdef0123456789abcdef"
                  (newState unaryStream))) = 0%nat.
Proof.
  destruct (C5_sendMsg_too_large talkative "0123456789abcdef0123456789abcdef"
              (newState unaryStream)
              (list_byte_of_string "0123456789abcdef0123456789abcdef") None
              eq_refl eq_refl) as (_ & H & _).
  - vm_compute. reflexivity.
  - exact H.
Defined.

(** A DNS target and a bare host. *)
Lemma C8_parseTarget_shapes_witness :
  parseTarget "dns://resolver.example/svc.example:443"
  = mkTarget "dns" "resolver.example" "svc.example:443" /\
  parseTarget "svc.example:443" = mkTarget "" "" "svc.example:443".
Proof.
  destruct C8_parseTarget_shapes as (H1 & _ & H3 & _). split.
  - apply (H3 "dns" "resolver.example" "svc.example:443"); reflexivity.
  - apply H1; reflexivity.
Defined.

(** Two calls of [NewAddress] one after the other, a call of
    [NewServiceConfig] and the watcher in between: the second address list
    replaces the first. *)
Lemma C9_publish_keeps_latest_witness :
  exists ccr,
    halves newCCResolverWrapper
      ([AddrDrain; ScDrain; AddrSend ["10.0.0.1:443"]; WatcherSc;
        ScSend "{}"; AddrDrain] ++ [AddrSend ["10.0.0.2:443"]])
    = Some ccr /\
    addrCh ccr = mkChan 1 [["10.0.0.2:443"]].
Proof.
  destruct (C9_publish_keeps_latest
              [AddrDrain; ScDrain; AddrSend ["10.0.0.1:443"]; WatcherSc;
               ScSend "{}"; AddrDrain; AddrSend ["10.0.0.2:443"]] eq_refl)
    as (_ & H & _).
  apply (H [AddrDrain; ScDrain; AddrSend ["10.0.0.1:443"]; WatcherSc;
            ScSend "{}"; AddrDrain] ["10.0.0.2:443"] []).
  reflexivity.
Defined.

End Witnesses.

(** ** Registries *)

Section RegistryFacts.
Import Registry.

Lemma find_snoc {A} (f : A -> bool) (l : list A) (a : A) :
  find f (l ++ [a])
  = match find f l with
    | Some x => Some x
    | None => if f a then Some a else None
    end.
Proof.
  induction l as [|x l IH]; cbn [app find]; [reflexivity|].
  destruct (f x); [reflexivity|exact IH].
Qed.

(** After a row of writes a key holds the last value written under it. *)
Lemma puts_lookup {A} (key : A -> string) (l : list A) (m : registry A)
    (k : string) :
  fold_left (fun m a => put m (key a) a) l m k
  = match find (fun a => String.eqb k (key a)) (rev l) with
    | Some a => Some a
    | None => m k
    end.
Proof.
  revert m; induction l as [|a l IH]; intros m; [reflexivity|].
  cbn [fold_left rev]. rewrite IH, find_snoc.
  destruct (find (fun a0 => String.eqb k (key a0)) (rev l)); [reflexivity|].
  unfold put. destruct (String.eqb k (key a)); reflexivity.
Qed.

End RegistryFacts.

Section EncodingFacts.
Import Registry Encoding.

(** X1. Of the compressors registered under one name the one registered
    last is the one [GetCompressor] finds; a name nobody registered keeps
    what it had. *)
Theorem X1_compressor_last_wins (cs : list Compressor)
    (m : registry Compressor) (name : string) :
  GetCompressor (fold_left RegisterCompressor cs m) name
  = match find (fun c => String.eqb name (Name c)) (rev cs) with
    | Some c => Some c
    | None => GetCompressor m name
    end.
Proof. unfold GetCompressor. apply (puts_lookup Name cs m name). Qed.

Variable ToLower : string -> string.

(** X2. [RegisterCodec] panics exactly on a nil codec or a codec whose
    lowercased name is empty; otherwise the codec is found under its
    lowercased name and every other content-subtype finds what it found
    before. *)
Theorem X2_RegisterCodec (m : registry Codec) (codec : option Codec) :
  match RegisterCodec ToLower m codec with
  | Err p =>
      (codec = None /\ p = NilCodec) \/
      (exists cd, codec = Some cd /\ ToLower (Name cd) = "" /\ p = EmptyName)
  | Ok m' =>
      exists cd,
        codec = Some cd /\ ToLower (Name cd) <> "" /\
        GetCodec m' (ToLower (Name cd)) = Some cd /\
        forall k, k <> ToLower (Name cd) -> GetCodec m' k = GetCodec m k
  end.
Proof.
  unfold RegisterCodec, GetCodec. destruct codec as [cd|].
  - destruct (String.eqb_spec (ToLower (Name cd)) "") as [E|N].
    + right. exists cd. repeat split. exact E.
    + exists cd. unfold put. rewrite String.eqb_refl.
      refine (conj eq_refl (conj N (conj eq_refl _))).
      intros k Hk. destruct (String.eqb_spec k (ToLower (Name cd)));
        [contradiction|reflexivity].
  - left. split; reflexivity.
Qed.

Lemma RegisterCodecs_keys (codecs : list (option Codec)) (m m' : registry Codec) :
  RegisterCodecs ToLower m codecs = Ok m' ->
  forall k cd,
    GetCodec m' k = Some cd ->
    GetCodec m k = Some cd \/
    (k = ToLower (Name cd) /\ k <> "" /\ In (Some cd) codecs).
Proof.
  revert m; induction codecs as [|c codecs IH]; intros m H k cd Hk.
  - injection H as <-. left; exact Hk.
  - cbn [RegisterCodecs] in H.
    destruct (RegisterCodec ToLower m c) as [m1|p] eqn:E; [|discriminate].
    destruct (IH m1 H k cd Hk) as [Hm1|(K1 & K2 & K3)].
    + unfold RegisterCodec in E. destruct c as [c0|]; [|discriminate].
      destruct (String.eqb_spec (ToLower (Name c0)) "") as [|N]; [discriminate|].
      injection E as <-. unfold GetCodec, put in Hm1.
      destruct (String.eqb_spec k (ToLower (Name c0))) as [->|].
      * injection Hm1 as ->. right. repeat split; [exact N|left; reflexivity].
      * left. exact Hm1.
    + right. repeat split; [exact K1|exact K2|right; exact K3].
Qed.

(** X3. In a registry filled by [RegisterCodec] alone every codec is
    found only under its own lowercased name, and the empty
    content-subtype finds none. *)
Theorem X3_codec_keys_lowercase (codecs : list (option Codec))
    (m : registry Codec) :
  RegisterCodecs ToLower empty codecs = Ok m ->
  GetCodec m "" = None /\
  forall k cd,
    GetCodec m k = Some cd ->
    k = ToLower (Name cd) /\ In (Some cd) codecs.
Proof.
  intros H.
  assert (K : forall k cd, GetCodec m k = Some cd ->
                k = ToLower (Name cd) /\ k <> "" /\ In (Some cd) codecs).
  { intros k cd Hk.
    destruct (RegisterCodecs_keys codecs empty m H k cd Hk) as [E|E];
      [discriminate E|exact E]. }
  split.
  - destruct (GetCodec m "") as [cd|] eqn:E; [|reflexivity].
    destruct (K "" cd E) as (_ & N & _). contradiction.
  - intros k cd Hk. destruct (K k cd Hk) as (A & _ & B). split; assumption.
Qed.

End EncodingFacts.

Section BalancerFacts.
Import Registry Balancer.
Variable ToLower : string -> string.

(** X4. [Get] finds builders without regard to case: it returns the
    builder registered last among those whose lowercased name is the
    lowercased name asked for, and what the map held before when there is
    none. *)
Theorem X4_balancer_Get_ignores_case (bs : list Builder)
    (m : registry Builder) (name : string) :
  Get ToLower (fold_left (Register ToLower) bs m) name
  = match find (fun b => String.eqb (ToLower name) (ToLower (Name b))) (rev bs) with
    | Some b => Some b
    | None => Get ToLower m name
    end.
Proof.
  unfold Get.
  change (fold_left (Register ToLower) bs m)
    with (fold_left (fun m b => put m (ToLower (Name b)) b) bs m).
  rewrite (puts_lookup (fun b => ToLower (Name b)) bs m (ToLower name)).
  match goal with
  | |- match match ?found with _ => _ end with _ => _ end = _ =>
      change (match match found with Some a => Some a | None => m (ToLower name) end
              with Some b => Some b | None => None end
              = match found with
                | Some b => Some b
                | None => match m (ToLower name) with
                          | Some b => Some b
                          | None => None
                          end
                end);
      destruct found
  end; reflexivity.
Qed.

End BalancerFacts.

(** ** The method table *)

Section ConfigFacts.
Import GoStrings Registry ConfigJSON.

Lemma generatePath_Some (j : jsonName) (svc : string) :
  Service j = Some svc ->
  generatePath j = ("/" ++ svc ++ "/" ++ methodOf j, true).
Proof.
  intros H. unfold generatePath, methodOf. rewrite H.
  destruct (Method j) as [m|]; [|reflexivity].
  f_equal. cbn [append]. rewrite append_assoc. reflexivity.
Qed.

(** X5. A name yields a path exactly when it has a service, and without
    one the empty path comes with [false]; between names whose services
    contain no slash the path identifies the service and the method, an
    absent method counting as the empty one. *)
Theorem X5_generatePath_identifies (j1 j2 : jsonName) :
  (snd (generatePath j1) = true <-> Service j1 <> None) /\
  (Service j1 = None -> generatePath j1 = ("", false)) /\
  (forall svc1 svc2,
      Service j1 = Some svc1 -> Service j2 = Some svc2 ->
      Contains svc1 "/" = false -> Contains svc2 "/" = false ->
      (fst (generatePath j1) = fst (generatePath j2) <->
       svc1 = svc2 /\ methodOf j1 = methodOf j2)).
Proof.
  refine (conj _ (conj _ _)).
  - unfold generatePath. destruct (Service j1) as [svc|]; cbn [snd].
    + split; [discriminate|reflexivity].
    + split; [discriminate|]. intros H; contradiction H; reflexivity.
  - intros H. unfold generatePath. rewrite H. reflexivity.
  - intros svc1 svc2 H1 H2 C1 C2.
    rewrite (generatePath_Some j1 svc1 H1), (generatePath_Some j2 svc2 H2).
    cbn [fst snd]. split.
    + intros E. cbn [append] in E. injection E as E.
      pose proof (Cut_app_char "/" svc1 (methodOf j1) C1) as K1.
      pose proof (Cut_app_char "/" svc2 (methodOf j2) C2) as K2.
      cbn [append] in K1, K2. rewrite E in K1. rewrite K1 in K2.
      injection K2 as -> ->. split; reflexivity.
    + intros [-> ->]. reflexivity.
Qed.

Lemma generatePath_None (j : jsonName) :
  Service j = None -> generatePath j = ("", false).
Proof. intros H. unfold generatePath. rewrite H. reflexivity. Qed.

Variable intBits : Z.

Lemma addNames_lookup (names : list jsonName) (mc : ServiceConfig.MethodConfig)
    (methods : registry ServiceConfig.MethodConfig) (p : string) :
  addNames names mc methods p
  = if existsb (fun n => snd (generatePath n) && String.eqb p (fst (generatePath n)))
               names
    then Some mc else methods p.
Proof.
  revert methods; induction names as [|n names IH]; intros methods;
    [reflexivity|].
  cbn [addNames existsb]. destruct (generatePath n) as [path valid].
  rewrite IH. cbn [fst snd].
  destruct (existsb _ names); [rewrite orb_true_r; reflexivity|].
  rewrite orb_false_r. destruct valid; cbn [andb]; [|reflexivity].
  unfold put. reflexivity.
Qed.

(** Where a path ends up after the loop over the method configs. *)
Lemma addMethods_lookup (ms : list jsonMC)
    (methods r : registry ServiceConfig.MethodConfig) (p : string) :
  addMethods intBits ms methods = Ok r ->
  r p = match find (fun m => namesPath m p) (rev ms) with
        | Some m => entryOf intBits m
        | None => methods p
        end.
Proof.
  revert methods; induction ms as [|m ms IH]; intros methods H.
  - injection H as <-. reflexivity.
  - cbn [addMethods rev] in *. rewrite find_snoc.
    destruct (Name m) as [names|] eqn:Hn.
    + destruct (ServiceConfig.parseDuration (Timeout m)) as [d|e] eqn:Hd;
        [|discriminate].
      rewrite (IH _ H).
      destruct (find (fun m0 => namesPath m0 p) (rev ms)); [reflexivity|].
      rewrite addNames_lookup. unfold namesPath at 1. rewrite Hn.
      destruct (existsb _ names); [|reflexivity].
      unfold entryOf. rewrite Hd. reflexivity.
    + rewrite (IH _ H).
      destruct (find (fun m0 => namesPath m0 p) (rev ms)); [reflexivity|].
      unfold namesPath. rewrite Hn. reflexivity.
Qed.

Lemma addMethods_Ok (ms : list jsonMC)
    (methods : registry ServiceConfig.MethodConfig) :
  (exists r, addMethods intBits ms methods = Ok r) <->
  (forall m, In m ms -> passable m).
Proof.
  revert methods; induction ms as [|m ms IH]; intros methods.
  - split; [intros _ m []|intros _; eexists; reflexivity].
  - cbn [addMethods]. split.
    + intros [r H] m' [<-|Hin].
      * destruct (Name m) as [names|] eqn:Hn; [|left; exact Hn].
        destruct (ServiceConfig.parseDuration (Timeout m)) as [d|e] eqn:Hd;
          [right; exists d; exact Hd|discriminate].
      * destruct (Name m) as [names|].
        -- destruct (ServiceConfig.parseDuration (Timeout m)) as [d|e];
             [|discriminate].
           apply (proj1 (IH _) (ex_intro _ r H) m' Hin).
        -- apply (proj1 (IH _) (ex_intro _ r H) m' Hin).
    + intros Hall.
      assert (Hrest : forall m', In m' ms -> passable m')
        by (intros m' Hin; apply Hall; right; exact Hin).
      destruct (Hall m (or_introl eq_refl)) as [Hn|[d Hd]].
      * rewrite Hn. apply IH, Hrest.
      * destruct (Name m); rewrite ?Hd; apply IH, Hrest.
Qed.

(** X6. [parseServiceConfig] accepts a document exactly when it
    unmarshals and every method config that has names has an absent or
    well-formed timeout; a method config without names is skipped, whatever
    its timeout. *)
Theorem X6_parseServiceConfig_accepts (unmarshal : string -> result string jsonSC)
    (js : string) :
  (exists sc, parseServiceConfig intBits unmarshal js = Ok sc) <->
  (exists rsc,
      unmarshal js = Ok rsc /\
      forall ms m, MethodConfig rsc = Some ms -> In m ms -> passable m).
Proof.
  unfold parseServiceConfig. destruct (unmarshal js) as [rsc|msg].
  - destruct (MethodConfig rsc) as [ms|] eqn:Hm.
    + split.
      * intros [sc H]. exists rsc. split; [reflexivity|].
        intros ms' m E Hin. rewrite Hm in E. injection E as <-.
        destruct (addMethods intBits ms empty) as [r|e] eqn:Ha; [|discriminate].
        apply (proj1 (addMethods_Ok ms empty) (ex_intro _ r Ha) m Hin).
      * intros (rsc' & E & Hall). injection E as <-.
        destruct (proj2 (addMethods_Ok ms empty)
                    (fun m Hin => Hall ms m Hm Hin)) as [r Hr].
        rewrite Hr. eexists; reflexivity.
    + split; [intros _|intros _; eexists; reflexivity].
      exists rsc. split; [reflexivity|]. intros ms m E.
      rewrite Hm in E. discriminate E.
  - split; [intros [sc H]; discriminate|].
    intros (rsc & E & _); discriminate.
Qed.

Lemma parseServiceConfig_lookup (unmarshal : string -> result string jsonSC)
    (js : string) (rsc : jsonSC) (sc : ServiceConfig) (p : string) :
  unmarshal js = Ok rsc ->
  parseServiceConfig intBits unmarshal js = Ok sc ->
  LB sc = LoadBalancingPolicy rsc /\
  Methods sc p
  = match MethodConfig rsc with
    | None => None
    | Some ms =>
        match find (fun m => namesPath m p) (rev ms) with
        | Some m => entryOf intBits m
        | None => None
        end
    end.
Proof.
  intros Hu H. unfold parseServiceConfig in H. rewrite Hu in H.
  destruct (MethodConfig rsc) as [ms|].
  - destruct (addMethods intBits ms empty) as [r|e] eqn:Ha; [|discriminate].
    injection H as <-. cbn [LB Methods]. split; [reflexivity|].
    apply (addMethods_lookup ms empty r p Ha).
  - injection H as <-. split; reflexivity.
Qed.

(** X8. In the table of an accepted document a path holds the entry of
    the last method config that names it, and nothing when none does; the
    balancing policy is handed through. *)
Theorem X8_methods_lookup (unmarshal : string -> result string jsonSC)
    (js : string) (rsc : jsonSC) (sc : ServiceConfig) (p : string) :
  unmarshal js = Ok rsc ->
  parseServiceConfig intBits unmarshal js = Ok sc ->
  LB sc = LoadBalancingPolicy rsc /\
  Methods sc p
  = match MethodConfig rsc with
    | None => None
    | Some ms =>
        match find (fun m => namesPath m p) (rev ms) with
        | Some m => entryOf intBits m
        | None => None
        end
    end.
Proof. exact (parseServiceConfig_lookup unmarshal js rsc sc p). Qed.

Lemma toInt_range (x : Z) :
  1 <= intBits ->
  - 2 ^ (intBits - 1) <= toInt intBits x <= maxInt intBits.
Proof.
  intros Hb. unfold toInt, maxInt.
  assert (Hpow : 2 ^ intBits = 2 * 2 ^ (intBits - 1)).
  { rewrite <- Z.pow_succ_r by lia. f_equal. lia. }
  pose proof (Z.pow_pos_nonneg 2 (intBits - 1) ltac:(lia) ltac:(lia)) as Hp.
  pose proof (Z.mod_pos_bound (x + 2 ^ (intBits - 1)) (2 ^ intBits) ltac:(lia)).
  lia.
Qed.

Lemma toInt_small (x : Z) :
  1 <= intBits ->
  - 2 ^ (intBits - 1) <= x <= maxInt intBits -> toInt intBits x = x.
Proof.
  intros Hb Hx. unfold toInt, maxInt in *.
  assert (Hpow : 2 ^ intBits = 2 * 2 ^ (intBits - 1)).
  { rewrite <- Z.pow_succ_r by lia. f_equal. lia. }
  rewrite Z.mod_small by lia. lia.
Qed.

Lemma sizeField_range (v : option Z) (x : Z) :
  1 <= intBits ->
  sizeField intBits v = Some x ->
  - 2 ^ (intBits - 1) <= x <= maxInt intBits.
Proof.
  intros Hb. unfold sizeField. destruct v as [y|]; [|discriminate].
  pose proof (Z.pow_pos_nonneg 2 (intBits - 1) ltac:(lia) ltac:(lia)) as Hp.
  destruct (Z.ltb_spec (maxInt intBits) y); intros E; injection E as <-.
  - unfold maxInt. lia.
  - apply toInt_range, Hb.
Qed.

(** X7. Every message size in the table of an accepted document fits the
    platform's [int]; a configured size that is not below the smallest
    [int] is stored as the smaller of itself and [maxInt]. *)
Theorem X7_sizes_fit_int (unmarshal : string -> result string jsonSC)
    (js : string) (sc : ServiceConfig) (p : string)
    (mc : ServiceConfig.MethodConfig) :
  1 <= intBits ->
  parseServiceConfig intBits unmarshal js = Ok sc ->
  Methods sc p = Some mc ->
  (forall x, ServiceConfig.MaxReqSize mc = Some x ->
             - 2 ^ (intBits - 1) <= x <= maxInt intBits) /\
  (forall x, ServiceConfig.MaxRespSize mc = Some x ->
             - 2 ^ (intBits - 1) <= x <= maxInt intBits) /\
  (forall y, - 2 ^ (intBits - 1) <= y ->
             sizeField intBits (Some y) = Some (Z.min y (maxInt intBits))).
Proof.
  intros Hb H Hp.
  assert (Hentry : exists m d, mc = methodConfigOf intBits m d).
  { unfold parseServiceConfig in H.
    destruct (unmarshal js) as [rsc|msg] eqn:Hu; [|discriminate].
    destruct (parseServiceConfig_lookup unmarshal js rsc sc p Hu) as [_ Hl].
    { unfold parseServiceConfig. rewrite Hu. exact H. }
    rewrite Hp in Hl. destruct (MethodConfig rsc) as [ms|]; [|discriminate].
    destruct (find (fun m => namesPath m p) (rev ms)) as [m|]; [|discriminate].
    unfold entryOf in Hl.
    destruct (ServiceConfig.parseDuration (Timeout m)) as [d|]; [|discriminate].
    injection Hl as ->. exists m, d. reflexivity. }
  destruct Hentry as (m & d & ->). cbn.
  refine (conj _ (conj _ _)).
  - intros x. apply sizeField_range, Hb.
  - intros x. apply sizeField_range, Hb.
  - intros y Hy. unfold sizeField.
    destruct (Z.ltb_spec (maxInt intBits) y); f_equal; [lia|].
    rewrite toInt_small by lia. lia.
Qed.

End ConfigFacts.

(** ** The client stream's other methods *)

Section ClientAPIFacts.
Import Errors Stream StreamObs ClientAPI.
Variable w : World.

Lemma finishActions_termination (s : clientStream) (err : option error)
    (e : Event) :
  In e (finishActions w s err) -> isTermination e = true.
Proof.
  unfold finishActions. rewrite !in_app_iff.
  intros [H|[H|[H|[H|[H|[H|H]]]]]].
  - destruct (channelzOn w); [|destruct H].
    destruct H as [<-|[]]. destruct (isNil err); reflexivity.
  - destruct H as [<-|[]]. reflexivity.
  - destruct (done (attempt s)); [|destruct H].
    destruct H as [<-|[]]. reflexivity.
  - destruct (statsHandler (attempt s)); [|destruct H].
    destruct H as [<-|[]]. reflexivity.
  - destruct (tr (attempt s)); [|destruct H].
    destruct H as [<-|[]]. reflexivity.
  - apply in_map_iff in H as (o & <- & _). reflexivity.
  - destruct H as [<-|[]]. reflexivity.
Qed.

Lemma filter_none {A} (f : A -> bool) (l : list A) :
  (forall x, In x l -> f x = false) -> filter f l = [].
Proof.
  induction l as [|x l IH]; intros H; [reflexivity|].
  cbn [filter]. rewrite (H x (or_introl eq_refl)).
  apply IH. intros y Hy. apply H. right. exact Hy.
Qed.

Lemma steady_refl (st : State) : steady st st.
Proof. repeat split. Qed.

Lemma steady_trans (st1 st2 st3 : State) :
  steady st1 st2 -> steady st2 st3 -> steady st1 st3.
Proof. intros (A & B & C) (D & E & F). repeat split; congruence. Qed.

Lemma finish_steady (err : option error) (st : State) :
  steady st (snd (finish w err st)).
Proof.
  destruct (finished (cs st)) eqn:H.
  - rewrite (finish_again w err st H). apply steady_refl.
  - rewrite (finish_first w err st H). cbn [snd]. unfold steady.
    cbn [cs trace]. unfold finishedStream.
    refine (conj _ (conj _ _)).
    + destruct (tr (attempt (cs st))); reflexivity.
    + destruct (tr (attempt (cs st))); reflexivity.
    + rewrite filter_app, (filter_none isLastWrite (finishActions _ _ _)),
        app_nil_r; [reflexivity|].
      intros e He. apply finishActions_termination in He.
      destruct e; try reflexivity; discriminate He.
Qed.

Lemma sendMsg_steady (m : Msg) (st : State) :
  ClientStreams (desc (cs st)) = true ->
  steady st (snd (sendMsg w m st)).
Proof.
  intros Hcs. rewrite sendMsg_deferred.
  pose proof (sendMsg_body_cases w m st) as Hb. cbv zeta in Hb.
  rewrite Hcs in Hb. cbn [negb] in Hb.
  assert (Hbody : steady st (snd (sendMsg_body w m st))).
  { rewrite Hb.
    assert (Hl : forall b : bool,
               filter isLastWrite (if b then [EvTraceLog] else []) = [])
      by (intros []; reflexivity).
    assert (Hst : forall n extra,
               filter isLastWrite extra = [] ->
               steady st (mkState (cs st) n (nRecvs st) (trace st ++ extra))).
    { intros n extra He. repeat split. cbn [trace].
      rewrite filter_app, He, app_nil_r. reflexivity. }
    destruct (encode w m) as [data|e]; [|apply Hst, Hl].
    destruct (compress w data) as [compData|e]; [|apply Hst, Hl].
    destruct (msgHeader w data compData) as [hdr payload].
    destruct (maxSendMessageSize (c (cs st)) <? Z.of_nat (List.length payload));
      [apply Hst, Hl|].
    destruct (Write w (nWrites st)); cbn [snd]; apply Hst;
      rewrite !filter_app, Hl;
      destruct (statsHandler (attempt (cs st))), (channelzOn w); reflexivity. }
  destruct (sendMsg_body w m st) as [err st1]. cbn [snd] in *.
  destruct (negb (isNil _) && negb (isEOF _)); cbn [snd]; [|exact Hbody].
  apply (steady_trans _ _ _ Hbody), finish_steady.
Qed.

Lemma recvMsg_steady (st : State) : steady st (snd (recvMsg w st)).
Proof.
  rewrite recvMsg_deferred.
  pose proof (recvMsg_body_cases w st) as Hb. cbv zeta in Hb.
  assert (Hbody : steady st (snd (recvMsg_body w st))).
  { rewrite Hb.
    destruct (initDecomp_shape w st) as (a' & Hinit & _).
    rewrite Hinit. cbn [snd cs].
    assert (Hst : forall n extra,
               filter isLastWrite extra = [] ->
               steady st (mkState (setAttempt a' (cs st)) (nWrites st) n
                                  (trace st ++ extra))).
    { intros n extra He. repeat split. cbn [trace].
      rewrite filter_app, He, app_nil_r. reflexivity. }
    assert (Hr : filter isLastWrite (received w (cs st)) = []).
    { unfold received.
      destruct (EnableTracing w && tr (attempt (cs st))),
        (statsHandler (attempt (cs st))), (channelzOn w); reflexivity. }
    destruct (readerOf w st (nRecvs st)) as [e|].
    - cbn [snd]. rewrite <- (app_nil_r (trace st)). apply Hst. reflexivity.
    - destruct (ServerStreams (desc (cs st))); cbn [snd]; apply Hst, Hr. }
  destruct (recvMsg_body w st) as [err st1]. cbn [snd] in *.
  destruct (negb (isNil err) || negb (ServerStreams (desc (cs st1))));
    cbn [snd]; [|exact Hbody].
  apply (steady_trans _ _ _ Hbody), finish_steady.
Qed.

(** What [closeSend] does, case by case. *)
Lemma closeSend_cases (st : State) :
  closeSend w st =
  if sentLast (cs st) then (tt, st)
  else (tt, mkState (setSentLast (cs st)) (S (nWrites st)) (nRecvs st)
                    (trace st ++ [EvWrite [] [] true])).
Proof.
  unfold closeSend, bind, get, ret, modifyStream, transportWrite.
  destruct (sentLast (cs st)); reflexivity.
Qed.

Lemma CloseSend_cases (st : State) :
  CloseSend w st =
  if sentLast (cs st) then (None, st)
  else (None, mkState (setSentLast (cs st)) (S (nWrites st)) (nRecvs st)
                      (trace st ++ [EvWrite [] [] true])).
Proof.
  unfold CloseSend, bind, ret. rewrite closeSend_cases.
  destruct (sentLast (cs st)); reflexivity.
Qed.

Lemma Header_cases (m : MD) (err : option error) (st : State) :
  Header w (m, err) st =
  match err with
  | Some e => ((m, Some (toRPCErr e)), snd (finish w (Some (toRPCErr e)) st))
  | None => ((m, None), st)
  end.
Proof.
  unfold Header, bind, ret. destruct err as [e|]; [|reflexivity].
  destruct (finish w (Some (toRPCErr e)) st) as [[] st']. reflexivity.
Qed.

(** X9. [CloseSend] always returns nil and leaves [sentLast] set; a second
    [CloseSend] changes nothing; and after a [SendMsg] that reached the
    transport on a stream that is not client-streaming, [CloseSend] writes
    nothing at all. *)
Theorem X9_CloseSend_once (st : State) :
  fst (CloseSend w st) = None /\
  sentLast (cs (snd (CloseSend w st))) = true /\
  CloseSend w (snd (CloseSend w st)) = (None, snd (CloseSend w st)) /\
  (forall m,
      ClientStreams (desc (cs st)) = false ->
      nWrites (snd (SendMsg w m st)) = S (nWrites st) ->
      CloseSend w (snd (SendMsg w m st)) = (None, snd (SendMsg w m st))).
Proof.
  assert (Hnoop : forall st', sentLast (cs st') = true ->
                              CloseSend w st' = (None, st')).
  { intros st' H. rewrite CloseSend_cases, H. reflexivity. }
  assert (Hset : sentLast (cs (snd (CloseSend w st))) = true).
  { rewrite CloseSend_cases. destruct (sentLast (cs st)) eqn:H;
      [exact H|reflexivity]. }
  refine (conj _ (conj Hset (conj (Hnoop _ Hset) _))).
  - rewrite CloseSend_cases. destruct (sentLast (cs st)); reflexivity.
  - intros m Hcs Hn. apply Hnoop. unfold SendMsg in *.
    rewrite sendMsg_deferred in *.
    pose proof (sendMsg_body_cases w m st) as Hb. cbv zeta in Hb.
    rewrite Hcs in Hb. cbn [negb] in Hb.
    assert (Hbody : nWrites (snd (sendMsg_body w m st)) = S (nWrites st) ->
                    sentLast (cs (snd (sendMsg_body w m st))) = true).
    { rewrite Hb. destruct (encode w m) as [data|e]; [|cbn; lia].
      destruct (compress w data) as [compData|e]; [|cbn; lia].
      destruct (msgHeader w data compData) as [hdr payload].
      destruct (maxSendMessageSize (c (cs st)) <? Z.of_nat (List.length payload));
        [cbn; lia|].
      destruct (Write w (nWrites st)); reflexivity. }
    destruct (sendMsg_body w m st) as [err st1]. cbn [snd] in *.
    destruct (negb (isNil _) && negb (isEOF _)); cbn [snd] in *;
      [|exact (Hbody Hn)].
    destruct (finish_steady (if isEOF err && negb (ClientStreams (desc (cs st1)))
                             then None else err) st1) as (_ & S1 & _).
    destruct (finish_frame w (if isEOF err && negb (ClientStreams (desc (cs st1)))
                              then None else err) st1) as (_ & N1 & _).
    rewrite S1. rewrite N1 in Hn. exact (Hbody Hn).
Qed.

Lemma runCall_client_streaming (k : Call) (st : State) :
  ClientStreams (desc (cs st)) = true ->
  lastWriteInv st ->
  ClientStreams (desc (cs (runCall w st k))) = true /\
  lastWriteInv (runCall w st k).
Proof.
  intros Hcs Inv.
  assert (Hsteady : forall st', steady st st' ->
             ClientStreams (desc (cs st')) = true /\ lastWriteInv st').
  { intros st' (D & S1 & F). unfold lastWriteInv, occurrences in *.
    rewrite D, S1, F. split; assumption. }
  destruct k as [err|m| | |[m err]]; cbn [runCall].
  - apply Hsteady, finish_steady.
  - apply Hsteady, sendMsg_steady, Hcs.
  - apply Hsteady, recvMsg_steady.
  - rewrite CloseSend_cases. unfold lastWriteInv in *.
    destruct (sentLast (cs st)) eqn:Hs; cbn [snd].
    + rewrite Hs. split; assumption.
    + cbn [cs trace setSentLast sentLast desc]. split; [exact Hcs|].
      rewrite occurrences_app. cbn. lia.
  - rewrite Header_cases. destruct err as [e|]; cbn [snd].
    + apply Hsteady, finish_steady.
    + split; assumption.
Qed.

(** X10. On a client-streaming stream, whatever is called on it and in
    whatever order, at most one transport write ends the sending side. *)
Theorem X10_one_last_write (s : clientStream) (calls : list Call) :
  ClientStreams (desc s) = true ->
  (occurrences isLastWrite (trace (runCalls w calls (newState s))) <= 1)%nat.
Proof.
  intros Hcs.
  assert (H : forall st, ClientStreams (desc (cs st)) = true -> lastWriteInv st ->
                         lastWriteInv (runCalls w calls st)).
  { induction calls as [|k calls IH]; intros st Hd Inv; [exact Inv|].
    cbn [runCalls fold_left]. fold (runCalls w calls (runCall w st k)).
    destruct (runCall_client_streaming k st Hd Inv) as [Hd' Inv'].
    apply IH; assumption. }
  assert (Inv0 : lastWriteInv (newState s)).
  { unfold lastWriteInv. cbn. lia. }
  specialize (H (newState s) Hcs Inv0). unfold lastWriteInv in H.
  destruct (sentLast (cs (runCalls w calls (newState s)))); lia.
Qed.

Lemma runCall_onceInv (k : Call) (st : State) :
  onceInv st -> onceInv (runCall w st k).
Proof.
  intros Inv. destruct k as [err|m| | |[m err]]; cbn [runCall].
  - apply onceInv_finish, Inv.
  - apply onceInv_sendMsg, Inv.
  - apply onceInv_recvMsg, Inv.
  - rewrite CloseSend_cases. destruct (sentLast (cs st)); [exact Inv|].
    cbn [snd]. apply (onceInv_quiet st); [exact Inv|].
    split; [repeat split|]. cbn [trace]. rewrite filter_app, app_nil_r.
    reflexivity.
  - rewrite Header_cases. destruct err as [e|]; cbn [snd];
      [apply onceInv_finish|]; exact Inv.
Qed.

Lemma runCall_opts (k : Call) (st : State) :
  opts (cs (runCall w st k)) = opts (cs st).
Proof.
  destruct k as [err|m| | |[m err]]; cbn [runCall].
  - apply (runOp_opts w (OpFinish err)).
  - apply (runOp_opts w (OpSendMsg m)).
  - apply (runOp_opts w OpRecvMsg).
  - rewrite CloseSend_cases. destruct (sentLast (cs st)); reflexivity.
  - rewrite Header_cases. destruct err as [e|]; cbn [snd]; [|reflexivity].
    apply (runOp_opts w (OpFinish (Some (toRPCErr e)))).
Qed.

(** X11. [Header] hands an error of the transport stream to the caller as
    a status error and finishes the stream with it, and leaves the stream
    alone when there is none; and across all five methods and [finish],
    called in any order, the context is cancelled at most once, the
    transport stream closed at most once, the done callback called at most
    once and each option's after hook run at most once. *)
Theorem X11_Header_and_all_calls :
  (forall m e st,
      Header w (m, Some e) st
      = ((m, Some (toRPCErr e)), snd (finish w (Some (toRPCErr e)) st)) /\
      finished (cs (snd (Header w (m, Some e) st))) = true) /\
  (forall m st, Header w (m, None) st = ((m, None), st)) /\
  (forall s calls,
      finished s = false ->
      let tr := trace (runCalls w calls (newState s)) in
      (occurrences isCancel tr <= 1)%nat /\
      (occurrences isCloseStream tr <= 1)%nat /\
      (occurrences isDone tr <= 1)%nat /\
      (occurrences isAfter tr <= List.length (opts s))%nat).
Proof.
  refine (conj _ (conj _ _)).
  - intros m e st. rewrite Header_cases. split; [reflexivity|].
    cbn [snd]. apply finish_sets_flag.
  - intros m st. apply Header_cases.
  - intros s calls H. cbv zeta.
    assert (K : forall st, onceInv st ->
                onceInv (runCalls w calls st) /\
                opts (cs (runCalls w calls st)) = opts (cs st)).
    { induction calls as [|k calls IH]; intros st Inv;
        [split; [exact Inv|reflexivity]|].
      cbn [runCalls fold_left]. fold (runCalls w calls (runCall w st k)).
      destruct (IH _ (runCall_onceInv k st Inv)) as [I O].
      split; [exact I|]. rewrite O. apply runCall_opts. }
    destruct (K (newState s) (onceInv_new s H)) as [Inv Ho].
    unfold onceInv in Inv. cbn [cs newState] in Ho. rewrite Ho in Inv.
    destruct Inv as (I1 & I2 & I3 & _ & _ & I6).
    destruct (finished (cs (runCalls w calls (newState s)))); repeat split; lia.
Qed.

End ClientAPIFacts.

(** ** The server stream *)

Section ServerFacts.
Import Codes Errors ServerStream.
Variable w : ServerWorld.
Variable ss : serverStream.

Lemma added_log (kind : ServerEvent -> bool) (evs : list ServerEvent)
    (st st' : ServerState) :
  added kind st (log evs st')
  = added kind st st' + Z.of_nat (List.length (filter kind evs)).
Proof.
  unfold added, log. cbn [trace]. rewrite filter_app, length_app. lia.
Qed.

Lemma added_refl (kind : ServerEvent -> bool) (st : ServerState) :
  added kind st st = 0.
Proof. unfold added. lia. Qed.

Lemma SendMsg_deferred_added (err : option error) (st st1 : ServerState) :
  added isWriteStatus st (SendMsg_deferred w ss err st1)
  = added isWriteStatus st st1 + (if notEOF err then 1 else 0) /\
  added isSvWrite st (SendMsg_deferred w ss err st1) = added isSvWrite st st1 /\
  nWrites (SendMsg_deferred w ss err st1) = nWrites st1.
Proof.
  unfold SendMsg_deferred.
  destruct (trInfo ss) as [[|]|], err as [e|], (channelzOn w);
    cbn [isNil andb]; unfold notEOF; cbn [isNil negb andb];
    try destruct (isEOF (Some e)); cbn [negb];
    rewrite ?added_log; cbn; repeat split; lia.
Qed.

Lemma RecvMsg_deferred_added (err : option error) (st st1 : ServerState) :
  added isWriteStatus st (RecvMsg_deferred w ss err st1)
  = added isWriteStatus st st1 + (if notEOF err then 1 else 0).
Proof.
  unfold RecvMsg_deferred.
  destruct (trInfo ss) as [[|]|], err as [e|], (channelzOn w);
    cbn [isNil andb]; unfold notEOF; cbn [isNil negb andb];
    try destruct (isEOF (Some e)); cbn [negb];
    rewrite ?added_log; cbn; lia.
Qed.

Lemma SendMsg_body_added (m : Msg) (st : ServerState) :
  added isWriteStatus st (snd (SendMsg_body w ss m st)) = 0 /\
  (fst (SendMsg_body w ss m st) = None ->
   added isSvWrite st (snd (SendMsg_body w ss m st)) = 1) /\
  0 <= added isSvWrite st (snd (SendMsg_body w ss m st)) <= 1.
Proof.
  unfold SendMsg_body.
  destruct (encode w m) as [data|e];
    [|cbn [fst snd]; rewrite !added_refl; repeat split; (discriminate || lia)].
  destruct (compress w data) as [compData|e];
    [|cbn [fst snd]; rewrite !added_refl; repeat split; (discriminate || lia)].
  destruct (msgHeader w data compData) as [hdr payload].
  destruct (maxSendMessageSize ss <? Z.of_nat (List.length payload));
    [cbn [fst snd]; rewrite !added_refl; repeat split; (discriminate || lia)|].
  destruct (Write w (nWrites st)), (statsHandler ss); cbn [fst snd];
    rewrite ?added_log; unfold added; cbn [trace];
    rewrite !filter_app, !length_app; cbn;
    repeat split; (discriminate || lia).
Qed.

(** X12. A [SendMsg] of the server stream writes the status to the
    transport exactly when it returns an error other than end-of-stream,
    and then once; it writes at most one message, and exactly one when it
    returns nil. *)
Theorem X12_server_SendMsg_status (m : Msg) (st : ServerState) :
  added isWriteStatus st (snd (SendMsg w ss m st))
  = (if notEOF (fst (SendMsg w ss m st)) then 1 else 0) /\
  0 <= added isSvWrite st (snd (SendMsg w ss m st)) <= 1 /\
  (fst (SendMsg w ss m st) = None ->
   added isSvWrite st (snd (SendMsg w ss m st)) = 1).
Proof.
  unfold SendMsg.
  destruct (SendMsg_body_added m st) as (B1 & B2 & B3).
  destruct (SendMsg_body w ss m st) as [err st1]. cbn [fst snd] in *.
  destruct (SendMsg_deferred_added err st st1) as (D1 & D2 & _).
  rewrite D1, D2, B1. repeat split; try lia. exact B2.
Qed.

(** X13. A message whose payload is longer than [maxSendMessageSize] makes
    the server's [SendMsg] return a ResourceExhausted status without
    writing the message. *)
Theorem X13_server_SendMsg_too_large (m : Msg) (st : ServerState)
    (data : bytes) (compData : option bytes) :
  encode w m = Ok data ->
  compress w data = Ok compData ->
  maxSendMessageSize ss < Z.of_nat (List.length (snd (msgHeader w data compData))) ->
  fst (SendMsg w ss m st) = Some tooLarge /\
  codeOf tooLarge = Some ResourceExhausted /\
  nWrites (snd (SendMsg w ss m st)) = nWrites st /\
  added isSvWrite st (snd (SendMsg w ss m st)) = 0.
Proof.
  intros He Hc Hsize. unfold SendMsg.
  assert (Hb : SendMsg_body w ss m st = (Some tooLarge, st)).
  { unfold SendMsg_body. rewrite He, Hc.
    destruct (msgHeader w data compData) as [hdr payload]. cbn [snd] in Hsize.
    destruct (Z.ltb_spec (maxSendMessageSize ss) (Z.of_nat (List.length payload)));
      [reflexivity|lia]. }
  rewrite Hb. cbn [fst snd].
  destruct (SendMsg_deferred_added (Some tooLarge) st st) as (_ & D2 & D3).
  rewrite D2, D3, added_refl. repeat split.
Qed.

(** X14. The server's [RecvMsg] hands the end of the stream through as it
    is, writing no status; an unexpected end of the stream is reported as
    whatever [toRPCErr] makes of an Internal status; and a status is
    written exactly when the returned error is not the end of the
    stream. *)
Theorem X14_server_RecvMsg (st : ServerState) :
  (recv w (nRecvs st) = Some (otherError io_EOF) ->
   fst (RecvMsg w ss st) = Some io_EOF /\
   trace (snd (RecvMsg w ss st)) = trace st) /\
  (recv w (nRecvs st) = Some io_ErrUnexpectedEOF ->
   fst (RecvMsg w ss st) = Some (toRPCErr w unexpectedEOF)) /\
  added isWriteStatus st (snd (RecvMsg w ss st))
  = (if notEOF (fst (RecvMsg w ss st)) then 1 else 0).
Proof.
  unfold RecvMsg. refine (conj _ (conj _ _)).
  - intros H. unfold RecvMsg_body. rewrite H. cbn [fst snd].
    split; [reflexivity|]. unfold RecvMsg_deferred, notEOF.
    cbn [isNil isEOF negb andb]. rewrite andb_false_r.
    destruct (trInfo ss) as [[|]|]; reflexivity.
  - intros H. unfold RecvMsg_body. rewrite H. reflexivity.
  - assert (Hb : added isWriteStatus st (snd (RecvMsg_body w ss st)) = 0).
    { unfold RecvMsg_body.
      destruct (recv w (nRecvs st)) as [[|[]]|]; cbn [snd];
        try destruct (statsHandler ss); rewrite ?added_log;
        unfold added; cbn; lia. }
    destruct (RecvMsg_body w ss st) as [err st1]. cbn [fst snd] in *.
    rewrite RecvMsg_deferred_added, Hb. lia.
Qed.

End ServerFacts.

(** ** Setting up a call *)

Section NewStreamFacts.
Import Codes Errors Registry NewStream.

(** X15. The choice of the send compression fails exactly when the call
    names a compressor other than identity that is not registered, and
    then with the Internal status of a compressor that is not installed;
    otherwise a compressor named by the call goes into the header, is the
    registered one unless it is identity, which selects none, and keeps
    the dial option's compressor out; without one the dial option's
    compressor is taken; and never are both a dial compressor and a
    registered one chosen. *)
Theorem X15_chooseCompression (GetCompressor : string -> option Named)
    (ct : string) (dialCp : option string) :
  ((exists e, chooseCompression GetCompressor ct dialCp = Err e) <->
   ct <> "" /\ ct <> Stream.Identity /\ GetCompressor ct = None) /\
  match chooseCompression GetCompressor ct dialCp with
  | Err e => e = notInstalled /\ codeOf e = Some Internal
  | Ok x =>
      (cp x = None \/ comp x = None) /\
      (ct <> "" -> SendCompress x = ct /\ cp x = None) /\
      (ct = Stream.Identity -> comp x = None) /\
      (ct <> "" -> ct <> Stream.Identity ->
       exists found, GetCompressor ct = Some found /\ comp x = Some found) /\
      (ct = "" ->
       cp x = dialCp /\ comp x = None /\
       SendCompress x = match dialCp with Some ty => ty | None => "" end)
  end.
Proof.
  unfold chooseCompression.
  destruct (String.eqb_spec ct "") as [->|Hne]; cbn [negb].
  - split.
    + split.
      * intros [e H]. destruct dialCp; discriminate H.
      * intros [H _]. contradiction H; reflexivity.
    + destruct dialCp as [ty|]; cbn;
        (refine (conj (or_intror eq_refl) (conj _ (conj _ (conj _ _))));
         [intros H; contradiction|reflexivity|intros H; contradiction|
          intros _; repeat split; reflexivity]).
  - destruct (String.eqb_spec ct Stream.Identity) as [->|Hid]; cbn [negb].
    + split.
      * split.
        -- intros [e H]. discriminate H.
        -- intros (_ & H & _). contradiction H; reflexivity.
      * cbn. refine (conj (or_introl eq_refl) (conj _ (conj _ (conj _ _)))).
        -- intros _; split; reflexivity.
        -- reflexivity.
        -- intros _ H; contradiction.
        -- intros H; discriminate H.
    + destruct (GetCompressor ct) as [found|] eqn:Hg.
      * split.
        -- split.
           ++ intros [e H]. discriminate H.
           ++ intros (_ & _ & H). discriminate H.
        -- cbn. refine (conj (or_introl eq_refl) (conj _ (conj _ (conj _ _)))).
           ++ intros _; split; reflexivity.
           ++ intros H; contradiction.
           ++ intros _ _. exists found. split; reflexivity.
           ++ intros H; contradiction.
      * split.
        -- split.
           ++ intros _. repeat split; assumption.
           ++ intros _. eexists; reflexivity.
        -- split; reflexivity.
Qed.

Variable env : Surroundings.

(** For a fail-fast call the attempt loop takes exactly one turn,
    whatever happens in it. *)
Lemma attemptLoop_failFast (fuel k : nat) (doneCalls : list error) :
  exists r doneCalls',
    attemptLoop env true (S fuel) k doneCalls = Some (r, S k, doneCalls') /\
    attemptLoop env true (S fuel) k doneCalls = attemptLoop env true 1 k doneCalls.
Proof.
  cbn [attemptLoop negb].
  destruct (ctxErr env k) as [ce|]; [eexists _, _; split; reflexivity|].
  destruct (getTransport env k) as [[t hasDone]|e];
    [|eexists _, _; split; reflexivity].
  destruct (NewStream env k) as [e|]; eexists _, _; split; reflexivity.
Qed.

Lemma attemptLoop_waitForReady (fuel k n : nat) (doneCalls : list error)
    (r : Attempt) :
  attemptLoop env false fuel k (failedWithDone env k) = Some (r, n, doneCalls) ->
  exists last,
    n = S last /\ (k <= last)%nat /\
    doneCalls = failedWithDone env last /\
    (forall j, (k <= j < last)%nat ->
               ctxErr env j = None /\
               exists t hasDone e,
                 getTransport env j = Ok (t, hasDone) /\ NewStream env j = Some e) /\
    match r with
    | Err e =>
        (exists ce, ctxErr env last = Some ce /\ e = toRPCErr ce) \/
        (ctxErr env last = None /\ getTransport env last = Err e)
    | Ok x =>
        ctxErr env last = None /\ getTransport env last = Ok x /\
        NewStream env last = None
    end.
Proof.
  revert k; induction fuel as [|fuel IH]; intros k H; [discriminate|].
  cbn [attemptLoop negb] in H.
  destruct (ctxErr env k) as [ce|] eqn:Hc.
  { injection H as <- <- <-. exists k.
    refine (conj eq_refl (conj (le_n k) (conj eq_refl (conj _ _)))).
    - intros j Hj. lia.
    - left. exists ce. split; [exact Hc|reflexivity]. }
  destruct (getTransport env k) as [[t hasDone]|e] eqn:Hg.
  2:{ injection H as <- <- <-. exists k.
      refine (conj eq_refl (conj (le_n k) (conj eq_refl (conj _ _)))).
      - intros j Hj. lia.
      - right. split; [exact Hc|exact Hg]. }
  destruct (NewStream env k) as [e|] eqn:Hs.
  - assert (Hd : (if hasDone then (failedWithDone env k ++ [e])%list
                  else failedWithDone env k) = failedWithDone env (S k)).
    { cbn [failedWithDone]. rewrite Hg, Hs.
      destruct hasDone; [reflexivity|rewrite app_nil_r; reflexivity]. }
    rewrite Hd in H.
    destruct (IH (S k) H) as (last & -> & Hle & Hdc & Hall & Hr).
    exists last. refine (conj eq_refl (conj _ (conj Hdc (conj _ Hr)))); [lia|].
    intros j Hj. destruct (Nat.eq_dec j k) as [->|Hjk].
    + split; [exact Hc|]. exists t, hasDone, e. split; assumption.
    + apply Hall. lia.
  - injection H as <- <- <-. exists k.
    refine (conj eq_refl (conj (le_n k) (conj eq_refl (conj _ _)))).
    + intros j Hj. lia.
    + repeat split; assumption.
Qed.

(** The loop of a call that waits for ready runs up to the first turn
    that does not fail in [NewStream], and returns there. *)
Lemma attemptLoop_first_stop (last : nat) :
  forall fuel k,
    (k <= last)%nat -> (last - k < fuel)%nat ->
    (forall j, (k <= j < last)%nat ->
               ctxErr env j = None /\
               exists t hasDone e,
                 getTransport env j = Ok (t, hasDone) /\ NewStream env j = Some e) ->
    (ctxErr env last <> None \/
     (exists e, getTransport env last = Err e) \/
     NewStream env last = None) ->
    exists r,
      attemptLoop env false fuel k (failedWithDone env k)
      = Some (r, S last, failedWithDone env last).
Proof.
  induction fuel as [|fuel IH]; intros k Hk Hf Hretry Hstop; [lia|].
  cbn [attemptLoop negb].
  destruct (Nat.eq_dec k last) as [->|Hne].
  - destruct (ctxErr env last) as [ce|] eqn:Hc; [eexists; reflexivity|].
    destruct (getTransport env last) as [[t hasDone]|e] eqn:Hg;
      [|eexists; reflexivity].
    destruct (NewStream env last) as [e|] eqn:Hs; [|eexists; reflexivity].
    exfalso. destruct Hstop as [H|[[e' H]|H]];
      [apply H; reflexivity|discriminate H|discriminate H].
  - destruct (Hretry k ltac:(lia)) as (Hc & t & hasDone & e & Hg & Hs).
    rewrite Hc, Hg, Hs.
    assert (Hd : (if hasDone then (failedWithDone env k ++ [e])%list
                  else failedWithDone env k) = failedWithDone env (S k)).
    { cbn [failedWithDone]. rewrite Hg, Hs.
      destruct hasDone; [reflexivity|rewrite app_nil_r; reflexivity]. }
    rewrite Hd. apply IH; [lia|lia| |exact Hstop].
    intros j Hj. apply Hretry. lia.
Qed.

(** X17. For a call that waits for ready the attempt loop ends on the
    first turn on which the context is done, [getTransport] fails or the
    stream is opened, when on every turn before that the stream could not
    be opened: it returns on that turn, never with the error of a failed
    [NewStream], and the done callback has then been called once for each
    of the earlier turns on which the picker had handed one out, with that
    turn's error.  Every result of the loop comes about in this way. *)
Theorem X17_waitForReady_retries :
  (forall last fuel,
      (forall j, (j < last)%nat ->
                 ctxErr env j = None /\
                 exists t hasDone e,
                   getTransport env j = Ok (t, hasDone) /\ NewStream env j = Some e) ->
      (ctxErr env last <> None \/
       (exists e, getTransport env last = Err e) \/
       NewStream env last = None) ->
      (last < fuel)%nat ->
      exists r,
        attemptLoop env false fuel 0 [] = Some (r, S last, failedWithDone env last) /\
        match r with
        | Err e =>
            (exists ce, ctxErr env last = Some ce /\ e = toRPCErr ce) \/
            (ctxErr env last = None /\ getTransport env last = Err e)
        | Ok x =>
            ctxErr env last = None /\ getTransport env last = Ok x /\
            NewStream env last = None
        end) /\
  (forall fuel n doneCalls r,
      attemptLoop env false fuel 0 [] = Some (r, n, doneCalls) ->
      exists last,
        n = S last /\
        doneCalls = failedWithDone env last /\
        (forall j, (j < last)%nat ->
                   ctxErr env j = None /\
                   exists t hasDone e,
                     getTransport env j = Ok (t, hasDone) /\ NewStream env j = Some e) /\
        match r with
        | Err e =>
            (exists ce, ctxErr env last = Some ce /\ e = toRPCErr ce) \/
            (ctxErr env last = None /\ getTransport env last = Err e)
        | Ok x =>
            ctxErr env last = None /\ getTransport env last = Ok x /\
            NewStream env last = None
        end).
Proof.
  split.
  - intros last fuel Hretry Hstop Hf.
    destruct (attemptLoop_first_stop last fuel 0 ltac:(lia) ltac:(lia)) as [r Hr];
      [intros j Hj; apply Hretry; lia|exact Hstop|].
    cbn [failedWithDone] in Hr. exists r. split; [exact Hr|].
    destruct (attemptLoop_waitForReady fuel 0 _ _ r Hr)
      as (last' & Hn & _ & _ & _ & Hshape).
    injection Hn as <-. exact Hshape.
  - intros fuel n doneCalls r H.
    destruct (attemptLoop_waitForReady fuel 0 n doneCalls r H)
      as (last & Hn & _ & Hd & Hall & Hr).
    exists last. refine (conj Hn (conj Hd (conj _ Hr))).
    intros j Hj. apply Hall. lia.
Qed.

Lemma attemptLoop_ends (failFast : bool) (deadline fuel k : nat)
    (doneCalls : list error) :
  ctxErr env deadline <> None ->
  (k <= deadline)%nat -> (deadline - k < fuel)%nat ->
  exists r n doneCalls',
    attemptLoop env failFast fuel k doneCalls = Some (r, n, doneCalls') /\
    (n <= S deadline)%nat.
Proof.
  intros Hd. revert k doneCalls; induction fuel as [|fuel IH];
    intros k doneCalls Hk Hf; [lia|].
  cbn [attemptLoop].
  destruct (ctxErr env k) as [ce|] eqn:Hc;
    [eexists _, _, _; split; [reflexivity|lia]|].
  assert (Hlt : (k < deadline)%nat).
  { destruct (Nat.eq_dec k deadline) as [->|]; [contradiction|lia]. }
  destruct (getTransport env k) as [[t hasDone]|e];
    [|eexists _, _, _; split; [reflexivity|lia]].
  destruct (NewStream env k) as [e|];
    [|eexists _, _, _; split; [reflexivity|lia]].
  destruct failFast; cbn [negb];
    [eexists _, _, _; split; [reflexivity|lia]|].
  apply IH; lia.
Qed.

(** X18. Once the context is done the attempt loop returns: if the
    context is done on turn [deadline], the loop ends within
    [deadline + 1] turns, fail-fast or not. *)
Theorem X18_attemptLoop_ends_with_context (failFast : bool) (deadline : nat) :
  ctxErr env deadline <> None ->
  exists r n doneCalls,
    attemptLoop env failFast (S deadline) 0 [] = Some (r, n, doneCalls) /\
    (n <= S deadline)%nat.
Proof. intros H. apply attemptLoop_ends; [exact H|lia|lia]. Qed.

End NewStreamFacts.

(** ** The watcher *)

Section WatcherFacts.
Import Resolver Watcher.

(** X19. A turn of the watcher on a closed wrapper returns at once and
    takes nothing; a [close()] that comes before the second look at [done]
    makes the turn return without handing anything over; a [close()] that
    comes after it does not keep the update back, which still reaches the
    ClientConn; whenever [close()] ran during a turn the wrapper is closed
    for the next one; and an update handed over was the oldest pending
    value of its channel, which the turn removes, leaving the other channel
    untouched. *)
Theorem X19_watcher_turn (pick : Pick) (closing : Closing) (st : WatchState) :
  (closed st = true -> turn pick closing st = (Returned, st)) /\
  (closing = BeforeSelect \/ closing = BeforeCheck ->
   fst (turn pick closing st) = Returned) /\
  (closed st = false -> closing = AfterCheck ->
   (forall addrs rest,
       pick = PickAddr -> buf (addrCh (ccr st)) = addrs :: rest ->
       turn pick closing st
       = (Handled (ResolvedAddrs addrs),
          mkWatchState (mkWrapper (mkChan (cap (addrCh (ccr st))) rest)
                                  (scCh (ccr st))) true)) /\
   (forall sc rest,
       pick = PickConfig -> buf (scCh (ccr st)) = sc :: rest ->
       turn pick closing st
       = (Handled (NewConfig sc),
          mkWatchState (mkWrapper (addrCh (ccr st))
                                  (mkChan (cap (scCh (ccr st))) rest)) true))) /\
  (closing <> NoClose -> closed (snd (turn pick closing st)) = true) /\
  (forall addrs,
      fst (turn pick closing st) = Handled (ResolvedAddrs addrs) ->
      buf (addrCh (ccr st)) = addrs :: buf (addrCh (ccr (snd (turn pick closing st)))) /\
      scCh (ccr (snd (turn pick closing st))) = scCh (ccr st)) /\
  (forall sc,
      fst (turn pick closing st) = Handled (NewConfig sc) ->
      buf (scCh (ccr st)) = sc :: buf (scCh (ccr (snd (turn pick closing st)))) /\
      addrCh (ccr (snd (turn pick closing st))) = addrCh (ccr st)).
Proof.
  destruct st as [[[ca ba] [cc bc]] cl]. unfold turn, receive.
  cbn [closed ccr addrCh scCh buf cap].
  destruct cl.
  { refine (conj _ (conj _ (conj _ (conj _ (conj _ _))))).
    - reflexivity.
    - reflexivity.
    - discriminate.
    - reflexivity.
    - intros addrs H; discriminate H.
    - intros sc H; discriminate H. }
  destruct pick, closing, ba as [|a ba], bc as [|s bc];
    cbn [fst snd ccr closed addrCh scCh buf cap];
    (refine (conj _ (conj _ (conj _ (conj _ (conj _ _)))));
     [discriminate
     |intros [H|H]; (reflexivity || discriminate H)
     |intros _ H;
      first [discriminate H
            |split;
             [intros addrs rest Hp Hb; try discriminate Hp; try discriminate Hb;
              injection Hb as <- <-; reflexivity
             |intros sc rest Hp Hb; try discriminate Hp; try discriminate Hb;
              injection Hb as <- <-; reflexivity]]
     |intros H; (reflexivity || (exfalso; apply H; reflexivity))
     |intros addrs H; try discriminate H; injection H as <-; split; reflexivity
     |intros sc H; try discriminate H; injection H as <-; split; reflexivity]).
Qed.

Lemma subsequence_skip_front {A} (pre l1 l2 : list A) :
  subsequence l1 l2 -> subsequence l1 (pre ++ l2).
Proof.
  intros H. induction pre as [|x pre IH]; [exact H|].
  cbn [app]. apply sub_skip, IH.
Qed.

Lemma deliveries_subsequence (steps : list Step) (st : WatchState) :
  oneSlot (addrCh (ccr st)) -> oneSlot (scCh (ccr st)) ->
  closed st = false ->
  subsequence (fst (deliveries st steps))
              (buf (addrCh (ccr st)) ++ published steps).
Proof.
  revert st; induction steps as [|[addrs|sc|pick] steps IH]; intros st Ha Hs Hc.
  - cbn [deliveries published fst]. rewrite app_nil_r.
    induction (buf (addrCh (ccr st))) as [|x l IHl];
      [constructor|apply sub_skip, IHl].
  - cbn [deliveries published]. unfold NewAddress.
    rewrite (publish_oneSlot _ addrs Ha).
    apply subsequence_skip_front.
    apply (IH (mkWatchState (mkWrapper (mkChan 1 [addrs]) (scCh (ccr st)))
                            (closed st)));
      [apply oneSlot_single|exact Hs|exact Hc].
  - cbn [deliveries published]. unfold NewServiceConfig.
    rewrite (publish_oneSlot _ sc Hs).
    apply (IH (mkWatchState (mkWrapper (addrCh (ccr st)) (mkChan 1 [sc]))
                            (closed st)));
      [exact Ha|apply oneSlot_single|exact Hc].
  - cbn [deliveries published].
    destruct st as [[[ca ba] [cc bc]] cl]. cbn [closed ccr addrCh scCh buf] in *.
    subst cl. destruct Ha as [Hca Hla], Hs as [Hcc Hlc]. cbn [cap buf] in *.
    unfold turn, receive. cbn [closed ccr addrCh scCh buf cap fst snd].
    destruct ba as [|a [|a' ba]]; [| |cbn in Hla; lia];
      (destruct bc as [|s [|s' bc]]; [| |cbn in Hlc; lia]);
      destruct pick;
      match goal with
      | |- context [deliveries ?st0 steps] =>
          specialize (IH st0); destruct (deliveries st0 steps) as [ds final]
      end;
      cbn in *;
      first [apply IH|apply sub_keep; apply IH];
      repeat split; cbn; (assumption || lia).
Qed.

(** X20. Along any history of publishing and watcher turns on an open
    wrapper, whichever ready case the runtime picks on each turn, the
    address lists handed to the ClientConn are address lists that were
    published, each handed over at most once and in the order of
    publishing; lists overwritten before the watcher's turn are left
    out. *)
Theorem X20_deliveries_in_order (steps : list Step) :
  subsequence
    (fst (deliveries (mkWatchState newCCResolverWrapper false) steps))
    (published steps).
Proof.
  apply (deliveries_subsequence steps (mkWatchState newCCResolverWrapper false));
    [split; cbn; lia|split; cbn; lia|reflexivity].
Qed.

End WatcherFacts.

(** ** The server name of a handshake *)

Section CredentialsFacts.
Import GoStrings Credentials.

Lemma LastIndex_none (s : string) :
  Contains s ":" = false -> LastIndex s ":" = None.
Proof.
  induction s as [|ch s IH]; [reflexivity|].
  cbn [Contains LastIndex]. intros H. apply orb_false_iff in H as [Hp Hc].
  rewrite (IH Hc), Hp. reflexivity.
Qed.

Lemma LastIndex_last_colon (host port : string) :
  Contains port ":" = false ->
  LastIndex (host ++ ":" ++ port) ":" = Some (String.length host).
Proof.
  intros Hp. induction host as [|ch host IH].
  - cbn [append String.length LastIndex]. rewrite (LastIndex_none port Hp).
    reflexivity.
  - change (String ch host ++ ":" ++ port) with (String ch (host ++ ":" ++ port)).
    cbn [LastIndex String.length]. rewrite IH. reflexivity.
Qed.

Lemma take_app (a b : string) : take (String.length a) (a ++ b) = a.
Proof.
  induction a as [|ch a IH]; [destruct b; reflexivity|].
  cbn [String.length append take]. rewrite IH. reflexivity.
Qed.

Lemma take_all (a : string) : take (String.length a) a = a.
Proof.
  induction a as [|ch a IH]; [reflexivity|].
  cbn [String.length take]. rewrite IH. reflexivity.
Qed.

(** X21. The server name of a client handshake is the configured one when
    there is one; otherwise it is the authority without its port, that is
    without the last colon and what follows it, and the whole authority
    when that has no colon. *)
Theorem X21_handshakeServerName :
  (forall configured authority,
      configured <> "" ->
      handshakeServerName configured authority = configured) /\
  (forall host port,
      Contains port ":" = false ->
      handshakeServerName "" (host ++ ":" ++ port) = host) /\
  (forall authority,
      Contains authority ":" = false ->
      handshakeServerName "" authority = authority).
Proof.
  refine (conj _ (conj _ _)).
  - intros configured authority H. unfold handshakeServerName.
    destruct (String.eqb_spec configured ""); [contradiction|reflexivity].
  - intros host port H. unfold handshakeServerName. cbn [String.eqb].
    rewrite (LastIndex_last_colon host port H). apply take_app.
  - intros authority H. unfold handshakeServerName. cbn [String.eqb].
    rewrite (LastIndex_none authority H). apply take_all.
Qed.

End CredentialsFacts.

(** ** The further properties at work *)

Section MoreWitnesses.
Import GoStrings Codes Errors Registry Samples.

(** A codec called Proto is found under proto, and nothing under the
    empty content-subtype. *)
Lemma X3_codec_keys_lowercase_witness :
  Encoding.GetCodec (put empty "proto" proto) "" = None.
Proof.
  destruct (X3_codec_keys_lowercase asciiLower [Some proto]
              (put empty "proto" proto) eq_refl) as [H _].
  exact H.
Defined.

(** Two names of one service: their paths agree exactly when their
    methods do. *)
Lemma X5_generatePath_identifies_witness :
  fst (ConfigJSON.generatePath echoSay) = fst (ConfigJSON.generatePath echoAny)
  <-> "echo.Echo" = "echo.Echo" /\
      ConfigJSON.methodOf echoSay = ConfigJSON.methodOf echoAny.
Proof.
  destruct (X5_generatePath_identifies echoSay echoAny) as (_ & _ & H).
  apply (H "echo.Echo" "echo.Echo"); reflexivity.
Defined.

(** The sample document is accepted. *)
Lemma X6_parseServiceConfig_accepts_witness :
  exists sc, ConfigJSON.parseServiceConfig 32 unmarshalled "{}" = Ok sc.
Proof.
  apply (X6_parseServiceConfig_accepts 32 unmarshalled "{}").
  exists document. split; [reflexivity|].
  intros ms m E Hin. injection E as <-. destruct Hin as [<-|[]].
  right. eexists. reflexivity.
Defined.

(** Four gigabytes are stored as [maxInt] on a 32-bit platform. *)
Lemma X7_sizes_fit_int_witness :
  - 2 ^ (32 - 1) <= 2147483647 <= ConfigJSON.maxInt 32 /\
  ConfigJSON.sizeField 32 (Some 4294967296)
  = Some (Z.min 4294967296 (ConfigJSON.maxInt 32)).
Proof.
  destruct (X7_sizes_fit_int 32 unmarshalled "{}" table32 "/echo.Echo/Say"
              echoEntry ltac:(lia) eq_refl eq_refl) as (H & _ & K).
  split.
  - apply (H 2147483647). reflexivity.
  - apply (K 4294967296). lia.
Defined.

(** The balancing policy of the sample document. *)
Lemma X8_methods_lookup_witness :
  ConfigJSON.LB table32 = Some "round_robin".
Proof.
  destruct (X8_methods_lookup 32 unmarshalled "{}" document table32
              "/echo.Echo/Say" eq_refl eq_refl) as [H _].
  exact H.
Defined.

(** After the request of a unary call [CloseSend] has nothing to do. *)
Lemma X9_CloseSend_once_witness :
  ClientAPI.CloseSend Examples.oneReply
    (snd (Stream.SendMsg Examples.oneReply "ping"
            (Stream.newState Examples.unaryStream)))
  = (None, snd (Stream.SendMsg Examples.oneReply "ping"
                  (Stream.newState Examples.unaryStream))).
Proof.
  destruct (X9_CloseSend_once Examples.oneReply
              (Stream.newState Examples.unaryStream)) as (_ & _ & _ & H).
  apply (H "ping"); reflexivity.
Defined.

(** Two messages, the sending side closed twice: one last write. *)
Lemma X10_one_last_write_witness :
  (StreamObs.occurrences ClientAPI.isLastWrite
     (Stream.trace
        (ClientAPI.runCalls Examples.oneReply
           [ClientAPI.CallSendMsg "a"; ClientAPI.CallSendMsg "b";
            ClientAPI.CallCloseSend; ClientAPI.CallCloseSend]
           (Stream.newState uploadStream))) <= 1)%nat.
Proof.
  apply (X10_one_last_write Examples.oneReply uploadStream). reflexivity.
Defined.

(** A failed [Header], then [RecvMsg]: one cancel. *)
Lemma X11_Header_and_all_calls_witness :
  (StreamObs.occurrences StreamObs.isCancel
     (Stream.trace
        (ClientAPI.runCalls Examples.refused
           [ClientAPI.CallHeader ([], Some (TransportError "connection refused"));
            ClientAPI.CallRecvMsg]
           (Stream.newState Examples.unaryStream))) <= 1)%nat.
Proof.
  destruct (X11_Header_and_all_calls Examples.refused) as (_ & _ & H).
  apply (H Examples.unaryStream
           [ClientAPI.CallHeader ([], Some (TransportError "connection refused"));
            ClientAPI.CallRecvMsg]).
  reflexivity.
Defined.

(** A message that is sent is written once. *)
Lemma X12_server_SendMsg_status_witness :
  ServerStream.added ServerStream.isSvWrite
    (ServerStream.mkServerState 0 0 [])
    (snd (ServerStream.SendMsg quietServer handlerStream "pong"
            (ServerStream.mkServerState 0 0 []))) = 1.
Proof.
  destruct (X12_server_SendMsg_status quietServer handlerStream "pong"
              (ServerStream.mkServerState 0 0 [])) as (_ & _ & H).
  apply H. reflexivity.
Defined.

(** Thirty-two bytes against a limit of sixteen. *)
Lemma X13_server_SendMsg_too_large_witness :
  fst (ServerStream.SendMsg quietServer handlerStream
         "0123456789abcdef0123456789abcdef" (ServerStream.mkServerState 0 0 []))
  = Some ServerStream.tooLarge.
Proof.
  destruct (X13_server_SendMsg_too_large quietServer handlerStream
              "0123456789abcdef0123456789abcdef"
              (ServerStream.mkServerState 0 0 [])
              (list_byte_of_string "0123456789abcdef0123456789abcdef") None
              eq_refl eq_refl) as (H & _).
  - vm_compute. reflexivity.
  - exact H.
Defined.

(** The peer has closed the stream: end of stream, nothing written. *)
Lemma X14_server_RecvMsg_witness :
  fst (ServerStream.RecvMsg quietServer handlerStream
         (ServerStream.mkServerState 0 0 [])) = Some io_EOF.
Proof.
  destruct (X14_server_RecvMsg quietServer handlerStream
              (ServerStream.mkServerState 0 0 [])) as (H & _).
  apply H. reflexivity.
Defined.

(** A call asking for gzip fails exactly when gzip is not registered. *)
Lemma X15_chooseCompression_witness :
  (exists e, NewStream.chooseCompression empty "gzip" (Some "deflate") = Err e) /\
  NewStream.SendCompress
    (NewStream.mkCompression "gzip" None (Some (mkNamed "gzip" 1))) = "gzip".
Proof.
  split.
  - destruct (X15_chooseCompression empty "gzip" (Some "deflate")) as [[_ H] _].
    apply H. repeat split; discriminate.
  - pose proof (X15_chooseCompression
                  (put empty "gzip" (mkNamed "gzip" 1)) "gzip" (Some "deflate"))
      as [_ H].
    cbn in H. destruct H as (_ & H & _). apply H. discriminate.
Defined.

(** Two refused turns, then a stream on the third: two done calls. *)
Lemma X17_waitForReady_retries_witness :
  exists r,
    NewStream.attemptLoop flaky false 5 0 []
    = Some (r, 3%nat, NewStream.failedWithDone flaky 2).
Proof.
  destruct (X17_waitForReady_retries flaky) as [H _].
  destruct (H 2%nat 5%nat) as (r & Hr & _).
  - intros j Hj. destruct j as [|[|j]]; [| |lia];
      (split; [reflexivity|]);
      eexists _, _, _; split; reflexivity.
  - right. right. reflexivity.
  - lia.
  - exists r. exact Hr.
Defined.

(** The context is done on the fourth turn at the latest. *)
Lemma X18_attemptLoop_ends_with_context_witness :
  exists r n doneCalls,
    NewStream.attemptLoop flaky false 4 0 [] = Some (r, n, doneCalls) /\
    (n <= 4)%nat.
Proof.
  apply (X18_attemptLoop_ends_with_context flaky false 3). discriminate.
Defined.

(** A wrapper closed after the second look at [done]: the pending
    addresses are still delivered, and the wrapper is closed afterwards. *)
Lemma X19_watcher_turn_witness :
  Watcher.turn Watcher.PickAddr Watcher.AfterCheck
    (Watcher.mkWatchState
       (Resolver.mkWrapper (Resolver.mkChan 1 [["10.0.0.1:443"]])
                           (Resolver.mkChan 1 []))
       false)
  = (Watcher.Handled (Watcher.ResolvedAddrs ["10.0.0.1:443"]),
     Watcher.mkWatchState
       (Resolver.mkWrapper (Resolver.mkChan 1 []) (Resolver.mkChan 1 []))
       true).
Proof.
  destruct (X19_watcher_turn Watcher.PickAddr Watcher.AfterCheck
              (Watcher.mkWatchState
                 (Resolver.mkWrapper (Resolver.mkChan 1 [["10.0.0.1:443"]])
                                     (Resolver.mkChan 1 []))
                 false)) as (_ & _ & H & _).
  destruct (H eq_refl eq_refl) as [Ha _].
  apply (Ha ["10.0.0.1:443"] []); reflexivity.
Defined.

(** A host with a port, and an IPv6 literal with one. *)
Lemma X21_handshakeServerName_witness :
  Credentials.handshakeServerName "" "svc.example:443" = "svc.example" /\
  Credentials.handshakeServerName "" "[::1]:443" = "[::1]".
Proof.
  destruct X21_handshakeServerName as (_ & H & _). split.
  - apply (H "svc.example" "443"). reflexivity.
  - apply (H "[::1]" "443"). reflexivity.
Defined.

End MoreWitnesses.

(** ** Durations and targets, once more *)

Section MoreParsing.
Import GoStrings Target ServiceConfig DurationSpec.

(** X22. Every duration [parseDuration] accepts lies strictly between
    minus and plus 2^31 + 1 seconds: the 64-bit arithmetic that builds it
    never wraps around. *)
Theorem X22_parseDuration_bounded (s : string) (d : Z) :
  parseDuration (Some s) = Ok (Some d) ->
  - (2 ^ 31 + 1) * Second < d < (2 ^ 31 + 1) * Second.
Proof.
  intros H. apply parseDuration_sound in H.
  destruct H as (ip & fp & i & f & _ & _ & _ & _ & Hi & Hf & ->).
  assert (Hib : - 2 ^ 31 <= i < 2 ^ 31).
  { destruct Hi as [[_ ->]|[_ Hr]]; [|exact Hr].
    change (2 ^ 31) with 2147483648. lia. }
  assert (Hfb : - 10 ^ 9 < f < 10 ^ 9).
  { destruct Hf as [[_ ->]|[Hlen (v & Hv & ->)]].
    - change (10 ^ 9) with 1000000000. lia.
    - apply (fraction_bound fp v Hv Hlen). }
  unfold Second. change (2 ^ 31) with 2147483648 in *.
  change (10 ^ 9) with 1000000000 in *. lia.
Qed.

(** X23. [parseTarget] loses nothing: either the whole target is the
    endpoint, with scheme and authority empty, or the target is the
    scheme, ["://"], the authority, ["/"] and the endpoint, one after the
    other. *)
Theorem X23_parseTarget_lossless (target : string) :
  parseTarget target = mkTarget "" "" target \/
  assemble (parseTarget target) = target.
Proof.
  destruct (Cut target "://") as [[s r]|] eqn:E1.
  - destruct (Cut r "/") as [[a e]|] eqn:E2.
    + right. unfold parseTarget.
      rewrite (split2_found _ _ _ _ E1). cbn [negb].
      rewrite (split2_found _ _ _ _ E2). cbn [negb].
      unfold assemble. cbn [Scheme Authority Endpoint].
      rewrite (Cut_Some_eq _ _ _ _ E1), (Cut_Some_eq _ _ _ _ E2). reflexivity.
    + left. unfold parseTarget.
      rewrite (split2_found _ _ _ _ E1). cbn [negb].
      apply Cut_None in E2. rewrite (split2_missing _ _ E2). reflexivity.
  - left. apply parseTarget_no_scheme, Cut_None, E1.
Qed.

End MoreParsing.

(** ** When a stream is finished *)

Section FinishingFacts.
Import Codes Errors Stream StreamObs Call CallObs.
Variable w : World.

Lemma body_finished_send (m : Msg) (st : State) :
  finished (cs (snd (sendMsg_body w m st))) = finished (cs st) /\
  desc (cs (snd (sendMsg_body w m st))) = desc (cs st).
Proof.
  destruct (sendMsg_body_quiet w m st) as [(_ & _ & D & F & _) _].
  split; assumption.
Qed.

(** X25. [sendMsg] finishes the stream exactly when it returns an error
    other than end-of-stream: after a nil or end-of-stream return the
    stream is as finished as it was before.  On a client-streaming stream a
    failed transport write is returned as end-of-stream. *)
Theorem X25_sendMsg_finishes (m : Msg) (st : State) :
  (forall e, fst (sendMsg w m st) = Some e -> e <> io_EOF ->
             finished (cs (snd (sendMsg w m st))) = true) /\
  (fst (sendMsg w m st) = None \/ fst (sendMsg w m st) = Some io_EOF ->
   finished (cs (snd (sendMsg w m st))) = finished (cs st)) /\
  (forall data compData e,
      ClientStreams (desc (cs st)) = true ->
      encode w m = Ok data -> compress w data = Ok compData ->
      Z.of_nat (List.length (snd (msgHeader w data compData)))
      <= maxSendMessageSize (c (cs st)) ->
      Write w (nWrites st) = Some e ->
      fst (sendMsg w m st) = Some io_EOF).
Proof.
  rewrite sendMsg_deferred.
  destruct (body_finished_send m st) as [Hf Hd].
  pose proof (sendMsg_body_cases w m st) as Hb. cbv zeta in Hb.
  destruct (sendMsg_body w m st) as [err st1]. cbn [snd] in Hf, Hd.
  cbn [fst snd]. refine (conj _ (conj _ _)).
  - intros e He Hne.
    assert (Hcond : negb (isNil (Some e)) && negb (isEOF (Some e)) = true)
      by (destruct e; try reflexivity; contradiction).
    rewrite He, Hcond. apply finish_sets_flag.
  - intros [H|H]; rewrite H; cbn [isNil isEOF negb andb]; exact Hf.
  - intros data compData e Hcs He Hc Hsize Hw.
    rewrite He, Hc in Hb.
    destruct (msgHeader w data compData) as [hdr payload]. cbn [snd] in Hsize.
    destruct (Z.ltb_spec (maxSendMessageSize (c (cs st)))
                (Z.of_nat (List.length payload))); [lia|].
    rewrite Hw in Hb. injection Hb as -> ->. cbn [cs desc].
    rewrite Hcs. cbn [negb]. rewrite Hcs. reflexivity.
Qed.

(** X24. [recvMsg] finishes the stream whenever it returns an error, the
    end of the stream included, and on every return when the stream is not
    server-streaming; a message received on a server-streaming stream
    leaves the stream as finished as it was.  When the first read meets the
    end of the stream, the stream's status error is returned, or the
    end-of-stream marker on an OK status. *)
Theorem X24_recvMsg_finishes (st : State) :
  (fst (recvMsg w st) <> None ->
   finished (cs (snd (recvMsg w st))) = true) /\
  (ServerStreams (desc (cs st)) = false ->
   finished (cs (snd (recvMsg w st))) = true) /\
  (ServerStreams (desc (cs st)) = true -> fst (recvMsg w st) = None ->
   finished (cs (snd (recvMsg w st))) = finished (cs st)) /\
  (readerOf w st (nRecvs st) = Some io_EOF ->
   fst (recvMsg w st) = match StatusErr w with
                        | Some statusErr => Some statusErr
                        | None => Some io_EOF
                        end).
Proof.
  rewrite recvMsg_deferred.
  destruct (recvMsg_body_quiet w st) as [(_ & _ & D & F & _) _].
  pose proof (recvMsg_body_cases w st) as Hb. cbv zeta in Hb.
  destruct (recvMsg_body w st) as [err st1]. cbn [fst snd] in *.
  rewrite D. refine (conj _ (conj _ (conj _ _))).
  - intros Hne. destruct err as [e|]; [|contradiction].
    cbn [isNil negb orb]. apply finish_sets_flag.
  - intros Hss. rewrite Hss. cbn [negb]. rewrite orb_true_r.
    apply finish_sets_flag.
  - intros Hss ->. rewrite Hss. cbn [isNil negb orb]. exact F.
  - intros Hr. rewrite Hr in Hb. injection Hb as -> _. reflexivity.
Qed.

(** X26. The decompressor of an attempt is chosen once: after the first
    [recvMsg] the choice is marked as made, and making it again changes
    nothing. *)
Theorem X26_decompressor_chosen_once (st : State) :
  decompSet (attempt (cs (snd (initDecomp w st)))) = true /\
  initDecomp w (snd (initDecomp w st)) = (tt, snd (initDecomp w st)) /\
  decompSet (attempt (cs (snd (recvMsg w st)))) = true.
Proof.
  assert (Hset : forall st', decompSet (attempt (cs (snd (initDecomp w st')))) = true).
  { intros [[o ci d sl fin a] nw nr tr0].
    unfold initDecomp, bind, get, when, modifyStream, ret.
    cbn [cs attempt]. destruct (decompSet a) eqn:Ha; cbn [negb snd cs attempt];
      [exact Ha|].
    destruct (negb (String.eqb (RecvCompress w) "")
              && negb (String.eqb (RecvCompress w) Identity));
      [destruct (dc a) as [ty|]; [destruct (String.eqb ty (RecvCompress w))|]|];
      reflexivity. }
  assert (Hid : forall st', decompSet (attempt (cs st')) = true ->
                            initDecomp w st' = (tt, st')).
  { intros st' H. unfold initDecomp, bind, get, when, ret. rewrite H.
    reflexivity. }
  refine (conj (Hset st) (conj (Hid _ (Hset st)) _)).
  rewrite recvMsg_deferred.
  pose proof (recvMsg_body_cases w st) as Hb. cbv zeta in Hb.
  assert (Hbody : decompSet (attempt (cs (snd (recvMsg_body w st)))) = true).
  { rewrite Hb. destruct (readerOf w st (nRecvs st)) as [e|];
      [|destruct (ServerStreams (desc (cs st)))]; cbn [snd cs]; apply Hset. }
  destruct (recvMsg_body w st) as [err st1]. cbn [snd] in *.
  destruct (negb (isNil err) || negb (ServerStreams (desc (cs st1))));
    cbn [snd]; [|exact Hbody].
  destruct (finished (cs st1)) eqn:Hfin.
  - rewrite (finish_again w err st1 Hfin). exact Hbody.
  - rewrite (finish_first w err st1 Hfin). cbn [snd cs].
    unfold finishedStream. destruct (tr (attempt (cs st1))); exact Hbody.
Qed.

Lemma sendMsg_desc (m : Msg) (st : State) :
  desc (cs (snd (sendMsg w m st))) = desc (cs st).
Proof.
  rewrite sendMsg_deferred.
  destruct (body_finished_send m st) as [_ Hd].
  destruct (sendMsg_body w m st) as [err st1]. cbn [snd] in *.
  destruct (negb (isNil _) && negb (isEOF _)); cbn [snd]; [|exact Hd].
  rewrite (proj1 (finish_steady w _ st1)). exact Hd.
Qed.

Lemma sendMsg_error_unary (m : Msg) (st : State) (e : error) :
  ClientStreams (desc (cs st)) = false ->
  fst (sendMsg w m st) = Some e ->
  finished (cs (snd (sendMsg w m st))) = true.
Proof.
  intros Hcs. rewrite sendMsg_deferred.
  destruct (body_finished_send m st) as [_ Hd].
  destruct (sendMsg_body w m st) as [err st1]. cbn [fst snd] in *.
  rewrite Hd, Hcs. cbn [negb]. rewrite andb_true_r. intros He.
  destruct err as [e0|]; [|discriminate].
  destruct e0; cbn in He; try discriminate; cbn [isEOF isNil negb andb];
    apply finish_sets_flag.
Qed.

Lemma recvMsg_unary_finished (st : State) :
  ServerStreams (desc (cs st)) = false ->
  finished (cs (snd (recvMsg w st))) = true.
Proof.
  intros Hss. rewrite recvMsg_deferred.
  destruct (recvMsg_body_quiet w st) as [(_ & _ & D & _) _].
  destruct (recvMsg_body w st) as [err st1]. cbn [snd] in *.
  rewrite D, Hss. cbn [negb]. rewrite orb_true_r. apply finish_sets_flag.
Qed.

End FinishingFacts.

Section InvokeFinishes.
Import Errors Stream Call CallObs.
Variable newClientStream : Dialler.
Variable req : Msg.

Lemma keep_erased (st : State) (r : option (option error * nat * list State)) :
  option_map fst (keep st r) = option_map fst r.
Proof. destruct r as [[[err n] sts]|]; reflexivity. Qed.

(** [invoke_streams] is [invoke_loop] with the streams kept. *)
Lemma invoke_streams_erased (fuel : nat) :
  forall calls firstAttempt,
    option_map fst (invoke_streams newClientStream req fuel calls firstAttempt)
    = invoke_loop newClientStream req fuel calls firstAttempt.
Proof.
  induction fuel as [|fuel IH]; intros calls firstAttempt; [reflexivity|].
  cbn [invoke_streams invoke_loop].
  destruct (newClientStream calls) as [x|e]; [|reflexivity].
  cbv zeta.
  destruct (SendMsg (world x) req (newState (buildStream unaryStreamDesc x)))
    as [err st1].
  destruct err as [e|].
  - destruct (negb (failFast (c (cs st1))) && Unprocessed (world x) && firstAttempt);
      [|reflexivity].
    rewrite keep_erased. apply IH.
  - destruct (RecvMsg (world x) st1) as [err st2].
    destruct err as [e|]; [|reflexivity].
    destruct (negb (failFast (c (cs st2))) && Unprocessed (world x) && firstAttempt);
      [|reflexivity].
    rewrite keep_erased. apply IH.
Qed.

(** Every stream the loop leaves behind is finished, and there is one for
    every call of [newClientStream] that gave a stream. *)
Lemma invoke_streams_finished (fuel : nat) :
  forall calls firstAttempt r n sts,
    invoke_streams newClientStream req fuel calls firstAttempt = Some (r, n, sts) ->
    Forall (fun st => finished (cs st) = true) sts /\
    (calls + List.length sts <= n <= S (calls + List.length sts))%nat.
Proof.
  induction fuel as [|fuel IH]; intros calls firstAttempt r n sts H;
    [discriminate H|].
  cbn [invoke_streams] in H.
  destruct (newClientStream calls) as [x|e].
  2:{ injection H as <- <- <-. split; [constructor|cbn; lia]. }
  cbv zeta in H. unfold SendMsg, RecvMsg in H.
  pose proof (sendMsg_error_unary (world x) req
                (newState (buildStream unaryStreamDesc x))) as Hsend.
  pose proof (sendMsg_desc (world x) req
                (newState (buildStream unaryStreamDesc x))) as Hdesc.
  destruct (sendMsg (world x) req (newState (buildStream unaryStreamDesc x)))
    as [err st1].
  cbn [fst snd] in *.
  assert (Hkeep : forall st rest,
             finished (cs st) = true ->
             keep st rest = Some (r, n, sts) ->
             (forall r' n' sts', rest = Some (r', n', sts') ->
                Forall (fun st => finished (cs st) = true) sts' /\
                (S calls + List.length sts' <= n' <= S (S calls + List.length sts'))%nat) ->
             Forall (fun st => finished (cs st) = true) sts /\
             (calls + List.length sts <= n <= S (calls + List.length sts))%nat).
  { intros st rest Hfin Hk Hrest. destruct rest as [[[r' n'] sts']|];
      [|discriminate Hk].
    cbn [keep] in Hk. injection Hk as <- <- <-.
    destruct (Hrest r' n' sts' eq_refl) as [Hall Hn].
    split; [constructor; assumption|cbn [List.length]; lia]. }
  destruct err as [e|].
  - assert (Hfin : finished (cs st1) = true) by (apply (Hsend e); reflexivity).
    destruct (negb (failFast (c (cs st1))) && Unprocessed (world x) && firstAttempt).
    + apply (Hkeep st1 _ Hfin H). intros r' n' sts' E. apply (IH _ _ _ _ _ E).
    + injection H as <- <- <-.
      split; [constructor; [exact Hfin|constructor]|cbn; lia].
  - assert (Hfin : finished (cs (snd (recvMsg (world x) st1))) = true).
    { apply recvMsg_unary_finished. rewrite Hdesc. reflexivity. }
    destruct (recvMsg (world x) st1) as [err st2]. cbn [snd] in Hfin.
    destruct err as [e|].
    + destruct (negb (failFast (c (cs st2))) && Unprocessed (world x) && firstAttempt).
      * apply (Hkeep st2 _ Hfin H). intros r' n' sts' E. apply (IH _ _ _ _ _ E).
      * injection H as <- <- <-.
        split; [constructor; [exact Hfin|constructor]|cbn; lia].
    + injection H as <- <- <-.
      split; [constructor; [exact Hfin|constructor]|cbn; lia].
Qed.

(** X27. [invoke] leaves no stream unfinished: the loop that keeps the
    streams is the loop of [invoke]; two turns are enough for it; and
    every stream it made, one for each call of [newClientStream] that gave
    one, is finished when [invoke] returns, whatever happened on the
    attempt. *)
Theorem X27_invoke_finishes_streams (fuel : nat) :
  option_map fst (invoke_streams newClientStream req fuel 0 true)
  = invoke newClientStream req fuel /\
  (exists r n sts,
      invoke_streams newClientStream req (S (S fuel)) 0 true = Some (r, n, sts) /\
      invoke newClientStream req (S (S fuel)) = Some (r, n) /\
      Forall (fun st => finished (cs st) = true) sts /\
      (List.length sts <= n <= S (List.length sts))%nat).
Proof.
  split; [apply invoke_streams_erased|].
  pose proof (invoke_streams_erased (S (S fuel)) 0 true) as He.
  assert (Ht : exists r n,
             invoke_loop newClientStream req (S (S fuel)) 0 true = Some (r, n)).
  { rewrite invoke_loop_step.
    destruct (newClientStream 0%nat) as [x|e]; [|eexists _, _; reflexivity].
    destruct (attemptError x req) as [e|]; [|eexists _, _; reflexivity].
    destruct (retryable x req && true); [|eexists _, _; reflexivity].
    rewrite invoke_loop_last. eexists _, _; reflexivity. }
  destruct Ht as (r & n & Ht). rewrite Ht in He.
  destruct (invoke_streams newClientStream req (S (S fuel)) 0 true)
    as [[[r' n'] sts]|] eqn:Hs; [|discriminate He].
  cbn [option_map fst] in He. injection He as -> ->.
  exists r, n, sts.
  destruct (invoke_streams_finished _ _ _ _ _ _ Hs) as [Hall Hn].
  refine (conj eq_refl (conj Ht (conj Hall _))). cbn [Nat.add] in Hn. exact Hn.
Qed.

End InvokeFinishes.

Section LastWitnesses.
Import Errors Samples.

(** The longest duration there is. *)
Lemma X22_parseDuration_bounded_witness :
  2147483647999999999
  < (2 ^ 31 + 1) * ServiceConfig.Second.
Proof.
  apply (X22_parseDuration_bounded "2147483647.999999999s" 2147483647999999999).
  reflexivity.
Defined.

(** A unary call on a refusing transport: the error finishes the
    stream. *)
Lemma X24_recvMsg_finishes_witness :
  Stream.finished
    (Stream.cs (snd (Stream.recvMsg Examples.refused
                       (Stream.newState Examples.unaryStream)))) = true.
Proof.
  destruct (X24_recvMsg_finishes Examples.refused
              (Stream.newState Examples.unaryStream)) as (_ & H & _).
  apply H. reflexivity.
Defined.

(** A failed write on a client-streaming stream comes back as
    end-of-stream. *)
Lemma X25_sendMsg_finishes_witness :
  fst (Stream.sendMsg Examples.refused "ping" (Stream.newState uploadStream))
  = Some io_EOF.
Proof.
  destruct (X25_sendMsg_finishes Examples.refused "ping"
              (Stream.newState uploadStream)) as (_ & _ & H).
  apply (H (list_byte_of_string "ping") None
           (TransportError "connection refused"));
    [reflexivity|reflexivity|reflexivity|vm_compute; discriminate|reflexivity].
Defined.

End LastWitnesses.

Section RegistryWitness.
Import Registry Samples.

(** Registering Proto leaves the json content-subtype as it was. *)
Lemma X2_RegisterCodec_witness :
  Encoding.GetCodec (put empty "proto" proto) "json"
  = Encoding.GetCodec empty "json".
Proof.
  pose proof (X2_RegisterCodec asciiLower empty (Some proto)) as H.
  change (Encoding.RegisterCodec asciiLower empty (Some proto))
    with (@Ok Encoding.Panic _ (put empty "proto" proto)) in H.
  destruct H as (cd & E & _ & _ & H). injection E as <-.
  apply H. discriminate.
Defined.

End RegistryWitness.
